(** * The section navigation controller of the AI Encyclopedia page

    A shallow embedding of [ai-script.js] (class [AIEncyclopedia] and the
    handler of [DOMContentLoaded]).

    - The document is the list of its elements in document order; an
      element is known by its handle, the position in that list, which is
      what a closure of the script captures.  The script adds and removes
      notification elements only; they are kept apart, in [toasts].
    - A closure handed to [setTimeout] is a constructor of [callback]; the
      host's timers are a queue in firing order (by expiry, then by the
      order of the calls), and time is counted in milliseconds.
    - The state is passed explicitly: every method is a function from
      states to states.

    Left out, since they only restyle what the controller never reads: the
    hover and ripple effects, the parallax and the shadow on scroll, the
    resize handler, the intersection observer, the window-chrome buttons
    (their notifications are the event [Notify]) and the tone itself (its
    calls are counted).  The key-sequence surprise and the throttle of the
    scroll handler have models of their own, [Konami] and [Throttle], apart
    from the state of the controller; the notification of the surprise is
    an event [Notify].  Identifiers are taken to be tokens that can stand
    in an attribute selector, and text is ASCII. *)

From Stdlib Require Import Ascii String ZArith Lia.
From stdpp Require Import base list sorting strings.

Local Open Scope string_scope.
Local Open Scope list_scope.

(** ** Strings, as the script uses them *)

Module Str.

(** [String.prototype.toLowerCase], on the ASCII letters. *)
Definition lower_char (c : ascii) : ascii :=
  let n := nat_of_ascii c in
  if (65 <=? n)%nat && (n <=? 90)%nat then ascii_of_nat (n + 32) else c.

Fixpoint toLowerCase (s : string) : string :=
  match s with
  | EmptyString => EmptyString
  | String c r => String (lower_char c) (toLowerCase r)
  end.

(** [String.prototype.includes]: some suffix of [hay] starts with
    [needle]. *)
Fixpoint includes (needle hay : string) : bool :=
  if String.prefix needle hay then true
  else match hay with
       | EmptyString => false
       | String _ r => includes needle r
       end.

(** White space removed by [String.prototype.trim] (ASCII part). *)
Definition is_ws (c : ascii) : bool :=
  let n := nat_of_ascii c in
  (n =? 32)%nat || ((9 <=? n)%nat && (n <=? 13)%nat).

Fixpoint trim_start (s : string) : string :=
  match s with
  | EmptyString => EmptyString
  | String c r => if is_ws c then trim_start r else s
  end.

(** Drops the trailing white space: a character is kept when it is not
    white space or when something survives behind it. *)
Fixpoint trim_end (s : string) : string :=
  match s with
  | EmptyString => EmptyString
  | String c r =>
      match trim_end r with
      | EmptyString => if is_ws c then EmptyString else String c EmptyString
      | r' => String c r'
      end
  end.

Definition trim (s : string) : string := trim_end (trim_start s).

(** The double-quote character of the notification text. *)
Definition dquote : string := String (ascii_of_nat 34) EmptyString.

End Str.

(** ** The document *)

Module Dom.

(** What the script reads and writes of an element.  [el_id] is the [id]
    attribute (empty when absent), [el_section] the class
    [content-section], [el_link] the [data-chapter] attribute of a menu
    entry of class [nav-link] (menu entries are the elements tagged with
    that attribute), [el_active] the class [active], [el_marks] the terms
    wrapped in [mark] elements by the search highlight, [el_cards] the
    animatable descendants, each with whether it has been revealed. *)
Record element := Element {
  el_id : string;
  el_section : bool;
  el_link : option string;
  el_active : bool;
  el_animation : string;
  el_transform : string;
  el_text : string;
  el_marks : list string;
  el_cards : list bool
}.

Definition set_active (b : bool) (e : element) : element :=
  Element (el_id e) (el_section e) (el_link e) b (el_animation e)
          (el_transform e) (el_text e) (el_marks e) (el_cards e).

Definition set_animation (a : string) (e : element) : element :=
  Element (el_id e) (el_section e) (el_link e) (el_active e) a
          (el_transform e) (el_text e) (el_marks e) (el_cards e).

Definition set_transform (t : string) (e : element) : element :=
  Element (el_id e) (el_section e) (el_link e) (el_active e)
          (el_animation e) t (el_text e) (el_marks e) (el_cards e).

Definition set_marks (m : list string) (e : element) : element :=
  Element (el_id e) (el_section e) (el_link e) (el_active e)
          (el_animation e) (el_transform e) (el_text e) m (el_cards e).

Definition set_cards (c : list bool) (e : element) : element :=
  Element (el_id e) (el_section e) (el_link e) (el_active e)
          (el_animation e) (el_transform e) (el_text e) (el_marks e) c.

Abbreviation document := (list element).

(** [document.getElementById]: the first element carrying the id; the
    empty id names nothing. *)
Definition getElementById (doc : document) (id : string) : option nat :=
  if decide (id = EmptyString) then None
  else fst <$> list_find (fun e => el_id e = id) doc.

(** [document.querySelector] on the attribute selector for
    [data-chapter] equal to [ch]. *)
Definition queryChapterLink (doc : document) (ch : string) : option nat :=
  fst <$> list_find (fun e => el_link e = Some ch) doc.

(** Handles of the elements that satisfy [p], in document order, counted
    from [k]. *)
Fixpoint select_from (p : element -> bool) (k : nat) (doc : document)
  : list nat :=
  match doc with
  | [] => []
  | e :: r => if p e then k :: select_from p (S k) r
              else select_from p (S k) r
  end.

(** [document.querySelectorAll('.content-section')]. *)
Definition contentSections (doc : document) : list nat :=
  select_from el_section 0 doc.

Definition is_link (e : element) : bool :=
  match el_link e with Some _ => true | None => false end.

(** The id under which an element shows: content sections that carry the
    class [active] show, nothing else does. *)
Definition shown (e : element) : option string :=
  if el_section e && el_active e then Some (el_id e) else None.

(** The ids of the content sections marked active, in document order. *)
Definition active_sections (doc : document) : list string :=
  omap shown doc.

(** The part of an element that no operation of the script changes. *)
Definition skeleton (e : element)
  : string * bool * option string * string * nat :=
  (el_id e, el_section e, el_link e, el_text e, length (el_cards e)).

End Dom.

Export Dom.

(** ** Timers, notifications and the controller state *)

Module Host.

(** The closures passed to [setTimeout], one constructor per closure of
    the script; an element captured by a closure is its handle, the
    position in the document. *)
Inductive callback :=
| RemoveActive (el : nat)              (* navigateToChapter, 300 ms *)
| ShowChapter (chapter : string)       (* navigateToChapter, 150 ms *)
| NavFeedback (el : nat)               (* updateActiveNav, 150 ms *)
| Highlight (el : nat) (term : string) (* performSearch, 500 ms *)
| Unhighlight (el : nat)               (* highlightText, 5000 ms *)
| RevealCard (el : nat) (card : nat)   (* animateSection, index * 100 ms *)
| ToastIn (id : nat)                   (* showNotification, 10 ms *)
| ToastOut (id : nat)                  (* showNotification, 3000 ms *)
| ToastRemove (id : nat).              (* showNotification, 300 ms later *)

(** A pending timer: the time at which it expires and its closure. *)
Definition timer := (nat * callback)%type.

(** The queue is kept in firing order: by expiry, and among equal expiries
    in the order of the [setTimeout] calls. *)
Fixpoint insert_timer (t : timer) (q : list timer) : list timer :=
  match q with
  | [] => [t]
  | u :: r => if (u.1 <=? t.1)%nat then u :: insert_timer t r else t :: q
  end.

(** A notification element appended to the body. *)
Record toast := Toast {
  toast_id : nat;
  toast_message : string;
  toast_type : string;
  toast_transform : string
}.

Definition set_toast_transform (tr : string) (t : toast) : toast :=
  Toast (toast_id t) (toast_message t) (toast_type t) tr.

Record state := State {
  currentSection : string;     (* this.currentSection *)
  doc : document;
  location_hash : string;      (* window.location.hash *)
  history : list string;       (* URLs given to history.pushState *)
  scrollTop : nat;             (* scrollTop of .main-content *)
  tones : nat;                 (* calls of playTransitionSound *)
  toasts : list toast;         (* notifications attached to the body *)
  toast_seq : nat;             (* notifications created so far *)
  timers : list timer;
  clock : nat                  (* milliseconds since the page loaded *)
}.

Definition with_current (c : string) (s : state) : state :=
  State c (doc s) (location_hash s) (history s) (scrollTop s) (tones s)
        (toasts s) (toast_seq s) (timers s) (clock s).

Definition with_doc (d : document) (s : state) : state :=
  State (currentSection s) d (location_hash s) (history s) (scrollTop s)
        (tones s) (toasts s) (toast_seq s) (timers s) (clock s).

Definition with_url (h : string) (hist : list string) (s : state) : state :=
  State (currentSection s) (doc s) h hist (scrollTop s) (tones s)
        (toasts s) (toast_seq s) (timers s) (clock s).

Definition with_scrollTop (n : nat) (s : state) : state :=
  State (currentSection s) (doc s) (location_hash s) (history s) n
        (tones s) (toasts s) (toast_seq s) (timers s) (clock s).

Definition with_tones (n : nat) (s : state) : state :=
  State (currentSection s) (doc s) (location_hash s) (history s)
        (scrollTop s) n (toasts s) (toast_seq s) (timers s) (clock s).

Definition with_toasts (l : list toast) (n : nat) (s : state) : state :=
  State (currentSection s) (doc s) (location_hash s) (history s)
        (scrollTop s) (tones s) l n (timers s) (clock s).

Definition with_timers (q : list timer) (s : state) : state :=
  State (currentSection s) (doc s) (location_hash s) (history s)
        (scrollTop s) (tones s) (toasts s) (toast_seq s) q (clock s).

Definition with_clock (n : nat) (s : state) : state :=
  State (currentSection s) (doc s) (location_hash s) (history s)
        (scrollTop s) (tones s) (toasts s) (toast_seq s) (timers s) n.

(** [setTimeout(cb, delay)]. *)
Definition setTimeout (delay : nat) (cb : callback) (s : state) : state :=
  with_timers (insert_timer (clock s + delay, cb) (timers s)) s.

(** [history.pushState(null, null, url)]: a new history entry and a new
    fragment; by the contract of the call the host neither loads a page nor
    scrolls.  The guard on [history.pushState] holds in every host that
    accepts the script's syntax. *)
Definition pushState (url : string) (s : state) : state :=
  with_url url (url :: history s) s.

(** The fragment of the URL: [window.location.hash.slice(1)]. *)
Definition fragment (s : state) : string :=
  match location_hash s with
  | EmptyString => EmptyString
  | String _ r => r
  end.

End Host.

Export Host.

(** ** The controller: the methods of class [AIEncyclopedia] *)

Module AIEncyclopedia.

(** [animateSection]: every animatable descendant is hidden, and a timer
    per descendant reveals it, [index * 100] ms later. *)
Definition animateSection (i : nat) (s : state) : state :=
  match doc s !! i with
  | None => s
  | Some e =>
      let n := length (el_cards e) in
      foldl (fun acc k => setTimeout (k * 100) (RevealCard i k) acc)
            (with_doc (alter (set_cards (replicate n false)) i (doc s)) s)
            (seq 0 n)
  end.

Definition hide_section (e : element) : element :=
  if el_section e then set_active false e else e.

(** [showSection]: every content section loses the class [active]; the
    element with the given id, when there is one, gains it, the main
    content is scrolled to its top and the element's cards are animated. *)
Definition showSection (sectionId : string) (s : state) : state :=
  let d := hide_section <$> doc s in
  match getElementById d sectionId with
  | Some i =>
      animateSection i
        (with_scrollTop 0 (with_doc (alter (set_active true) i d) s))
  | None => with_doc d s
  end.

(** [playTransitionSound]: a tone, best effort; only counted. *)
Definition playTransitionSound (s : state) : state :=
  with_tones (S (tones s)) s.

(** [navigateToChapter]. *)
Definition navigateToChapter (chapter : string) (s : state) : state :=
  if decide (currentSection s = chapter) then s
  else
    let currentEl := getElementById (doc s) (currentSection s) in
    match getElementById (doc s) chapter with
    | None => s
    | Some _ =>
        let s1 :=
          match currentEl with
          | Some c =>
              setTimeout 300 (RemoveActive c)
                (with_doc
                   (alter (set_animation "fadeOut 0.3s ease-out") c (doc s))
                   s)
          | None => s
          end in
        setTimeout 150 (ShowChapter chapter) s1
    end.

Definition unlink (e : element) : element :=
  if is_link e then set_active false e else e.

(** [updateActiveNav]. *)
Definition updateActiveNav (activeLink : nat) (s : state) : state :=
  let d := unlink <$> doc s in
  let d' :=
    alter (fun e => set_transform "scale(0.98)" (set_active true e))
          activeLink d in
  setTimeout 150 (NavFeedback activeLink) (with_doc d' s).

(** The two lines that follow every call of [navigateToChapter] made from
    the keyboard and from the search: the menu entry of the chapter, when
    the document has one, becomes the active entry. *)
Definition markChapterLink (chapter : string) (s : state) : state :=
  match queryChapterLink (doc s) chapter with
  | Some l => updateActiveNav l s
  | None => s
  end.

(** [showNotification]. *)
Definition showNotification (message type : string) (s : state) : state :=
  let id := toast_seq s in
  let t := Toast id message type "translateX(350px)" in
  setTimeout 3000 (ToastOut id)
    (setTimeout 10 (ToastIn id)
       (with_toasts (toasts s ++ [t]) (S id) s)).

(** [highlightText]: the occurrences of the term are wrapped in [mark]
    elements, unwrapped 5 s later.  The walk over the text nodes and the
    replacement are kept abstract: the section records the term. *)
Definition highlightText (container : nat) (term : string) (s : state)
  : state :=
  let mark e :=
    if Str.includes term (Str.toLowerCase (el_text e))
    then set_marks (term :: el_marks e) e else e in
  setTimeout 5000 (Unhighlight container)
    (with_doc (alter mark container (doc s)) s).

Definition alter_toast (f : toast -> toast) (id : nat) (l : list toast)
  : list toast :=
  (fun t => if decide (toast_id t = id) then f t else t) <$> l.

(** What a closure does when its timer fires. *)
Definition run_callback (cb : callback) (s : state) : state :=
  match cb with
  | RemoveActive c =>
      with_doc
        (alter (fun e => set_animation EmptyString (set_active false e))
               c (doc s)) s
  | ShowChapter chapter =>
      pushState ("#" +:+ chapter)
        (playTransitionSound (with_current chapter (showSection chapter s)))
  | NavFeedback l =>
      with_doc (alter (set_transform EmptyString) l (doc s)) s
  | Highlight c term => highlightText c term s
  | Unhighlight c => with_doc (alter (set_marks []) c (doc s)) s
  | RevealCard c k =>
      with_doc
        (alter (fun e => set_cards (<[k := true]> (el_cards e)) e) c (doc s))
        s
  | ToastIn id =>
      with_toasts
        (alter_toast (set_toast_transform "translateX(0)") id (toasts s))
        (toast_seq s) s
  | ToastOut id =>
      setTimeout 300 (ToastRemove id)
        (with_toasts
           (alter_toast (set_toast_transform "translateX(350px)") id
                        (toasts s))
           (toast_seq s) s)
  | ToastRemove id =>
      with_toasts
        (filter (fun t => toast_id t <> id) (toasts s)) (toast_seq s) s
  end.

(** *** Search *)

(** One turn of the [forEach] of [performSearch] over the section with
    handle [i]; the flag is the variable [found].  The [return] at the
    end of the arrow function ends this turn only. *)
Definition search_visit (term : string) (acc : state * bool) (i : nat)
  : state * bool :=
  let '(s, found) := acc in
  match doc s !! i with
  | None => acc
  | Some section =>
      let content := Str.toLowerCase (el_text section) in
      if Str.includes term content then
        let sectionId := el_id section in
        (setTimeout 500 (Highlight i term)
           (markChapterLink sectionId (navigateToChapter sectionId s)),
         true)
      else acc
  end.

Definition no_results (term : string) : string :=
  "No results found for " +:+ Str.dquote +:+ term +:+ Str.dquote.

(** [performSearch]. *)
Definition performSearch (term : string) (s : state) : state :=
  let sections := contentSections (doc s) in
  let '(s', found) := foldl (search_visit term) (s, false) sections in
  if found then s' else showNotification (no_results term) "warning" s'.

(** [showSearchDialog]; the argument is what [prompt] returned, [None]
    when the dialog was cancelled. *)
Definition showSearchDialog (answer : option string) (s : state) : state :=
  match answer with
  | None => s
  | Some searchTerm =>
      if decide (searchTerm = EmptyString) then s
      else if decide (Str.trim searchTerm = EmptyString) then s
      else performSearch (Str.toLowerCase (Str.trim searchTerm)) s
  end.

(** *** Keyboard *)

Definition chapters : list string :=
  [ "introduction"; "genesis"; "evolution"; "current-state";
    "human-transformation"; "dark-side"; "psychological-impact";
    "future-scenarios"; "singularity"; "conclusion" ].

(** [Array.prototype.indexOf], counting from [k]: -1 when absent. *)
Fixpoint index_from (k : Z) (l : list string) (x : string) : Z :=
  match l with
  | [] => (-1)%Z
  | y :: r => if decide (y = x) then k else index_from (k + 1)%Z r x
  end.

Definition indexOf (l : list string) (x : string) : Z := index_from 0%Z l x.

(** The variable [nextIndex] of [navigateWithArrowKeys]. *)
Definition nextIndex (key : string) (currentIndex : Z) : Z :=
  let len := Z.of_nat (length chapters) in
  if decide (key = "ArrowLeft") then
    if (currentIndex >? 0)%Z then (currentIndex - 1)%Z else (len - 1)%Z
  else
    if (currentIndex <? len - 1)%Z then (currentIndex + 1)%Z else 0%Z.

(** The chapter that an arrow key leads to from section [current]; the
    index is always within the catalog ([arrowTarget_defined]). *)
Definition arrowTarget (key current : string) : option string :=
  chapters !! Z.to_nat (nextIndex key (indexOf chapters current)).

(** [navigateWithArrowKeys]. *)
Definition navigateWithArrowKeys (key : string) (s : state) : state :=
  match arrowTarget key (currentSection s) with
  | Some ch => markChapterLink ch (navigateToChapter ch s)
  | None => s
  end.

Record key_event := KeyEvent {
  key : string;
  metaKey : bool;
  ctrlKey : bool
}.

Definition is_digit (c : ascii) : bool :=
  let n := nat_of_ascii c in (48 <=? n)%nat && (n <=? 57)%nat.

(** [parseInt] on a string that starts with a digit: the value of its
    longest prefix of decimal digits. *)
Fixpoint parse_digits (acc : nat) (s : string) : nat :=
  match s with
  | EmptyString => acc
  | String c r =>
      if is_digit c then parse_digits (10 * acc + (nat_of_ascii c - 48)) r
      else acc
  end.

(** The listener of [setupKeyboardNavigation]: three tests in a row. *)
Definition onNavigationKey (e : key_event) (s : state) : state :=
  let s1 :=
    if (metaKey e || ctrlKey e)
       && String.leb "1" (key e) && String.leb (key e) "9"
    then
      let index := parse_digits 0 (key e) - 1 in
      match chapters !! index with
      | Some ch => markChapterLink ch (navigateToChapter ch s)
      | None => s
      end
    else s in
  let s2 :=
    if decide (key e = "ArrowLeft" \/ key e = "ArrowRight")
    then navigateWithArrowKeys (key e) s1 else s1 in
  if decide (key e = "Escape")
  then markChapterLink "introduction" (navigateToChapter "introduction" s2)
  else s2.

(** The listener of [setupSearchFunctionality]. *)
Definition onSearchKey (e : key_event) (answer : option string) (s : state)
  : state :=
  if (metaKey e || ctrlKey e) && bool_decide (key e = "f")
  then showSearchDialog answer s else s.

(** The click listener of a menu entry. *)
Definition onLinkClick (link : nat) (s : state) : state :=
  match doc s !! link with
  | Some e =>
      match el_link e with
      | Some chapter => updateActiveNav link (navigateToChapter chapter s)
      | None => s
      end
  | None => s
  end.

End AIEncyclopedia.

Export AIEncyclopedia.

(** ** The event loop *)

Module Loop.

(** The head of the queue fires: the clock reaches its expiry (it does not
    go back when the timer is overdue). *)
Definition fire (s : state) : state :=
  match timers s with
  | [] => s
  | (e, cb) :: q =>
      run_callback cb (with_clock (Nat.max (clock s) e) (with_timers q s))
  end.

(** How many firings a pending closure accounts for: itself and the
    timers it sets. *)
Definition cb_weight (d : document) (cb : callback) : nat :=
  match cb with
  | ShowChapter ch =>
      match getElementById d ch with
      | Some i =>
          match d !! i with
          | Some e => S (length (el_cards e))
          | None => 1
          end
      | None => 1
      end
  | Highlight _ _ => 2
  | ToastOut _ => 2
  | _ => 1
  end.

Definition queue_weight (d : document) (q : list timer) : nat :=
  sum_list ((fun t => cb_weight d t.2) <$> q).

Definition weight (s : state) : nat := queue_weight (doc s) (timers s).

Definition due (horizon : option nat) (t : timer) : bool :=
  match horizon with
  | Some h => (t.1 <=? h)%nat
  | None => true
  end.

(** Timers fire in queue order while the head is due. *)
Fixpoint run (fuel : nat) (horizon : option nat) (s : state) : state :=
  match fuel with
  | 0 => s
  | S fuel' =>
      match timers s with
      | [] => s
      | t :: _ => if due horizon t then run fuel' horizon (fire s) else s
      end
  end.

(** [d] milliseconds pass. *)
Definition elapse (d : nat) (s : state) : state :=
  let h := clock s + d in
  with_clock h (run (weight s) (Some h) s).

(** Every pending timer fires, and every timer set meanwhile. *)
Definition settle (s : state) : state := run (weight s) None s.

(** What happens to the page.  A key press carries the answer that the
    search prompt would get; [Notify] stands for the decorations that only
    show a notification (minimise, full screen, the key-sequence
    surprise). *)
Inductive event :=
| Click (link : nat)
| KeyDown (e : key_event) (answer : option string)
| SearchIcon (answer : option string)
| Notify (message type : string)
| Scroll (top : nat)
| Elapse (d : nat).

Definition handle (ev : event) (s : state) : state :=
  match ev with
  | Click link => onLinkClick link s
  | KeyDown e answer => onSearchKey e answer (onNavigationKey e s)
  | SearchIcon answer => showSearchDialog answer s
  | Notify message type => showNotification message type s
  | Scroll top => with_scrollTop top s
  | Elapse d => elapse d s
  end.

(** The page as loaded: the constructor and [init], then the handler of
    [DOMContentLoaded] reads the fragment of the address. *)
Definition construct (page : document) (hash : string) : state :=
  showSection "introduction"
    (State "introduction" page hash [] 0 0 [] 0 [] 0).

Definition boot (page : document) (hash : string) : state :=
  let s := construct page hash in
  let h := fragment s in
  if decide (h = EmptyString) then s
  else match queryChapterLink (doc s) h with
       | Some navLink => updateActiveNav navLink (navigateToChapter h s)
       | None => s
       end.

Definition play (evs : list event) (s : state) : state :=
  foldl (fun acc ev => handle ev acc) s evs.

(** The states of a page: those that some sequence of events leads to. *)
Inductive reachable (page : document) (hash : string) : state -> Prop :=
| reach_boot : reachable page hash (boot page hash)
| reach_step s ev :
    reachable page hash s -> reachable page hash (handle ev s).

End Loop.

Export Loop.

(** ** A sample page *)

Module Sample.

Definition section (id text : string) (active : bool) : element :=
  Element id true None active EmptyString EmptyString text [] [false; false].

Definition link (ch : string) (active : bool) : element :=
  Element EmptyString false (Some ch) active EmptyString EmptyString ch [] [].

Definition page : document :=
  [ link "introduction" true; link "genesis" false; link "evolution" false;
    section "introduction" "Hello World" true;
    section "genesis" "Foo Bar" false;
    section "evolution" "bar baz" false ].

Definition mod_key (k : string) : key_event := KeyEvent k false true.
Definition plain_key (k : string) : key_event := KeyEvent k false false.

End Sample.

(** ** The vocabulary of the proofs *)

(** Firing order: expiries never decrease along the queue. *)
Definition in_order (q : list timer) : Prop :=
  StronglySorted (fun a b : timer => a.1 <= b.1) q.

(** The skeleton of a document: what stays of it whatever the script
    does. *)
Definition skel (d : document) := skeleton <$> d.

(** The timers that [navigateToChapter] sets. *)
Definition is_nav (t : timer) : bool :=
  match t.2 with
  | RemoveActive _ | ShowChapter _ => true
  | _ => false
  end.

(** The pending timers of navigations, in firing order. *)
Fixpoint nav_timers (q : list timer) : list timer :=
  match q with
  | [] => []
  | t :: r => if is_nav t then t :: nav_timers r else nav_timers r
  end.

(** The chapter of the last pending [ShowChapter], if any. *)
Fixpoint last_show (q : list timer) : option string :=
  match q with
  | [] => None
  | t :: r =>
      match last_show r with
      | Some x => Some x
      | None => match t.2 with ShowChapter x => Some x | _ => None end
      end
  end.

(** Expiries of the navigation timers, relative to the clock [c]: a
    pending show is at most 150 ms ahead, a pending removal 300 ms. *)
Definition bounded (c : nat) (q : list timer) : Prop :=
  forall e cb, (e, cb) ∈ nav_timers q ->
    match cb with
    | ShowChapter _ => e <= c + 150
    | _ => e <= c + 300
    end.

(** Menu entries are not content sections. *)
Definition menu_disjoint (d : document) : Prop :=
  forall e, e ∈ d -> el_section e = true -> el_link e = None.

(** The elements that carry an id are the content sections: the registry
    of the data model. *)
Definition registered (d : document) : Prop :=
  forall e, e ∈ d -> el_id e <> EmptyString -> el_section e = true.

(** A step that keeps the current section, the clock, the address, the
    skeleton of the document and the pending navigation timers. *)
Record frame_step (s s' : state) : Prop := FrameStep {
  fs_current : currentSection s' = currentSection s;
  fs_clock : clock s' = clock s;
  fs_hash : location_hash s' = location_hash s;
  fs_history : history s' = history s;
  fs_skel : skel (doc s') = skel (doc s);
  fs_nav : nav_timers (timers s') = nav_timers (timers s);
  fs_order : in_order (timers s) -> in_order (timers s')
}.

(** A frame step that, on a page whose menu is apart from its sections,
    also keeps the shown sections. *)
Definition cosmetic_step (s s' : state) : Prop :=
  frame_step s s' /\
  (menu_disjoint (doc s) -> active_sections (doc s') = active_sections (doc s)).

(** The handle names a menu entry (or nothing). *)
Definition link_at (l : nat) (d : document) : Prop :=
  forall e, d !! l = Some e -> is_link e = true.

(** The effect of a request that passes both guards. *)
Record nav_effect (ch : string) (s s' : state) : Prop := NavEffect {
  ne_current : currentSection s' = currentSection s;
  ne_clock : clock s' = clock s;
  ne_hash : location_hash s' = location_hash s;
  ne_history : history s' = history s;
  ne_skel : skel (doc s') = skel (doc s);
  ne_active : active_sections (doc s') = active_sections (doc s);
  ne_order : in_order (timers s) -> in_order (timers s');
  ne_nav :
    in_order (timers s) ->
    nav_timers (timers s')
    = insert_timer (clock s + 150, ShowChapter ch)
        match getElementById (doc s) (currentSection s) with
        | Some c =>
            insert_timer (clock s + 300, RemoveActive c)
                         (nav_timers (timers s))
        | None => nav_timers (timers s)
        end
}.

(** The handlers of the input events are made of navigation requests and
    of cosmetic steps. *)
Inductive handler_path : state -> state -> Prop :=
| path_done s : handler_path s s
| path_navigate ch s s' :
    handler_path (navigateToChapter ch s) s' -> handler_path s s'
| path_cosmetic s s1 s' :
    cosmetic_step s s1 -> handler_path s1 s' -> handler_path s s'.

(** At most one section shows, and then it is the current one. *)
Definition at_most_current (s : state) : Prop :=
  active_sections (doc s) = [] \/
  active_sections (doc s) = [currentSection s].

(** Exactly one section shows: the current one. *)
Definition exactly_current (s : state) : Prop :=
  active_sections (doc s) = [currentSection s].

(** The document is the page up to what the script changes, and the queue
    is in firing order with its navigation timers within their delays. *)
Record tidy (page : document) (s : state) : Prop := Tidy {
  tidy_skel : skel (doc s) = skel page;
  tidy_order : in_order (timers s);
  tidy_bounded : bounded (clock s) (timers s)
}.

(** Chapter [X] is where the page is heading: its show is the last one
    pending, or no show is pending and the page is at [X], the address
    having been pushed. *)
Definition lands (X : string) (s : state) : Prop :=
  last_show (timers s) = Some X \/
  (last_show (timers s) = None /\ currentSection s = X /\
   location_hash s = "#" +:+ X /\ head (history s) = Some ("#" +:+ X)).

(** The content sections whose text, in lower case, includes the term: the
    sections that [performSearch] counts as matches. *)
Definition matches (term : string) (d : document) : list string :=
  omap (fun e => if el_section e
                    && Str.includes term (Str.toLowerCase (el_text e))
                 then Some (el_id e) else None) d.

(** A page with a section that the keyboard catalog does not list. *)
Module Manual.

Definition page : document :=
  Sample.page ++ [ Sample.link "appendix" false;
                   Sample.section "appendix" "Notes" false ].

(** The page opened at the address of the appendix, once at rest. *)
Definition at_appendix : state :=
  settle (boot page (String "#" "appendix")).

End Manual.

(** The id of the element with handle [c] is not [x]. *)
Definition not_named (d : document) (c : nat) (x : string) : Prop :=
  forall e, d !! c = Some e -> el_id e <> x.

(** Along the queue, taken in firing order from a page at section [cur],
    no removal meets the section that is current when it fires. *)
Fixpoint safe (d : document) (cur : string) (q : list timer) : Prop :=
  match q with
  | [] => True
  | (_, RemoveActive c) :: r => not_named d c cur /\ safe d cur r
  | (_, ShowChapter x) :: r => safe d x r
  | _ :: r => safe d cur r
  end.

(** The same, for the timers that expire by [h] only. *)
Fixpoint safe_upto (h : nat) (d : document) (cur : string) (q : list timer)
  : Prop :=
  match q with
  | [] => True
  | (e, cb) :: r =>
      if (e <=? h)%nat then
        match cb with
        | RemoveActive c => not_named d c cur /\ safe_upto h d cur r
        | ShowChapter x => safe_upto h d x r
        | _ => safe_upto h d cur r
        end
      else True
  end.

(** No pending removal that expires later than 150 ms from now is for the
    element named [X]: a request for [X] can be made. *)
Definition clear_for (X : string) (s : state) : Prop :=
  forall e c, (e, RemoveActive c) ∈ nav_timers (timers s) ->
    clock s + 150 < e -> not_named (doc s) c X.

(** Every pending removal is for the current section. *)
Definition removals_current (s : state) : Prop :=
  forall e c el, (e, RemoveActive c) ∈ nav_timers (timers s) ->
    doc s !! c = Some el -> el_id el = currentSection s.

(** No navigation is under way. *)
Definition quiet (s : state) : Prop := nav_timers (timers s) = [].

(** The page shows its current section, no pending removal will change
    that, and every pending show is for an element of the page. *)
Record steady (page : document) (s : state) : Prop := Steady {
  steady_tidy : tidy page s;
  steady_exact : exactly_current s;
  steady_safe : safe (doc s) (currentSection s) (timers s);
  steady_shows :
    forall e x, (e, ShowChapter x) ∈ nav_timers (timers s) ->
      is_Some (getElementById (doc s) x)
}.

(** The states reached when every input event finds the page quiet: time
    may pass at any moment, an event is handled only when no timer of a
    navigation is pending. *)
Inductive calm_reachable (page : document) (hash : string) : state -> Prop :=
| calm_boot : calm_reachable page hash (boot page hash)
| calm_elapse s d :
    calm_reachable page hash s -> calm_reachable page hash (elapse d s)
| calm_event s ev :
    calm_reachable page hash s -> quiet s ->
    calm_reachable page hash (handle ev s).

(** The state after [navigateToChapter ch] and the update of the menu:
    what every keyboard shortcut does with its target. *)
Definition goes_to (ch : string) (s : state) : state :=
  markChapterLink ch (navigateToChapter ch s).

(** States of the sample page. *)
Module Rest.

(** The sample page a second after it was loaded. *)
Definition idle : state := elapse 1000 (boot Sample.page EmptyString).

(** Ctrl+2, the same again 100 ms later, Escape 60 ms after that, and then
    a second without input. *)
Definition hasty : list event :=
  [ KeyDown (Sample.mod_key "2") None; Elapse 100;
    KeyDown (Sample.mod_key "2") None; Elapse 60;
    KeyDown (Sample.plain_key "Escape") None; Elapse 1000 ].

(** Where the hasty keys leave the page. *)
Definition blank : state := play hasty idle.

(** Ctrl+2 on the idle page, and a second without input. *)
Definition unhurried : state :=
  elapse 1000 (handle (KeyDown (Sample.mod_key "2") None) idle).

End Rest.

(** The ids of the content sections, in document order: the registry of
    the data model, as the document has it. *)
Definition section_ids (d : document) : list string :=
  omap (fun e => if el_section e then Some (el_id e) else None) d.

(** The chapter of the last pending show among those that expire by [h],
    if any: the show that decides where the page is at time [h]. *)
Fixpoint last_show_upto (h : nat) (q : list timer) : option string :=
  match q with
  | [] => None
  | t :: r =>
      match last_show_upto h r with
      | Some x => Some x
      | None =>
          match t.2 with
          | ShowChapter x => if (t.1 <=? h)%nat then Some x else None
          | _ => None
          end
      end
  end.

(** The current section and the address at time [h], read off the queue
    of [s']: those of the last show due by [h], else those of [s']. *)
Definition view_at (h : nat) (s' : state) : string * string :=
  match last_show_upto h (timers s') with
  | Some x => (x, "#" +:+ x)
  | None => (currentSection s', location_hash s')
  end.

(** A page with an element that carries an id and is not a content
    section: a side bar, with a menu entry that leads to it. *)
Module Framed.

Definition sidebar : element :=
  Element "sidebar" false None false EmptyString EmptyString "Contents" [] [].

Definition page : document :=
  Sample.page ++ [ Sample.link "sidebar" false; sidebar ].

(** The page a second after it was loaded. *)
Definition idle : state := elapse 1000 (boot page EmptyString).

End Framed.

(** The key that carries the digit [n]. *)
Definition digit_key (n : nat) : string :=
  String (ascii_of_nat (48 + n)) EmptyString.

(** A page with a menu entry and a section for every chapter of the
    keyboard catalog. *)
Module Catalog.

Definition page : document :=
  ((fun ch => Sample.link ch false) <$> chapters)
  ++ ((fun ch => Sample.section ch ch false) <$> chapters).

(** The page, loaded and at rest. *)
Definition idle : state := elapse 1000 (boot page EmptyString).

End Catalog.

(** The current section names an element, every pending show is for an
    element, and the address is the loaded one until the first show has
    fired and names the current section from then on. *)
Record anchored (hash : string) (s : state) : Prop := Anchored {
  an_current : is_Some (getElementById (doc s) (currentSection s));
  an_shows :
    forall e x, (e, ShowChapter x) ∈ nav_timers (timers s) ->
      is_Some (getElementById (doc s) x);
  an_url :
    (history s = [] /\ currentSection s = "introduction" /\
     location_hash s = hash) \/
    (location_hash s = "#" +:+ currentSection s /\
     head (history s) = Some ("#" +:+ currentSection s))
}.

(** The matching sections that a search can go to from section [cur], in
    document order: those that carry an id, other than [cur]. *)
Definition destinations (term cur : string) (d : document) : list string :=
  filter (fun x => x <> cur /\ x <> EmptyString) (matches term d).

(** Every character is white space (the empty string included): what
    [trim] reduces to nothing. *)
Fixpoint all_ws (q : string) : bool :=
  match q with
  | EmptyString => true
  | String c r => Str.is_ws c && all_ws r
  end.

(** The handles of the menu entries marked active, in document order. *)
Definition active_links (d : document) : list nat :=
  select_from (fun e => is_link e && el_active e) 0 d.

(** A step that leaves the notifications alone and cancels no timer. *)
Record grows (s s' : state) : Prop := Grows {
  gr_toasts : toasts s' = toasts s;
  gr_timers : forall t, t ∈ timers s -> t ∈ timers s'
}.

(** Every notification on the page has its dismissal under way: the timer
    that slides it out, or the one that removes it, is pending. *)
Definition attended (s : state) : Prop :=
  forall t, t ∈ toasts s ->
    exists e, (e, ToastOut (toast_id t)) ∈ timers s \/
              (e, ToastRemove (toast_id t)) ∈ timers s.

(** ** The key-sequence surprise *)

(** The listener that the handler of [DOMContentLoaded] adds last: it
    keeps the codes of the last keys pressed and shows a notification when
    they are the sequence [konamiCode]. *)
Module Konami.

Definition konamiCode : list nat := [38; 38; 40; 40; 37; 39; 37; 39; 66; 65].

(** [Array.prototype.slice(-n)]: the last [n] elements, all of them when
    there are fewer. *)
Definition slice_last (n : nat) (l : list nat) : list nat :=
  drop (length l - n) l.

(** [konami.every((val, i) => val === konamiCode[i])], from index [i]. *)
Fixpoint every_from (i : nat) (l : list nat) : bool :=
  match l with
  | [] => true
  | val :: r => bool_decide (konamiCode !! i = Some val) && every_from (S i) r
  end.

(** One key press: the buffer afterwards, and whether the surprise is
    shown. *)
Definition press (konami : list nat) (keyCode : nat) : list nat * bool :=
  let pushed := konami ++ [keyCode] in
  let konami' :=
    if (length konamiCode <? length pushed)%nat
    then slice_last (length konamiCode) pushed else pushed in
  (konami',
   (length konami' =? length konamiCode)%nat && every_from 0 konami').

(** The buffer after the keys [ks], pressed on a page just loaded. *)
Definition buffer_after (ks : list nat) : list nat :=
  foldl (fun konami k => (press konami k).1) [] ks.

End Konami.

(** ** The throttle of the scroll handler *)

(** The closure that [throttle(func, limit)] returns, with the time read
    by [Date.now()] passed in: its two variables, and the times at which
    [func] has run, the latest first.  Times are natural numbers and the
    differences the script takes are taken there, the clock being one that
    does not go back.  [lastFunc] is the expiry of the timer while it is
    pending: all the script does with the variable is [clearTimeout],
    which does nothing to a timer that has fired. *)
Module Throttle.

Record closure := Closure {
  lastRan : option nat;    (* undefined until func has run *)
  lastFunc : option nat;   (* the expiry of the pending timer, if any *)
  ran : list nat
}.

Definition fresh : closure := Closure None None [].

(** [!lastRan]: undefined and 0 are falsy. *)
Definition never_ran (c : closure) : bool :=
  match lastRan c with
  | None | Some 0 => true
  | Some _ => false
  end.

(** The returned function is called at time [now].  A pending timer is
    replaced; a delay below zero is a delay of zero. *)
Definition invoke (limit now : nat) (c : closure) : closure :=
  if never_ran c then Closure (Some now) (lastFunc c) (now :: ran c)
  else
    let last := default 0 (lastRan c) in
    Closure (lastRan c) (Some (now + (limit - (now - last)))) (ran c).

(** The pending timer fires at time [now]. *)
Definition timeout (limit now : nat) (c : closure) : closure :=
  match lastFunc c with
  | None => c
  | Some _ =>
      let last := default 0 (lastRan c) in
      if (limit <=? now - last)%nat
      then Closure (Some now) None (now :: ran c)
      else Closure (lastRan c) None (ran c)
  end.

Inductive event :=
| Invoke (now : nat)
| Fire (now : nat).

Definition step (limit : nat) (c : closure) (ev : event) : closure :=
  match ev with
  | Invoke now => invoke limit now c
  | Fire now => timeout limit now c
  end.

Definition play (limit : nat) (evs : list event) (c : closure) : closure :=
  foldl (step limit) c evs.

(** The events come at times that do not decrease, after time 0, and a
    timer fires only when one is pending and has expired. *)
Fixpoint timely (limit clock : nat) (evs : list event) (c : closure) : Prop :=
  match evs with
  | [] => True
  | ev :: r =>
      match ev with
      | Invoke now => clock <= now /\ 0 < now
      | Fire now =>
          clock <= now /\ 0 < now /\
          exists due, lastFunc c = Some due /\ due <= now
      end /\
      timely limit (match ev with Invoke now | Fire now => now end) r
             (step limit c ev)
  end.

(** Consecutive runs are at least [limit] apart (the latest first). *)
Fixpoint spaced (limit : nat) (l : list nat) : Prop :=
  match l with
  | a :: (b :: _) as r => b + limit <= a /\ spaced limit r
  | _ => True
  end.

(** What holds of the closure at time [clock]: the runs are spaced, the
    last one is remembered, and a pending timer expires no sooner than
    [limit] after it. *)
Definition kept (limit clock : nat) (c : closure) : Prop :=
  spaced limit (ran c) /\
  lastRan c = head (ran c) /\
  (forall t, t ∈ ran c -> 0 < t <= clock) /\
  (forall due, lastFunc c = Some due ->
     exists last, lastRan c = Some last /\ last + limit <= due).

End Throttle.

(** ** The definitions at work *)

Section Examples.

Example toLowerCase_mixed : Str.toLowerCase "Foo-Bar 42" = "foo-bar 42".
Proof. reflexivity. Qed.

Example trim_both_ends :
  Str.trim (String (ascii_of_nat 9) "  deep  learning  ") = "deep  learning".
Proof. reflexivity. Qed.

Example includes_inner : Str.includes "o b" "foo bar" = true.
Proof. reflexivity. Qed.

Example includes_absent : Str.includes "baz" "foo bar" = false.
Proof. reflexivity. Qed.

Example includes_empty_needle : Str.includes EmptyString "foo" = true.
Proof. reflexivity. Qed.

Example indexOf_found : indexOf chapters "evolution" = 2%Z.
Proof. reflexivity. Qed.

Example indexOf_missing : indexOf chapters "appendix" = (-1)%Z.
Proof. reflexivity. Qed.

(** Equal expiries keep the order of the calls; an earlier expiry goes
    first. *)
Example insert_timer_ties :
  insert_timer (150, ShowChapter "b")
    (insert_timer (300, RemoveActive 0)
       (insert_timer (150, ShowChapter "a") []))
  = [ (150, ShowChapter "a"); (150, ShowChapter "b"); (300, RemoveActive 0) ].
Proof. reflexivity. Qed.

(** The sample page as loaded: the introduction shows, its two cards wait
    to be revealed. *)
Example sample_boot :
  let s := boot Sample.page EmptyString in
  currentSection s = "introduction" /\
  active_sections (doc s) = ["introduction"] /\
  timers s = [ (0, RevealCard 3 0); (100, RevealCard 3 1) ].
Proof. vm_compute. repeat split; reflexivity. Qed.

(** Ctrl+3 leads to the third entry of the catalog, Escape back to the
    introduction. *)
Example sample_shortcuts :
  let s := settle (handle (KeyDown (Sample.mod_key "3") None)
                     (settle (boot Sample.page EmptyString))) in
  currentSection s = "evolution" /\
  active_sections (doc s) = ["evolution"] /\
  fragment s = "evolution" /\
  currentSection (settle (handle (KeyDown (Sample.plain_key "Escape") None) s))
  = "introduction".
Proof. vm_compute. repeat split; reflexivity. Qed.

(** A search for a term that one section includes ends on that section,
    with the term marked there for five seconds. *)
Example sample_search :
  let s := performSearch "foo" (settle (boot Sample.page EmptyString)) in
  currentSection (elapse 500 s) = "genesis" /\
  el_marks <$> doc (elapse 500 s) !! 4 = Some ["foo"] /\
  el_marks <$> doc (settle s) !! 4 = Some [].
Proof. vm_compute. repeat split; reflexivity. Qed.

End Examples.

(** ** The timer queue *)

Section Queue.

Implicit Types (t u : timer) (q : list timer).

Lemma elem_of_insert_timer u t q :
  u ∈ insert_timer t q <-> u = t \/ u ∈ q.
Proof.
  induction q as [|v q IH]; simpl.
  - rewrite list_elem_of_singleton, elem_of_nil. tauto.
  - destruct (v.1 <=? t.1)%nat; rewrite !elem_of_cons; [rewrite IH|]; tauto.
Qed.

(** The new timer goes behind every timer that expires no later, and in
    an ordered queue all that follow it expire later. *)
Lemma insert_timer_split t q :
  exists q1 q2,
    q = q1 ++ q2 /\ insert_timer t q = q1 ++ t :: q2 /\
    Forall (fun u => u.1 <= t.1) q1 /\
    (in_order q -> Forall (fun u => t.1 < u.1) q2).
Proof.
  induction q as [|v q (q1 & q2 & -> & Hi & H1 & H2)]; simpl.
  - exists [], []. repeat split; auto.
  - destruct (Nat.leb_spec v.1 t.1).
    + exists (v :: q1), q2. rewrite Hi. repeat split; auto.
      intros Hs. apply H2. by inversion Hs.
    + exists [], (v :: q1 ++ q2). repeat split; auto.
      intros Hs. inversion Hs as [|? ? _ Hall]; subst.
      constructor; [lia|]. eapply Forall_impl; [exact Hall|].
      simpl. intros; lia.
Qed.

Lemma insert_timer_in_order t q : in_order q -> in_order (insert_timer t q).
Proof.
  unfold in_order. induction q as [|v q IH]; simpl; intros Hs.
  - repeat constructor.
  - inversion Hs as [|? ? Hq Hall]; subst.
    destruct (Nat.leb_spec v.1 t.1).
    + constructor; [auto|]. apply Forall_forall. intros u Hu.
      apply elem_of_insert_timer in Hu as [->|Hu]; [lia|].
      by apply (proj1 (Forall_forall _ _) Hall).
    + constructor; [done|]. constructor; [lia|].
      eapply Forall_impl; [exact Hall|]. simpl. intros; lia.
Qed.

Lemma in_order_tail t q : in_order (t :: q) -> in_order q.
Proof. by inversion 1. Qed.

Lemma in_order_head t q u : in_order (t :: q) -> u ∈ q -> t.1 <= u.1.
Proof.
  inversion 1 as [|? ? _ Hall]; subst. intros Hu.
  by apply (proj1 (Forall_forall _ _) Hall).
Qed.

End Queue.

(** ** What the script never changes *)

Section Skeleton.

Implicit Types (d : document) (e : element) (s : state).

Lemma skel_fmap (f : element -> element) d :
  (forall e, skeleton (f e) = skeleton e) -> skel (f <$> d) = skel d.
Proof.
  intros Hf. unfold skel. rewrite <- list_fmap_compose.
  apply list_fmap_ext. intros _ e _. apply Hf.
Qed.

Lemma skel_alter (f : element -> element) i d :
  (forall e, d !! i = Some e -> skeleton (f e) = skeleton e) ->
  skel (alter f i d) = skel d.
Proof.
  unfold skel. revert i. induction d as [|e d IH]; intros [|i] Hf; simpl;
    try done.
  - f_equal. by apply Hf.
  - f_equal. by apply IH.
Qed.

Lemma skel_lookup d d' i e :
  skel d = skel d' -> d !! i = Some e ->
  exists e', d' !! i = Some e' /\ skeleton e' = skeleton e.
Proof.
  unfold skel. intros Hs He.
  assert (H : (skeleton <$> d') !! i = Some (skeleton e))
    by (rewrite <- Hs, list_lookup_fmap, He; done).
  rewrite list_lookup_fmap in H.
  destruct (d' !! i) as [e'|]; [|done].
  exists e'. split; [done|]. simpl in H. congruence.
Qed.

Lemma skel_find_id d d' id :
  skel d = skel d' ->
  fst <$> list_find (fun e => el_id e = id) d
  = fst <$> list_find (fun e => el_id e = id) d'.
Proof.
  unfold skel. revert d'.
  induction d as [|e d IH]; intros [|e' d'] Hs; simplify_eq/=; [done|].
  assert (el_id e = el_id e') as Hid by (unfold skeleton in *; congruence).
  rewrite Hid. case_decide; [done|].
  specialize (IH d' ltac:(done)).
  destruct (list_find _ d) as [[??]|], (list_find _ d') as [[??]|];
    simplify_eq/=; done.
Qed.

Lemma skel_find_link d d' ch :
  skel d = skel d' -> queryChapterLink d ch = queryChapterLink d' ch.
Proof.
  unfold skel, queryChapterLink. revert d'.
  induction d as [|e d IH]; intros [|e' d'] Hs; simplify_eq/=; [done|].
  assert (el_link e = el_link e') as Hl by (unfold skeleton in *; congruence).
  rewrite Hl. case_decide; [done|].
  specialize (IH d' ltac:(done)).
  destruct (list_find _ d) as [[??]|], (list_find _ d') as [[??]|];
    simplify_eq/=; done.
Qed.

Lemma skel_getElementById d d' id :
  skel d = skel d' -> getElementById d id = getElementById d' id.
Proof.
  intros Hs. unfold getElementById. case_decide; [done|].
  by apply skel_find_id.
Qed.

Lemma skel_select_from d d' k :
  skel d = skel d' ->
  select_from el_section k d = select_from el_section k d'.
Proof.
  unfold skel. revert d' k.
  induction d as [|e d IH]; intros [|e' d'] k Hs; simplify_eq/=; [done|].
  assert (el_section e = el_section e') as ->
    by (unfold skeleton in *; congruence).
  rewrite (IH d' (S k)); done.
Qed.

(** What [getElementById] returns carries the id. *)
Lemma getElementById_Some d id i :
  getElementById d id = Some i ->
  id <> EmptyString /\ exists e, d !! i = Some e /\ el_id e = id.
Proof.
  unfold getElementById. case_decide as Hne; [done|]. intros Hi.
  split; [done|].
  destruct (list_find _ d) as [[j e]|] eqn:Hf; simplify_eq/=.
  apply list_find_Some in Hf as (? & ? & _). eauto.
Qed.

Lemma getElementById_is_Some d id e :
  e ∈ d -> el_id e = id -> id <> EmptyString ->
  is_Some (getElementById d id).
Proof.
  intros He Hid Hne. unfold getElementById. case_decide; [done|].
  destruct (list_find_elem_of (fun e => el_id e = id) d e He Hid)
    as [[i x] ->]. by eexists.
Qed.

End Skeleton.

(** ** The timers of a navigation among the others *)

Section NavTimers.

Implicit Types (t u : timer) (q : list timer).

Lemma elem_of_nav_timers u q :
  u ∈ nav_timers q <-> u ∈ q /\ is_nav u = true.
Proof.
  induction q as [|v q IH]; simpl.
  - rewrite elem_of_nil. tauto.
  - destruct (is_nav v) eqn:Hv; rewrite ?elem_of_cons, IH;
      intuition (subst; congruence).
Qed.

Lemma nav_timers_in_order q : in_order q -> in_order (nav_timers q).
Proof.
  unfold in_order. induction 1 as [|v q Hq IH Hall]; simpl; [constructor|].
  destruct (is_nav v); [|done]. constructor; [done|].
  apply Forall_forall. intros u [Hu _]%elem_of_nav_timers.
  by apply (proj1 (Forall_forall _ _) Hall).
Qed.

Lemma nav_timers_insert_other t q :
  is_nav t = false -> nav_timers (insert_timer t q) = nav_timers q.
Proof.
  intros Ht. induction q as [|v q IH]; simpl; [by rewrite Ht|].
  destruct (v.1 <=? t.1)%nat; simpl; [by rewrite IH | by rewrite Ht].
Qed.

Lemma insert_timer_first t q :
  Forall (fun u => t.1 < u.1) q -> insert_timer t q = t :: q.
Proof.
  destruct 1 as [|v q Hv _]; simpl; [done|].
  destruct (Nat.leb_spec v.1 t.1); [lia | done].
Qed.

(** In an ordered queue a navigation timer lands among the navigation
    timers where it would land if they were alone. *)
Lemma nav_timers_insert_nav t q :
  is_nav t = true -> in_order q ->
  nav_timers (insert_timer t q) = insert_timer t (nav_timers q).
Proof.
  intros Ht. induction q as [|v q IH]; simpl; intros Hs;
    [by rewrite Ht|].
  destruct (Nat.leb_spec v.1 t.1) as [Hle|Hlt]; simpl.
  - rewrite IH by (by eapply in_order_tail).
    destruct (is_nav v); simpl; [|done].
    by rewrite (proj2 (Nat.leb_le _ _) Hle).
  - rewrite Ht. symmetry.
    change (insert_timer t (nav_timers (v :: q)) = t :: nav_timers (v :: q)).
    apply insert_timer_first, Forall_forall.
    intros u [Hu _]%elem_of_nav_timers.
    apply elem_of_cons in Hu as [->|Hu]; [done|].
    pose proof (in_order_head _ _ _ Hs Hu). lia.
Qed.

Lemma last_show_nav_timers q : last_show (nav_timers q) = last_show q.
Proof.
  induction q as [|[e cb] q IH]; simpl; [done|].
  destruct cb; simpl; rewrite ?IH; try done; by destruct (last_show q).
Qed.

Lemma last_show_app q1 q2 :
  last_show (q1 ++ q2)
  = match last_show q2 with Some x => Some x | None => last_show q1 end.
Proof.
  induction q1 as [|t q1 IH]; simpl; [by destruct (last_show q2)|].
  rewrite IH. by destruct (last_show q2).
Qed.

Lemma last_show_None q :
  last_show q = None <-> forall e x, (e, ShowChapter x) ∉ q.
Proof.
  induction q as [|[e cb] q IH]; simpl.
  - split; [intros _ ? ?; apply not_elem_of_nil|done].
  - split.
    + intros Hl e' x Hin. destruct (last_show q) eqn:Hq; [done|].
      apply elem_of_cons in Hin as [Heq|Hin].
      * injection Heq as -> <-. done.
      * by eapply IH.
    + intros H. rewrite (proj2 IH).
      * destruct cb; try done. exfalso. eapply H. left.
      * intros e' x Hin. eapply H. by right.
Qed.

End NavTimers.

(** ** Which sections show *)

Section Active.

Implicit Types (d : document) (e : element).

Lemma skeleton_eq e e' :
  skeleton e = skeleton e' ->
  el_id e = el_id e' /\ el_section e = el_section e' /\
  el_link e = el_link e' /\ el_text e = el_text e' /\
  length (el_cards e) = length (el_cards e').
Proof. unfold skeleton. intros H. by simplify_eq. Qed.

Lemma skel_elem_of d d' e :
  skel d = skel d' -> e ∈ d -> exists e', e' ∈ d' /\ skeleton e' = skeleton e.
Proof.
  intros Hs [i Hi]%list_elem_of_lookup.
  destruct (skel_lookup _ _ _ _ Hs Hi) as (e' & He' & Hk).
  exists e'. split; [|done]. by eapply list_elem_of_lookup_2.
Qed.

Lemma menu_disjoint_skel d d' :
  skel d = skel d' -> menu_disjoint d -> menu_disjoint d'.
Proof.
  intros Hs Hm e He Hsec.
  destruct (skel_elem_of _ _ _ (eq_sym Hs) He) as (e' & He' & Hk).
  apply skeleton_eq in Hk as (_ & Hk & Hl & _).
  rewrite <- Hl. apply Hm; congruence.
Qed.

Lemma registered_skel d d' :
  skel d = skel d' -> registered d -> registered d'.
Proof.
  intros Hs Hm e He Hid.
  destruct (skel_elem_of _ _ _ (eq_sym Hs) He) as (e' & He' & Hk).
  apply skeleton_eq in Hk as (Hi & Hk & _).
  rewrite <- Hk. apply Hm; congruence.
Qed.

Lemma active_cons e d :
  active_sections (e :: d)
  = match shown e with
    | Some y => y :: active_sections d
    | None => active_sections d
    end.
Proof. done. Qed.

Lemma alter_head (f : element -> element) e d :
  alter f 0 (e :: d) = f e :: d.
Proof. done. Qed.

Lemma alter_tail (f : element -> element) i e d :
  alter f (S i) (e :: d) = e :: alter f i d.
Proof. done. Qed.

Lemma active_alter_same (f : element -> element) i d :
  (forall e, d !! i = Some e -> shown (f e) = shown e) ->
  active_sections (alter f i d) = active_sections d.
Proof.
  revert i. induction d as [|e d IH]; intros [|i] Hf; try done.
  - by rewrite alter_head, !active_cons, (Hf e).
  - by rewrite alter_tail, !active_cons, IH.
Qed.

Lemma active_fmap_same (f : element -> element) d :
  (forall e, e ∈ d -> shown (f e) = shown e) ->
  active_sections (f <$> d) = active_sections d.
Proof.
  induction d as [|e d IH]; intros Hf; [done|].
  rewrite fmap_cons, !active_cons, (Hf e) by left.
  rewrite IH; [done|]. intros e' He'. apply Hf. by right.
Qed.

Lemma active_hide d : active_sections (hide_section <$> d) = [].
Proof.
  induction d as [|e d IH]; [done|].
  rewrite fmap_cons, active_cons, IH. unfold shown, hide_section.
  destruct (el_section e) eqn:Hs; simpl; by rewrite Hs.
Qed.

Lemma active_show i d e :
  active_sections d = [] -> d !! i = Some e ->
  active_sections (alter (set_active true) i d)
  = if el_section e then [el_id e] else [].
Proof.
  revert i. induction d as [|e' d IH]; intros [|i] Hd Hi; try done;
    rewrite active_cons in Hd.
  - injection Hi as ->. rewrite alter_head, active_cons.
    destruct (shown e) eqn:He; [done|]. rewrite Hd.
    unfold shown. simpl. by destruct (el_section e).
  - rewrite alter_tail, active_cons.
    destruct (shown e') eqn:He'; [done|]. by apply IH.
Qed.

(** Taking the class [active] away from one element leaves the shown
    sections as they are, or drops that element's section. *)
Lemma active_drop (f : element -> element) i d c :
  (forall e, shown (f e) = None) ->
  active_sections d = [c] ->
  active_sections (alter f i d) = [c] \/
  (active_sections (alter f i d) = [] /\
   exists e, d !! i = Some e /\ shown e = Some c).
Proof.
  intros Hf. revert i.
  induction d as [|e d IH]; intros [|i] Hd; try done;
    rewrite active_cons in Hd.
  - rewrite alter_head, active_cons, Hf.
    destruct (shown e) eqn:He.
    + right. injection Hd as -> ->. eauto.
    + by left.
  - rewrite alter_tail, active_cons.
    destruct (shown e) eqn:He.
    + left. injection Hd as -> Hd. f_equal.
      clear IH. revert i. induction d as [|e' d IH']; intros [|i];
        try done; rewrite active_cons in Hd.
      * rewrite alter_head, active_cons, Hf. by destruct (shown e').
      * rewrite alter_tail, active_cons.
        destruct (shown e'); [done|]. by apply IH'.
    + by apply IH.
Qed.

Lemma active_drop_nil (f : element -> element) i d :
  (forall e, shown (f e) = None) ->
  active_sections d = [] -> active_sections (alter f i d) = [].
Proof.
  intros Hf. revert i.
  induction d as [|e d IH]; intros [|i] Hd; try done;
    rewrite active_cons in Hd.
  - rewrite alter_head, active_cons, Hf. by destruct (shown e).
  - rewrite alter_tail, active_cons.
    destruct (shown e); [done|]. by apply IH.
Qed.

End Active.

(** ** Steps that leave the navigation alone *)

Section Frame.

Implicit Types (s : state) (d : document).

Lemma frame_refl s : frame_step s s.
Proof. by constructor. Qed.

Lemma frame_trans s1 s2 s3 :
  frame_step s1 s2 -> frame_step s2 s3 -> frame_step s1 s3.
Proof.
  intros [] []. constructor; try congruence. auto.
Qed.

Lemma cosmetic_refl s : cosmetic_step s s.
Proof. split; [apply frame_refl | done]. Qed.

Lemma cosmetic_trans s1 s2 s3 :
  cosmetic_step s1 s2 -> cosmetic_step s2 s3 -> cosmetic_step s1 s3.
Proof.
  intros [F1 A1] [F2 A2]. split; [by eapply frame_trans|].
  intros Hm. rewrite A2, A1; [done..|].
  eapply menu_disjoint_skel; [|exact Hm]. symmetry. apply F1.
Qed.

(** Nothing of the above changes at all. *)
Lemma cosmetic_same s s' :
  currentSection s' = currentSection s -> clock s' = clock s ->
  location_hash s' = location_hash s -> history s' = history s ->
  doc s' = doc s -> timers s' = timers s -> cosmetic_step s s'.
Proof.
  intros Hc Hk Hh Hi Hd Ht. split; [|by rewrite Hd].
  constructor; try done; by rewrite ?Hd, ?Ht.
Qed.

Lemma frame_setTimeout delay cb s :
  is_nav (0, cb) = false -> frame_step s (setTimeout delay cb s).
Proof.
  intros Hcb. constructor; try done; simpl.
  - by apply nav_timers_insert_other.
  - apply insert_timer_in_order.
Qed.

Lemma cosmetic_setTimeout delay cb s :
  is_nav (0, cb) = false -> cosmetic_step s (setTimeout delay cb s).
Proof. split; [by apply frame_setTimeout | done]. Qed.

Lemma frame_with_doc d s :
  skel d = skel (doc s) -> frame_step s (with_doc d s).
Proof. by constructor. Qed.

Lemma frame_animateSection i s :
  frame_step s (animateSection i s) /\
  active_sections (doc (animateSection i s)) = active_sections (doc s).
Proof.
  unfold animateSection. destruct (doc s !! i) as [e|] eqn:He;
    [|split; [apply frame_refl | done]].
  set (s1 := with_doc _ s).
  assert (frame_step s s1 /\ active_sections (doc s1) = active_sections (doc s))
    as [F1 A1].
  { split.
    - apply frame_with_doc, skel_alter. intros e' He'.
      assert (e' = e) as -> by congruence.
      unfold skeleton. simpl. by rewrite length_replicate.
    - apply active_alter_same. done. }
  clearbody s1. revert s1 F1 A1.
  induction (seq 0 (length (el_cards e))) as [|k l IH]; intros s1 F1 A1;
    simpl; [done|].
  apply IH; [|done].
  eapply frame_trans; [exact F1|]. by apply frame_setTimeout.
Qed.

Lemma skel_hide d : skel (hide_section <$> d) = skel d.
Proof.
  apply skel_fmap. intros e. unfold hide_section.
  by destruct (el_section e).
Qed.

Lemma frame_showSection id s : frame_step s (showSection id s).
Proof.
  unfold showSection.
  destruct (getElementById _ id) as [i|];
    [|apply frame_with_doc, skel_hide].
  eapply frame_trans; [|apply frame_animateSection].
  constructor; try done. simpl.
  rewrite skel_alter by done. apply skel_hide.
Qed.

(** After [showSection] the only section that can show is the one
    asked for. *)
Lemma active_showSection id s :
  active_sections (doc (showSection id s))
  = match getElementById (doc s) id with
    | Some i =>
        match doc s !! i with
        | Some e => if el_section e then [id] else []
        | None => []
        end
    | None => []
    end.
Proof.
  unfold showSection.
  rewrite (skel_getElementById _ (doc s)) by apply skel_hide.
  destruct (getElementById (doc s) id) as [i|] eqn:Hi;
    [|apply active_hide].
  destruct (frame_animateSection i
              (with_scrollTop 0
                 (with_doc (alter (set_active true) i
                              (hide_section <$> doc s)) s))) as [_ ->].
  simpl. apply getElementById_Some in Hi as (_ & e & He & <-).
  rewrite He.
  rewrite (active_show i _ (hide_section e)); [| apply active_hide |].
  - unfold hide_section.
    destruct (el_section e) eqn:Hs; simpl; by rewrite ?Hs.
  - by rewrite list_lookup_fmap, He.
Qed.

Lemma link_at_skel l d d' : skel d = skel d' -> link_at l d -> link_at l d'.
Proof.
  intros Hs Hl e He.
  destruct (skel_lookup _ _ _ _ (eq_sym Hs) He) as (e' & He' & Hk).
  apply skeleton_eq in Hk as (_ & _ & Hk & _).
  specialize (Hl e' He'). unfold is_link in *. by rewrite <- Hk.
Qed.

Lemma queryChapterLink_link_at d ch l :
  queryChapterLink d ch = Some l -> link_at l d.
Proof.
  unfold queryChapterLink. intros Hq e He.
  destruct (list_find _ d) as [[j e']|] eqn:Hf; simplify_eq/=.
  apply list_find_Some in Hf as (He' & Hl & _).
  assert (e = e') as -> by congruence. unfold is_link. by rewrite Hl.
Qed.

Lemma shown_link e :
  (el_section e = true -> el_link e = None) -> is_link e = true ->
  el_section e = false.
Proof.
  unfold is_link. intros Hm Hl. destruct (el_section e); [|done].
  by rewrite Hm in Hl.
Qed.

Lemma cosmetic_updateActiveNav l s :
  link_at l (doc s) -> cosmetic_step s (updateActiveNav l s).
Proof.
  intros Hl. unfold updateActiveNav.
  eapply cosmetic_trans; [|by apply cosmetic_setTimeout].
  split.
  - apply frame_with_doc. rewrite skel_alter by done.
    apply skel_fmap. intros e. unfold unlink. by destruct (is_link e).
  - intros Hm. simpl.
    assert (active_sections (unlink <$> doc s) = active_sections (doc s))
      as Hu.
    { apply active_fmap_same. intros e He. unfold unlink.
      destruct (is_link e) eqn:Hle; [|done].
      unfold shown. simpl.
      by rewrite (shown_link e (Hm e He) Hle). }
    rewrite <- Hu. apply active_alter_same. intros e He.
    rewrite list_lookup_fmap in He.
    destruct (doc s !! l) as [e0|] eqn:He0; simplify_eq/=.
    pose proof (Hl e0 He0) as Hle.
    apply list_elem_of_lookup_2 in He0.
    unfold unlink, shown. rewrite Hle. simpl.
    by rewrite (shown_link e0 (Hm e0 He0) Hle).
Qed.

Lemma cosmetic_markChapterLink ch s : cosmetic_step s (markChapterLink ch s).
Proof.
  unfold markChapterLink.
  destruct (queryChapterLink (doc s) ch) as [l|] eqn:Hq;
    [|apply cosmetic_refl].
  apply cosmetic_updateActiveNav. by eapply queryChapterLink_link_at.
Qed.

Lemma cosmetic_showNotification message type s :
  cosmetic_step s (showNotification message type s).
Proof.
  unfold showNotification.
  eapply cosmetic_trans; [|by apply cosmetic_setTimeout].
  eapply cosmetic_trans; [|by apply cosmetic_setTimeout].
  by apply cosmetic_same.
Qed.

Lemma cosmetic_alter (f : element -> element) i s :
  (forall e, skeleton (f e) = skeleton e) ->
  (forall e, shown (f e) = shown e) ->
  cosmetic_step s (with_doc (alter f i (doc s)) s).
Proof.
  intros Hk Hv. split.
  - apply frame_with_doc, skel_alter. auto.
  - intros _. apply active_alter_same. auto.
Qed.

Lemma cosmetic_highlightText c term s :
  cosmetic_step s (highlightText c term s).
Proof.
  unfold highlightText.
  eapply cosmetic_trans; [|by apply cosmetic_setTimeout].
  apply cosmetic_alter; intros e; by destruct (Str.includes _ _).
Qed.

(** Every closure but the two of [navigateToChapter] is cosmetic. *)
Lemma cosmetic_run_callback cb s :
  is_nav (0, cb) = false -> cosmetic_step s (run_callback cb s).
Proof.
  destruct cb; try discriminate; intros _; cbn [run_callback].
  - by apply cosmetic_alter.
  - apply cosmetic_highlightText.
  - by apply cosmetic_alter.
  - split.
    + apply frame_with_doc, skel_alter. intros e _.
      unfold skeleton. simpl. by rewrite length_insert.
    + intros _. by apply active_alter_same.
  - apply cosmetic_same; reflexivity.
  - eapply cosmetic_trans; [|by apply cosmetic_setTimeout].
    apply cosmetic_same; reflexivity.
  - apply cosmetic_same; reflexivity.
Qed.

(** The removal closure is a frame step; it can only hide. *)
Lemma frame_RemoveActive c s : frame_step s (run_callback (RemoveActive c) s).
Proof. simpl. by apply frame_with_doc, skel_alter. Qed.

End Frame.

(** ** Every run of the timers ends *)

Section Termination.

Implicit Types (s : state) (d : document) (q : list timer).

Lemma cb_weight_skel d d' cb :
  skel d = skel d' -> cb_weight d cb = cb_weight d' cb.
Proof.
  intros Hs. destruct cb; try done. simpl.
  rewrite (skel_getElementById d d') by done.
  destruct (getElementById d' chapter) as [i|]; [|done].
  destruct (d !! i) as [e|] eqn:He.
  - destruct (skel_lookup _ _ _ _ Hs He) as (e' & -> & Hk).
    apply skeleton_eq in Hk as (_ & _ & _ & _ & ->). done.
  - destruct (d' !! i) as [e'|] eqn:He'; [|done].
    destruct (skel_lookup _ _ _ _ (eq_sym Hs) He') as (e & He2 & _).
    congruence.
Qed.

Lemma queue_weight_skel d d' q :
  skel d = skel d' -> queue_weight d q = queue_weight d' q.
Proof.
  intros Hs. unfold queue_weight. f_equal.
  apply list_fmap_ext. intros _ t _. by apply cb_weight_skel.
Qed.

Lemma queue_weight_cons d t q :
  queue_weight d (t :: q) = cb_weight d t.2 + queue_weight d q.
Proof. done. Qed.

Lemma queue_weight_insert d t q :
  queue_weight d (insert_timer t q) = cb_weight d t.2 + queue_weight d q.
Proof.
  induction q as [|u q IH]; simpl; [done|].
  destruct (u.1 <=? t.1)%nat; rewrite !queue_weight_cons, ?IH; lia.
Qed.

Lemma cb_weight_pos d cb : 0 < cb_weight d cb.
Proof.
  destruct cb; simpl; try lia.
  destruct (getElementById d chapter) as [i|]; [|lia].
  destruct (d !! i); lia.
Qed.

Lemma weight_zero s : weight s = 0 -> timers s = [].
Proof.
  unfold weight. destruct (timers s) as [|t q]; [done|].
  rewrite queue_weight_cons. pose proof (cb_weight_pos (doc s) t.2). lia.
Qed.

Lemma weight_setTimeout delay cb s :
  weight (setTimeout delay cb s) = cb_weight (doc s) cb + weight s.
Proof. unfold weight. simpl. by rewrite queue_weight_insert. Qed.

Lemma weight_with_doc d s :
  skel d = skel (doc s) -> weight (with_doc d s) = weight s.
Proof. intros Hs. unfold weight. simpl. by apply queue_weight_skel. Qed.

Lemma weight_animateSection i s :
  weight (animateSection i s)
  = match doc s !! i with
    | Some e => length (el_cards e)
    | None => 0
    end + weight s.
Proof.
  unfold animateSection. destruct (doc s !! i) as [e|] eqn:He; [|done].
  set (s1 := with_doc _ s).
  assert (weight s1 = weight s) as <-.
  { apply weight_with_doc, skel_alter. intros e' He'.
    assert (e' = e) as -> by congruence.
    unfold skeleton. simpl. by rewrite length_replicate. }
  clearbody s1.
  assert (forall l s', weight (foldl (fun acc k =>
              setTimeout (k * 100) (RevealCard i k) acc) s' l)
            = length l + weight s') as Hl.
  { induction l as [|k l IH]; intros s'; [done|].
    cbn [foldl]. rewrite IH, weight_setTimeout.
    cbn [cb_weight length]. lia. }
  cbv zeta. by rewrite Hl, length_seq.
Qed.

Lemma weight_showSection id s :
  weight (showSection id s) + 1 = cb_weight (doc s) (ShowChapter id) + weight s.
Proof.
  unfold showSection. simpl.
  rewrite (skel_getElementById _ (doc s)) by apply skel_hide.
  destruct (getElementById (doc s) id) as [i|] eqn:Hi.
  - rewrite weight_animateSection. simpl.
    apply getElementById_Some in Hi as (_ & e & He & _). rewrite He.
    rewrite list_lookup_alter, list_lookup_fmap, He.
    rewrite decide_True by done. simpl.
    change (weight (with_scrollTop 0 ?x)) with (weight x).
    rewrite weight_with_doc.
    + unfold hide_section. destruct (el_section e); simpl; lia.
    + rewrite skel_alter by done. apply skel_hide.
  - rewrite weight_with_doc by apply skel_hide. lia.
Qed.

Lemma skel_run_callback cb s : skel (doc (run_callback cb s)) = skel (doc s).
Proof.
  destruct cb; try (apply cosmetic_run_callback; done).
  - apply frame_RemoveActive.
  - simpl. apply frame_showSection.
Qed.

(** A closure that runs uses up its own share of the weight. *)
Lemma weight_run_callback cb s :
  weight (run_callback cb s) + 1 = cb_weight (doc s) cb + weight s.
Proof.
  destruct cb; cbn [run_callback cb_weight];
    try (rewrite weight_with_doc;
         [lia | apply (skel_run_callback (RemoveActive el)) ||
                apply (skel_run_callback (NavFeedback el)) ||
                apply (skel_run_callback (Unhighlight el)) ||
                apply (skel_run_callback (RevealCard el card))]).
  - change (weight (pushState ?u (playTransitionSound (with_current ?c ?x))))
      with (weight x).
    apply weight_showSection.
  - unfold highlightText. rewrite weight_setTimeout. simpl.
    rewrite weight_with_doc; [lia|].
    apply skel_alter. intros e _. by destruct (Str.includes _ _).
  - change (weight (with_toasts ?a ?b s)) with (weight s). lia.
  - rewrite weight_setTimeout. simpl.
    change (weight (with_toasts ?a ?b s)) with (weight s). lia.
  - change (weight (with_toasts ?a ?b s)) with (weight s). lia.
Qed.

Lemma skel_fire s : skel (doc (fire s)) = skel (doc s).
Proof.
  unfold fire. destruct (timers s) as [|[e cb] q]; [done|].
  by rewrite skel_run_callback.
Qed.

Lemma weight_fire s : timers s <> [] -> weight (fire s) + 1 = weight s.
Proof.
  unfold fire. destruct (timers s) as [|[e cb] q] eqn:Hq; [done|].
  intros _. rewrite weight_run_callback.
  unfold weight at 2. rewrite Hq, queue_weight_cons.
  unfold weight. simpl. lia.
Qed.

(** A property that holds before a run and is kept by every firing of a
    due timer holds after the run. *)
Lemma run_invariant (P : state -> Prop) fuel horizon s :
  P s ->
  (forall s' t q, P s' -> timers s' = t :: q -> due horizon t = true ->
                  P (fire s')) ->
  P (run fuel horizon s).
Proof.
  intros Hs Hstep. revert s Hs.
  induction fuel as [|fuel IH]; intros s Hs; simpl; [done|].
  destruct (timers s) as [|t q] eqn:Hq; [done|].
  destruct (due horizon t) eqn:Hd; [|done].
  apply IH. by eapply Hstep.
Qed.

(** With fuel for the whole weight, a run stops only at an empty queue or
    at a timer that is not due. *)
Lemma run_stops fuel horizon s :
  weight s <= fuel ->
  match timers (run fuel horizon s) with
  | [] => True
  | t :: _ => due horizon t = false
  end.
Proof.
  revert s. induction fuel as [|fuel IH]; intros s Hw; simpl.
  - rewrite weight_zero by lia. done.
  - destruct (timers s) as [|t q] eqn:Hq; [by rewrite Hq|].
    destruct (due horizon t) eqn:Hd; [|by rewrite Hq].
    apply IH. pose proof (weight_fire s). rewrite Hq in H.
    specialize (H ltac:(done)). lia.
Qed.

Lemma settle_quiescent s : timers (settle s) = [].
Proof.
  pose proof (run_stops (weight s) None s (le_n _)) as H.
  unfold settle. by destruct (timers (run _ _ s)).
Qed.

End Termination.

(** ** What a navigation request does, in one statement *)

Section Navigation.

Implicit Types (s : state) (d : document).

Lemma navigateToChapter_cases ch s :
  ((currentSection s = ch \/ getElementById (doc s) ch = None) /\
   navigateToChapter ch s = s) \/
  (currentSection s <> ch /\ is_Some (getElementById (doc s) ch) /\
   nav_effect ch s (navigateToChapter ch s)).
Proof.
  unfold navigateToChapter. case_decide as Hc; [left; by auto|].
  destruct (getElementById (doc s) ch) as [n|] eqn:Hn; [|left; by auto].
  right. split; [done|]. split; [by eexists|].
  destruct (getElementById (doc s) (currentSection s)) as [c|] eqn:Hcur.
  - constructor; try done; simpl.
    + by apply skel_alter.
    + apply active_alter_same. intros; reflexivity.
    + intros Ho. by do 2 apply insert_timer_in_order.
    + intros Ho. rewrite nav_timers_insert_nav;
        [|done|by apply insert_timer_in_order].
      rewrite nav_timers_insert_nav; [|done..]. by rewrite Hcur.
  - constructor; try done; simpl.
    + intros Ho. by apply insert_timer_in_order.
    + intros Ho. by rewrite nav_timers_insert_nav, Hcur.
Qed.

Lemma skel_navigateToChapter ch s :
  skel (doc (navigateToChapter ch s)) = skel (doc s).
Proof.
  destruct (navigateToChapter_cases ch s) as [[_ ->]|(_ & _ & [])]; done.
Qed.

(** What running a closure leaves alone, whatever the closure. *)
Lemma run_callback_queue cb s :
  clock (run_callback cb s) = clock s /\
  nav_timers (timers (run_callback cb s)) = nav_timers (timers s) /\
  (in_order (timers s) -> in_order (timers (run_callback cb s))).
Proof.
  assert (forall s', frame_step s s' ->
            clock s' = clock s /\
            nav_timers (timers s') = nav_timers (timers s) /\
            (in_order (timers s) -> in_order (timers s'))) as Hframe
    by (intros s' []; done).
  destruct cb;
    try (apply Hframe, cosmetic_run_callback; reflexivity).
  - apply Hframe, frame_RemoveActive.
  - apply (Hframe _ (frame_showSection chapter s)).
Qed.

End Navigation.

(** ** Invariants of the page *)

Section Stability.

Implicit Types (s : state) (P : state -> Prop).

Lemma handler_path_trans s1 s2 s3 :
  handler_path s1 s2 -> handler_path s2 s3 -> handler_path s1 s3.
Proof.
  induction 1; intros H3; [done| |].
  - eapply path_navigate. eauto.
  - eapply path_cosmetic; eauto.
Qed.

Lemma path_nav_mark ch s :
  handler_path s (markChapterLink ch (navigateToChapter ch s)).
Proof.
  eapply path_navigate, path_cosmetic; [|apply path_done].
  apply cosmetic_markChapterLink.
Qed.

Lemma path_search_visit term i s b :
  handler_path s (search_visit term (s, b) i).1.
Proof.
  unfold search_visit. destruct (doc s !! i) as [e|]; [|apply path_done].
  destruct (Str.includes _ _); [|apply path_done]. simpl.
  eapply handler_path_trans; [apply path_nav_mark|].
  eapply path_cosmetic; [|apply path_done]. by apply cosmetic_setTimeout.
Qed.

Lemma path_search_loop term l s b :
  handler_path s (foldl (search_visit term) (s, b) l).1.
Proof.
  revert s b. induction l as [|i l IH]; intros s b; [apply path_done|].
  cbn [foldl]. pose proof (path_search_visit term i s b) as H1.
  destruct (search_visit term (s, b) i) as [s1 b1].
  eapply handler_path_trans; [exact H1|]. apply IH.
Qed.

Lemma path_performSearch term s : handler_path s (performSearch term s).
Proof.
  unfold performSearch.
  pose proof (path_search_loop term (contentSections (doc s)) s false) as H.
  destruct (foldl _ _ _) as [s' found]. simpl in H.
  destruct found; [done|].
  eapply handler_path_trans; [exact H|].
  eapply path_cosmetic; [|apply path_done].
  apply cosmetic_showNotification.
Qed.

Lemma path_showSearchDialog answer s :
  handler_path s (showSearchDialog answer s).
Proof.
  unfold showSearchDialog. destruct answer; [|apply path_done].
  repeat case_decide; try apply path_done. apply path_performSearch.
Qed.

Lemma path_navigateWithArrowKeys k s :
  handler_path s (navigateWithArrowKeys k s).
Proof.
  unfold navigateWithArrowKeys.
  destruct (arrowTarget _ _); [apply path_nav_mark | apply path_done].
Qed.

Lemma path_onNavigationKey e s : handler_path s (onNavigationKey e s).
Proof.
  unfold onNavigationKey.
  set (s1 := if (_ && _ && _) then _ else s).
  assert (handler_path s s1) as H1.
  { subst s1. destruct (_ && _ && _); [|apply path_done].
    destruct (chapters !! _); [apply path_nav_mark | apply path_done]. }
  clearbody s1.
  set (s2 := if decide (_ \/ _) then _ else s1).
  assert (handler_path s1 s2) as H2.
  { subst s2. case_decide; [|apply path_done].
    apply path_navigateWithArrowKeys. }
  clearbody s2.
  eapply handler_path_trans; [exact H1|].
  eapply handler_path_trans; [exact H2|].
  case_decide; [apply path_nav_mark | apply path_done].
Qed.

Lemma path_onLinkClick l s : handler_path s (onLinkClick l s).
Proof.
  unfold onLinkClick. destruct (doc s !! l) as [e|] eqn:He;
    [|apply path_done].
  destruct (el_link e) as [ch|] eqn:Hl; [|apply path_done].
  eapply path_navigate, path_cosmetic; [|apply path_done].
  apply cosmetic_updateActiveNav.
  eapply link_at_skel; [symmetry; apply skel_navigateToChapter|].
  intros e' He'. assert (e' = e) as -> by congruence.
  unfold is_link. by rewrite Hl.
Qed.

(** Every event but the passing of time is such a path. *)
Lemma path_handle ev s :
  (forall d, ev <> Elapse d) -> handler_path s (handle ev s).
Proof.
  destruct ev; intros Hev; simpl.
  - apply path_onLinkClick.
  - eapply handler_path_trans; [apply path_onNavigationKey|].
    unfold onSearchKey. destruct (_ && _); [|apply path_done].
    apply path_showSearchDialog.
  - apply path_showSearchDialog.
  - eapply path_cosmetic; [|apply path_done].
    apply cosmetic_showNotification.
  - eapply path_cosmetic; [|apply path_done]. by apply cosmetic_same.
  - by destruct (Hev d).
Qed.

Lemma path_boot page hash :
  handler_path (construct page hash) (boot page hash).
Proof.
  unfold boot. case_decide; [apply path_done|].
  destruct (queryChapterLink _ _) as [l|] eqn:Hq; [|apply path_done].
  eapply path_navigate, path_cosmetic; [|apply path_done].
  apply cosmetic_updateActiveNav.
  eapply link_at_skel; [symmetry; apply skel_navigateToChapter|].
  by eapply queryChapterLink_link_at.
Qed.

(** A property kept by requests and cosmetic steps is kept along a
    path. *)
Lemma path_keeps P s s' :
  (forall ch s, P s -> P (navigateToChapter ch s)) ->
  (forall s s', P s -> cosmetic_step s s' -> P s') ->
  handler_path s s' -> P s -> P s'.
Proof. intros Hn Hc. induction 1; eauto. Qed.

Lemma clock_fire s : clock s <= clock (fire s).
Proof.
  unfold fire. destruct (timers s) as [|[e cb] q]; [done|].
  destruct (run_callback_queue cb
              (with_clock (Nat.max (clock s) e) (with_timers q s)))
    as (-> & _). simpl. lia.
Qed.

Lemma clock_fire_due h s t q :
  timers s = t :: q -> due (Some h) t = true -> clock s <= h ->
  clock (fire s) <= h.
Proof.
  unfold fire. intros -> Hd Hc. destruct t as [e cb].
  destruct (run_callback_queue cb
              (with_clock (Nat.max (clock s) e) (with_timers q s)))
    as (-> & _). simpl in *. apply Nat.leb_le in Hd. lia.
Qed.

(** A property kept by the firing of a timer and by the advance of the
    clock is kept while time passes. *)
Lemma elapse_keeps P d s :
  (forall s, P s -> timers s <> [] -> P (fire s)) ->
  (forall h s, P s -> clock s <= h -> P (with_clock h s)) ->
  P s -> P (elapse d s).
Proof.
  intros Hf Ht Hs. unfold elapse.
  assert (P (run (weight s) (Some (clock s + d)) s) /\
          clock (run (weight s) (Some (clock s + d)) s) <= clock s + d)
    as [H1 H2].
  { apply (run_invariant (fun s' => P s' /\ clock s' <= clock s + d)).
    - split; [done | lia].
    - intros s' t q [HP Hc] Hq Hd. split.
      + apply Hf; [done | by rewrite Hq].
      + by eapply clock_fire_due. }
  by apply Ht.
Qed.

Lemma settle_keeps P s :
  (forall s, P s -> timers s <> [] -> P (fire s)) -> P s -> P (settle s).
Proof.
  intros Hf Hs. unfold settle. apply run_invariant; [done|].
  intros s' t q HP Hq _. apply Hf; [done | by rewrite Hq].
Qed.

(** The induction principle for the states of a page. *)
Theorem reachable_keeps P page hash :
  (forall ch s, P s -> P (navigateToChapter ch s)) ->
  (forall s s', P s -> cosmetic_step s s' -> P s') ->
  (forall s, P s -> timers s <> [] -> P (fire s)) ->
  (forall h s, P s -> clock s <= h -> P (with_clock h s)) ->
  P (construct page hash) ->
  forall s, reachable page hash s -> P s.
Proof.
  intros Hn Hc Hf Ht H0 s. induction 1 as [|s ev _ IH].
  - eapply path_keeps; [exact Hn | exact Hc | apply path_boot | exact H0].
  - destruct ev; try (eapply path_keeps;
      [exact Hn | exact Hc | by apply path_handle | exact IH]).
    simpl. by apply elapse_keeps.
Qed.

End Stability.

(** ** The states of a page are tidy *)

Section Tidy.

Implicit Types (s : state) (d page : document).

Lemma bounded_later c c' q : c <= c' -> bounded c q -> bounded c' q.
Proof.
  intros Hc Hb e cb Hin. specialize (Hb e cb Hin). destruct cb; lia.
Qed.

Lemma bounded_tail c t q : bounded c (t :: q) -> bounded c q.
Proof.
  intros Hb e cb Hin. apply Hb. simpl. destruct (is_nav t); [by right|done].
Qed.

Lemma tidy_navigate page ch s :
  tidy page s -> tidy page (navigateToChapter ch s).
Proof.
  intros [Hk Ho Hb].
  destruct (navigateToChapter_cases ch s) as [[_ ->]|(_ & _ & E)]; [done|].
  destruct E as [_ Hc _ _ Hs _ Ho' Hn]. constructor; [congruence|auto|].
  intros e cb. rewrite Hn, Hc by done.
  intros [Heq|Hin]%elem_of_insert_timer; [simplify_eq; lia|].
  destruct (getElementById _ _); [|by apply Hb].
  apply elem_of_insert_timer in Hin as [Heq|Hin]; [simplify_eq; lia|].
  by apply Hb.
Qed.

Lemma tidy_cosmetic page s s' :
  tidy page s -> cosmetic_step s s' -> tidy page s'.
Proof.
  intros [Hk Ho Hb] [[_ Hc _ _ Hs Hn Ho'] _].
  constructor; [congruence|auto|].
  unfold bounded. by rewrite Hn, Hc.
Qed.

Lemma tidy_fire page s : tidy page s -> tidy page (fire s).
Proof.
  intros [Hk Ho Hb]. constructor.
  - by rewrite skel_fire.
  - unfold fire. destruct (timers s) as [|[e cb] q] eqn:Hq; [by rewrite Hq|].
    apply run_callback_queue. simpl. by eapply in_order_tail.
  - pose proof (clock_fire s) as Hc. revert Hc. unfold fire.
    destruct (timers s) as [|[e cb] q] eqn:Hq; [by rewrite Hq|].
    intros Hc.
    destruct (run_callback_queue cb
                (with_clock (Nat.max (clock s) e) (with_timers q s)))
      as (Hc' & Hn & _).
    unfold bounded. rewrite Hn. simpl.
    eapply bounded_later; [exact Hc|]. by eapply bounded_tail.
Qed.

Lemma tidy_tick page h s :
  tidy page s -> clock s <= h -> tidy page (with_clock h s).
Proof.
  intros [Hk Ho Hb] Hc. constructor; try done. simpl.
  by eapply bounded_later.
Qed.

Lemma tidy_construct page hash : tidy page (construct page hash).
Proof.
  unfold construct.
  destruct (frame_showSection "introduction"
              (State "introduction" page hash [] 0 0 [] 0 [] 0))
    as [_ Hc _ _ Hk Hn Ho].
  constructor; [done | apply Ho; constructor |].
  unfold bounded. rewrite Hn. intros e cb Hin. by apply elem_of_nil in Hin.
Qed.

Theorem reachable_tidy page hash s : reachable page hash s -> tidy page s.
Proof.
  apply reachable_keeps.
  - intros ch s'. apply tidy_navigate.
  - apply tidy_cosmetic.
  - intros s' H _. by apply tidy_fire.
  - intros h s' H Hc. by apply tidy_tick.
  - apply tidy_construct.
Qed.

(** *** At most the current section shows *)

Lemma shown_hidden e a :
  shown (set_animation a (set_active false e)) = None.
Proof. unfold shown. simpl. by rewrite andb_false_r. Qed.

Lemma at_most_fire s :
  menu_disjoint (doc s) -> at_most_current s -> at_most_current (fire s).
Proof.
  intros Hm Ha. unfold fire.
  destruct (timers s) as [|[e cb] q] eqn:Hq; [done|].
  set (p := with_clock _ _).
  assert (at_most_current p) as Hp by done.
  assert (menu_disjoint (doc p)) as Hmp by done.
  clearbody p. clear Ha Hm Hq. unfold at_most_current in *.
  destruct cb;
    try (match goal with
         | |- context [run_callback ?cb p] =>
             destruct (cosmetic_run_callback cb p eq_refl)
               as [[Hc _ _ _ _ _ _] Hact]
         end; rewrite Hact, Hc by done; done).
  - cbn [run_callback]. simpl.
    destruct Hp as [Hp|Hp].
    + left. apply active_drop_nil; [|done]. intros. apply shown_hidden.
    + destruct (active_drop
                  (fun e => set_animation EmptyString (set_active false e))
                  el (doc p) (currentSection p)) as [H|[H _]];
        [intros; apply shown_hidden|done|by right|by left].
  - cbn [run_callback].
    change (doc (pushState ?u (playTransitionSound (with_current ?c ?x))))
      with (doc x).
    change (currentSection
              (pushState ?u (playTransitionSound (with_current ?c ?x))))
      with c.
    rewrite active_showSection.
    destruct (getElementById _ _); [|by left].
    destruct (doc p !! _) as [e'|]; [|by left].
    destruct (el_section e'); [by right | by left].
Qed.

Lemma at_most_construct page hash : at_most_current (construct page hash).
Proof.
  unfold construct, at_most_current.
  rewrite active_showSection.
  destruct (frame_showSection "introduction"
              (State "introduction" page hash [] 0 0 [] 0 [] 0))
    as [-> _ _ _ _ _ _]. simpl.
  destruct (getElementById _ _); [|by left].
  destruct (page !! _) as [e'|]; [|by left].
  destruct (el_section e'); [by right | by left].
Qed.

(** In every state of a page whose menu entries are not content
    sections, at most one section shows, and it is the current one. *)
Theorem reachable_at_most page hash s :
  menu_disjoint page -> reachable page hash s -> at_most_current s.
Proof.
  intros Hm Hr.
  enough (skel (doc s) = skel page /\ at_most_current s) by tauto.
  revert s Hr. apply reachable_keeps.
  - intros ch s [Hk Ha].
    destruct (navigateToChapter_cases ch s) as [[_ ->]|(_ & _ & E)]; [done|].
    destruct E as [Hcur _ _ _ Hs Hact _ _]. unfold at_most_current.
    rewrite Hact, Hcur. split; [congruence | done].
  - intros s s' [Hk Ha] [[Hcur _ _ _ Hs _ _] Hact].
    unfold at_most_current.
    rewrite Hact, Hcur; [split; [congruence | done]|].
    eapply menu_disjoint_skel; [|exact Hm]. done.
  - intros s [Hk Ha] _. split; [by rewrite skel_fire|].
    apply at_most_fire; [|done].
    eapply menu_disjoint_skel; [|exact Hm]. done.
  - intros h s [Hk Ha] _. done.
  - split; [apply tidy_construct | apply at_most_construct].
Qed.

End Tidy.

(** ** Where a navigation request lands *)

Section Landing.

Implicit Types (s : state) (q : list timer).

Lemma last_show_insert_last X c q :
  in_order q ->
  (forall e x, (e, ShowChapter x) ∈ q -> e <= c) ->
  last_show (insert_timer (c, ShowChapter X) q) = Some X.
Proof.
  intros Ho Hb.
  destruct (insert_timer_split (c, ShowChapter X) q)
    as (q1 & q2 & -> & -> & _ & H2).
  specialize (H2 Ho). rewrite last_show_app. simpl.
  assert (last_show q2 = None) as ->; [|done].
  apply last_show_None. intros e x Hin.
  assert (c < e) by (by apply (proj1 (Forall_forall _ _) H2 _ Hin)).
  assert (e <= c); [|lia].
  eapply Hb. apply elem_of_app. right. exact Hin.
Qed.

Lemma lands_navigate page X s :
  tidy page s -> currentSection s <> X ->
  is_Some (getElementById (doc s) X) ->
  lands X (navigateToChapter X s).
Proof.
  intros [_ Ho Hb] Hne [n Hn]. left.
  destruct (navigateToChapter_cases X s) as [[[?|?] _]|(_ & _ & E)];
    [done | congruence |].
  destruct E as [_ _ _ _ _ _ _ Hnav].
  rewrite <- last_show_nav_timers, Hnav by done.
  apply last_show_insert_last.
  - destruct (getElementById _ (currentSection s));
      [apply insert_timer_in_order|]; by apply nav_timers_in_order.
  - intros e x Hin.
    assert ((e, ShowChapter x) ∈ nav_timers (timers s)) as Hin'.
    { destruct (getElementById _ (currentSection s)); [|done].
      apply elem_of_insert_timer in Hin as [?|?]; [done|done]. }
    apply (Hb e (ShowChapter x) Hin').
Qed.

Lemma lands_fire X s : lands X s -> lands X (fire s).
Proof.
  unfold lands, fire. destruct (timers s) as [|[e cb] q] eqn:Hq;
    [by rewrite Hq|].
  set (p := with_clock _ _).
  assert (timers p = q) as Hp by done.
  assert (currentSection p = currentSection s /\
          location_hash p = location_hash s /\ history p = history s)
    as (Hpc & Hph & Hpi) by done.
  clearbody p. clear Hq.
  destruct (run_callback_queue cb p) as (_ & Hn & _).
  rewrite <- (last_show_nav_timers (timers (run_callback cb p))), Hn,
    last_show_nav_timers, Hp.
  cbn [last_show snd]. rewrite <- Hpc, <- Hph, <- Hpi.
  destruct (last_show q) as [z|] eqn:Hz.
  - intros [?|[? _]]; [by left | done].
  - assert (forall s', frame_step p s' ->
              currentSection s' = currentSection p /\
              location_hash s' = location_hash p /\
              history s' = history p) as Hframe
      by (intros s' []; done).
    destruct cb;
      try (intros [?|?]; [done|];
           right; split; [done|];
           match goal with
           | |- context [run_callback ?cb p] =>
               destruct (Hframe _ (proj1 (cosmetic_run_callback cb p eq_refl)))
                 as (-> & -> & ->)
           end; tauto).
    + intros [?|?]; [done|]. right. split; [done|].
      destruct (Hframe _ (frame_RemoveActive el p)) as (-> & -> & ->).
      tauto.
    + intros [[= ->]|[? _]]; [|done]. right. done.
Qed.

End Landing.

(** ** Search without a match, and the arrow keys *)

Section Adapters.

Implicit Types (s : state) (d : document).







Lemma index_from_absent k l x : x ∉ l -> index_from k l x = (-1)%Z.
Proof.
  revert k. induction l as [|y l IH]; intros k Hx; simpl; [done|].
  apply not_elem_of_cons in Hx as [Hne Hx].
  rewrite decide_False by done. by apply IH.
Qed.

Lemma index_from_range k l x :
  (index_from k l x = -1 \/
   k <= index_from k l x < k + Z.of_nat (length l))%Z.
Proof.
  revert k. induction l as [|y l IH]; intros k; [by left|].
  cbn [index_from]. case_decide.
  - right. rewrite length_cons. lia.
  - destruct (IH (k + 1)%Z) as [?|?]; [by left|].
    right. rewrite length_cons. lia.
Qed.

(** The index computed by [navigateWithArrowKeys] is within the catalog,
    whatever the current section. *)
Lemma arrowTarget_defined k cur : is_Some (arrowTarget k cur).
Proof.
  unfold arrowTarget, nextIndex, indexOf.
  assert (-1 <= index_from 0 chapters cur < 10)%Z as Hr.
  { pose proof (index_from_range 0 chapters cur) as H.
    change (Z.of_nat (length chapters)) with 10%Z in H. lia. }
  apply lookup_lt_is_Some. change (length chapters) with 10.
  change (Z.of_nat 10) with 10%Z.
  destruct (decide (k = "ArrowLeft")).
  - destruct (Z.gtb_spec (index_from 0 chapters cur) 0); lia.
  - destruct (Z.ltb_spec (index_from 0 chapters cur) (10 - 1)); lia.
Qed.

End Adapters.

(** ** Removals that find nothing to remove *)

Section Safety.

Implicit Types (s : state) (d page : document) (q : list timer).

Lemma not_named_skel d d' c x :
  skel d = skel d' -> not_named d c x -> not_named d' c x.
Proof.
  intros Hs Hn e He.
  destruct (skel_lookup _ _ _ _ (eq_sym Hs) He) as (e' & He' & Hk).
  apply skeleton_eq in Hk as (Hid & _). rewrite <- Hid. by apply Hn.
Qed.

Lemma safe_skel d d' cur q : skel d = skel d' -> safe d cur q -> safe d' cur q.
Proof.
  intros Hs. revert cur. induction q as [|[e cb] q IH]; intros cur; [done|].
  destruct cb; simpl; auto.
  intros [H1 H2]. split; [by eapply not_named_skel | auto].
Qed.

Lemma safe_nav_timers d cur q : safe d cur (nav_timers q) <-> safe d cur q.
Proof.
  revert cur. induction q as [|[e cb] q IH]; intros cur; [done|].
  destruct cb; simpl; rewrite ?IH; done.
Qed.

Lemma safe_upto_of_safe h d cur q : safe d cur q -> safe_upto h d cur q.
Proof.
  revert cur. induction q as [|[e cb] q IH]; intros cur; [done|].
  simpl. destruct (e <=? h)%nat; [|done].
  destruct cb; auto. intros [? ?]. auto.
Qed.

Lemma safe_upto_insert_later h d cur t q :
  h < t.1 -> safe_upto h d cur q -> safe_upto h d cur (insert_timer t q).
Proof.
  intros Ht. revert cur. induction q as [|[e cb] q IH]; intros cur; simpl.
  - destruct t as [e' cb']. simpl in *.
    by rewrite (proj2 (Nat.leb_gt _ _) Ht).
  - destruct (Nat.leb_spec e t.1).
    + simpl. destruct (e <=? h)%nat; [|done].
      destruct cb; auto. intros [? ?]. auto.
    + intros _. destruct t as [e' cb']. simpl in *.
      by rewrite (proj2 (Nat.leb_gt _ _) Ht).
Qed.

(** A queue without shows is safe at [x] when none of its removals is for
    an element named [x]. *)
Lemma safe_no_show d x q :
  (forall e y, (e, ShowChapter y) ∉ q) ->
  (forall e c, (e, RemoveActive c) ∈ q -> not_named d c x) ->
  safe d x q.
Proof.
  induction q as [|[e cb] q IH]; intros Hs Hr; [done|].
  assert (safe d x q) as Hq.
  { apply IH.
    - intros e' y Hin. apply (Hs e' y). by right.
    - intros e' c Hin. apply (Hr e' c). by right. }
  destruct cb; simpl; try done.
  - split; [|done]. apply (Hr e). left.
  - exfalso. apply (Hs e chapter). left.
Qed.

(** A show set behind every pending show keeps the queue safe when the
    removals that come after it are for other elements. *)
Lemma safe_insert_show d cur c X q :
  in_order q ->
  (forall e y, (e, ShowChapter y) ∈ q -> e <= c) ->
  (forall e a, (e, RemoveActive a) ∈ q -> c < e -> not_named d a X) ->
  safe_upto c d cur q ->
  safe d cur (insert_timer (c, ShowChapter X) q).
Proof.
  revert cur. induction q as [|[e cb] q IH]; intros cur Ho Hs Hr Hu; [done|].
  cbn [insert_timer fst]. destruct (Nat.leb_spec e c) as [Hle|Hlt].
  - cbn [safe_upto] in Hu. rewrite (proj2 (Nat.leb_le _ _) Hle) in Hu.
    assert (forall cur', safe_upto c d cur' q ->
              safe d cur' (insert_timer (c, ShowChapter X) q)) as IH'.
    { intros cur'. apply IH.
      - by eapply in_order_tail.
      - intros e' y Hin. apply (Hs e' y). by right.
      - intros e' a Hin. apply (Hr e' a). by right. }
    destruct cb; simpl; auto. destruct Hu. auto.
  - change (safe d X ((e, cb) :: q)). apply safe_no_show.
    + intros e' y Hin. pose proof (Hs e' y Hin) as Hb.
      apply elem_of_cons in Hin as [[= -> _]|Hin]; [lia|].
      pose proof (in_order_head _ _ _ Ho Hin). simpl in *. lia.
    + intros e' a Hin. apply (Hr e' a Hin).
      apply elem_of_cons in Hin as [[= -> _]|Hin]; [lia|].
      pose proof (in_order_head _ _ _ Ho Hin). simpl in *. lia.
Qed.

Lemma removals_current_clear X s :
  currentSection s <> X -> removals_current s -> clear_for X s.
Proof.
  intros Hne Hr e c Hin _ el Hel. rewrite (Hr e c el Hin Hel). done.
Qed.

Lemma quiet_removals_current s : quiet s -> removals_current s.
Proof. intros Hq e c el Hin. rewrite Hq in Hin. by apply elem_of_nil in Hin. Qed.

Lemma steady_navigate page ch s :
  steady page s -> (currentSection s <> ch -> clear_for ch s) ->
  steady page (navigateToChapter ch s).
Proof.
  intros [Ht Hx Hs Hv] Hc'.
  pose proof (tidy_navigate page ch s Ht) as Ht'.
  destruct (navigateToChapter_cases ch s) as [[_ ->]|(Hne & Hex & E)]; [done|].
  pose proof (Hc' Hne) as Hc.
  destruct Ht as [Hk Ho Hb].
  destruct E as [Hcur Hclk _ _ Hsk Hact _ Hnav]. specialize (Hnav Ho).
  constructor; [done|..].
  - unfold exactly_current. by rewrite Hact, Hcur.
  - rewrite Hcur. apply (proj1 (safe_nav_timers _ _ _)). rewrite Hnav.
    apply (safe_skel (doc s)); [done|].
    apply safe_insert_show.
    + destruct (getElementById _ (currentSection s));
        [apply insert_timer_in_order|]; by apply nav_timers_in_order.
    + intros e y Hin. apply (Hb e (ShowChapter y)).
      destruct (getElementById _ (currentSection s)); [|done].
      by apply elem_of_insert_timer in Hin as [?|?].
    + intros e a Hin Hlt.
      destruct (getElementById _ (currentSection s)) as [c|] eqn:Hg;
        [|by eapply Hc].
      apply elem_of_insert_timer in Hin as [[= -> ->]|Hin]; [|by eapply Hc].
      apply getElementById_Some in Hg as (_ & e0 & He0 & Hid).
      intros e1 He1. congruence.
    + destruct (getElementById _ (currentSection s));
        [apply safe_upto_insert_later; [simpl; lia|]|];
        by apply safe_upto_of_safe, (proj2 (safe_nav_timers _ _ _)).
  - intros e x. rewrite Hnav.
    rewrite (skel_getElementById (doc (navigateToChapter ch s)) (doc s))
      by done.
    intros [[= _ ->]|Hin]%elem_of_insert_timer; [done|].
    apply (Hv e). destruct (getElementById _ (currentSection s)); [|done].
    by apply elem_of_insert_timer in Hin as [?|?].
Qed.

Lemma steady_cosmetic page s s' :
  menu_disjoint page -> steady page s -> cosmetic_step s s' -> steady page s'.
Proof.
  intros Hm [Ht Hx Hs Hv] Hc.
  pose proof (tidy_cosmetic page s s' Ht Hc) as Ht'.
  destruct Hc as [[Hcur _ _ _ Hsk Hn _] Hact].
  constructor; [done|..].
  - unfold exactly_current. rewrite Hact, Hcur; [done|].
    eapply menu_disjoint_skel; [|exact Hm]. symmetry. apply Ht.
  - rewrite Hcur. apply (proj1 (safe_nav_timers _ _ _)). rewrite Hn.
    apply (proj2 (safe_nav_timers _ _ _)). by apply (safe_skel (doc s)).
  - intros e x. rewrite Hn, (skel_getElementById (doc s') (doc s)) by done.
    apply Hv.
Qed.

Lemma removals_current_navigate ch s :
  in_order (timers s) -> removals_current s ->
  removals_current (navigateToChapter ch s).
Proof.
  intros Ho Hr.
  destruct (navigateToChapter_cases ch s) as [[_ ->]|(Hne & Hex & E)]; [done|].
  destruct E as [Hcur _ _ _ Hsk _ _ Hnav]. specialize (Hnav Ho).
  intros e c el. rewrite Hnav, Hcur.
  intros [[=]|Hin]%elem_of_insert_timer Hel.
  destruct (skel_lookup _ _ _ _ Hsk Hel) as (el' & Hel' & Hk).
  apply skeleton_eq in Hk as (Hid & _). rewrite <- Hid.
  destruct (getElementById _ (currentSection s)) as [a|] eqn:Hg;
    [|by eapply Hr].
  apply elem_of_insert_timer in Hin as [[= -> ->]|Hin]; [|by eapply Hr].
  apply getElementById_Some in Hg as (_ & e0 & He0 & Hid0). congruence.
Qed.

Lemma removals_current_cosmetic s s' :
  removals_current s -> cosmetic_step s s' -> removals_current s'.
Proof.
  intros Hr [[Hcur _ _ _ Hsk Hn _] _] e c el. rewrite Hn, Hcur.
  intros Hin Hel.
  destruct (skel_lookup _ _ _ _ Hsk Hel) as (el' & Hel' & Hk).
  apply skeleton_eq in Hk as (Hid & _). rewrite <- Hid. by eapply Hr.
Qed.

End Safety.

(** ** A steady page stays steady while time passes *)

Section Steady.

Implicit Types (s : state) (page : document) (q : list timer).

Lemma shown_Some_id e x : shown e = Some x -> el_id e = x.
Proof. unfold shown. destruct (_ && _); congruence. Qed.

Lemma steady_fire page s :
  menu_disjoint page -> registered page ->
  steady page s -> steady page (fire s).
Proof.
  intros Hm Hreg [Ht Hx Hs Hv].
  pose proof (tidy_fire page s Ht) as Ht'. revert Ht'. unfold fire.
  destruct (timers s) as [|[e cb] q] eqn:Hq; [by constructor; rewrite ?Hq|].
  set (p := with_clock _ _). intros Ht'.
  assert (skel (doc p) = skel page) as Hk by apply Ht.
  assert (exactly_current p) as Hxp by done.
  assert (currentSection p = currentSection s) as Hcp by done.
  assert (doc p = doc s) as Hdp by done.
  assert (timers p = q) as Htp by done.
  destruct (run_callback_queue cb p) as (_ & Hn & _).
  clearbody p.
  assert (forall x, safe (doc p) x q ->
            safe (doc (run_callback cb p)) x (timers (run_callback cb p)))
    as Hsafe.
  { intros x Hsx. apply (proj1 (safe_nav_timers _ _ _)). rewrite Hn, Htp.
    apply (proj2 (safe_nav_timers _ _ _)).
    apply (safe_skel (doc p)); [|done]. symmetry. apply skel_run_callback. }
  assert (forall e' x, (e', ShowChapter x) ∈ nav_timers (timers (run_callback cb p)) ->
            is_Some (getElementById (doc (run_callback cb p)) x)) as Hshows.
  { intros e' x. rewrite Hn, Htp.
    rewrite (skel_getElementById (doc (run_callback cb p)) (doc s))
      by (rewrite skel_run_callback; congruence).
    intros Hin. apply (Hv e'). simpl.
    destruct (is_nav (e, cb)); [by right | done]. }
  rewrite Hdp in Hsafe.
  constructor; [done| | |done].
  - unfold exactly_current in *.
    destruct cb;
      try (match goal with
           | |- context [run_callback ?cb p] =>
               destruct (cosmetic_run_callback cb p eq_refl)
                 as [[Hc _ _ _ _ _ _] Hact]
           end; rewrite Hact, Hc;
           [done | by eapply menu_disjoint_skel; [symmetry; exact Hk|]]).
    + cbn [run_callback]. simpl. simpl in Hs. destruct Hs as [Hnn _].
      destruct (active_drop
                  (fun e => set_animation EmptyString (set_active false e))
                  el (doc p) (currentSection p)) as [H|[_ (e0 & He0 & Hsh)]];
        [intros; apply shown_hidden | done | done |].
      exfalso. apply shown_Some_id in Hsh.
      rewrite Hdp, Hcp in *. by apply (Hnn e0).
    + cbn [run_callback].
      change (doc (pushState ?u (playTransitionSound (with_current ?c ?x))))
        with (doc x).
      change (currentSection
                (pushState ?u (playTransitionSound (with_current ?c ?x))))
        with c.
      rewrite active_showSection.
      destruct (Hv e chapter) as [i Hi].
      { simpl. left. }
      rewrite Hdp, Hi.
      apply getElementById_Some in Hi as (Hne & e0 & He0 & Hid).
      rewrite He0.
      assert (el_section e0 = true) as ->; [|done].
      destruct (skel_elem_of (doc s) page e0) as (e1 & He1 & Hk1);
        [congruence | by eapply list_elem_of_lookup_2 |].
      apply skeleton_eq in Hk1 as (Hid1 & Hs1 & _). rewrite <- Hs1.
      apply Hreg; [done | congruence].
  - destruct cb; simpl in Hs;
      try (match goal with
           | |- context [run_callback ?cb p] =>
               destruct (cosmetic_run_callback cb p eq_refl)
                 as [[-> _ _ _ _ _ _] _]
           end; rewrite Hcp; by apply Hsafe).
    + destruct (frame_RemoveActive el p) as [-> _ _ _ _ _ _].
      rewrite Hcp. apply Hsafe. tauto.
    + cbn [run_callback currentSection pushState with_url
             playTransitionSound with_tones with_current].
      by apply Hsafe.
Qed.

Lemma steady_tick page h s :
  steady page s -> clock s <= h -> steady page (with_clock h s).
Proof.
  intros [Ht Hx Hs Hv] Hc. constructor; try done. by apply tidy_tick.
Qed.

Lemma steady_elapse page d s :
  menu_disjoint page -> registered page ->
  steady page s -> steady page (elapse d s).
Proof.
  intros Hm Hreg. apply elapse_keeps.
  - intros s' H _. by apply steady_fire.
  - intros h s'. apply steady_tick.
Qed.

Lemma steady_settle page s :
  menu_disjoint page -> registered page ->
  steady page s -> steady page (settle s).
Proof.
  intros Hm Hreg. apply settle_keeps. intros s' H _. by apply steady_fire.
Qed.

(** A tidy page that shows its current section, with no navigation under
    way, is steady. *)
Lemma steady_quiet page s :
  tidy page s -> exactly_current s -> quiet s -> steady page s.
Proof.
  intros Ht Hx Hq. constructor; try done.
  - apply (proj1 (safe_nav_timers _ _ _)). by rewrite Hq.
  - intros e x. rewrite Hq. by intros ?%elem_of_nil.
Qed.

Lemma construct_exact page hash :
  registered page -> is_Some (getElementById page "introduction") ->
  exactly_current (construct page hash) /\ quiet (construct page hash).
Proof.
  intros Hreg [i Hi]. unfold construct, exactly_current, quiet.
  destruct (frame_showSection "introduction"
              (State "introduction" page hash [] 0 0 [] 0 [] 0))
    as [-> _ _ _ _ -> _].
  split; [|done]. rewrite active_showSection. simpl. rewrite Hi.
  apply getElementById_Some in Hi as (Hne & e & He & Hid). rewrite He.
  rewrite Hreg; [done | by eapply list_elem_of_lookup_2 | congruence].
Qed.

(** A path of a handler that starts where every pending removal is for the
    current section keeps a steady page steady. *)
Lemma steady_path page s s' :
  menu_disjoint page ->
  handler_path s s' -> steady page s -> removals_current s ->
  steady page s' /\ removals_current s'.
Proof.
  intros Hm Hp Hs Hr.
  apply (path_keeps (fun s => steady page s /\ removals_current s) s s');
    [| |done|done].
  - intros ch s0 [H1 H2]. split.
    + apply steady_navigate; [done|].
      intros Hne. by apply removals_current_clear.
    + apply removals_current_navigate; [apply H1 | done].
  - intros s0 s1 [H1 H2] Hc. split.
    + by eapply steady_cosmetic.
    + by eapply removals_current_cosmetic.
Qed.

End Steady.

(** ** Pages on which requests do not overlap *)

Section Calm.

Implicit Types (s : state) (page : document).

Lemma calm_is_reachable page hash s :
  calm_reachable page hash s -> reachable page hash s.
Proof.
  induction 1 as [|s d _ IH|s ev _ IH _]; [constructor|..].
  - apply (reach_step page hash s (Elapse d) IH).
  - by apply reach_step.
Qed.

Lemma calm_steady page hash s :
  menu_disjoint page -> registered page ->
  is_Some (getElementById page "introduction") ->
  calm_reachable page hash s -> steady page s.
Proof.
  intros Hm Hreg Hintro. induction 1 as [|s d _ IH|s ev _ IH Hq].
  - destruct (construct_exact page hash Hreg Hintro) as [Hx Hq].
    eapply steady_path; [done | apply path_boot | |].
    + by apply steady_quiet; [apply tidy_construct|..].
    + by apply quiet_removals_current.
  - by apply steady_elapse.
  - destruct ev; try (eapply steady_path;
      [done | by apply path_handle | done | by apply quiet_removals_current]).
    by apply steady_elapse.
Qed.

Lemma reachable_play page hash evs s :
  reachable page hash s -> reachable page hash (play evs s).
Proof.
  revert s. induction evs as [|ev evs IH]; intros s Hs; [done|].
  apply IH. by constructor.
Qed.

End Calm.

(** ** What has happened when some time has passed *)

Section Elapse.

Implicit Types (s : state) (page : document).

Lemma fire_in_order s : in_order (timers s) -> in_order (timers (fire s)).
Proof.
  unfold fire. destruct (timers s) as [|[e cb] q] eqn:Hq;
    [by rewrite Hq|].
  intros Ho. apply run_callback_queue. simpl. by eapply in_order_tail.
Qed.

Lemma fire_nav_timers s t q :
  timers s = t :: q -> nav_timers (timers (fire s)) = nav_timers q.
Proof.
  unfold fire. intros ->. destruct t as [e cb].
  by destruct (run_callback_queue cb
                 (with_clock (Nat.max (clock s) e) (with_timers q s)))
    as (_ & -> & _).
Qed.

(** While time passes the properties that the firing of a due timer keeps
    are kept. *)
Lemma elapse_keeps_due (P : state -> Prop) d s :
  P s ->
  (forall s' t q, P s' -> timers s' = t :: q -> t.1 <= clock s + d ->
                  P (fire s')) ->
  (forall s', P s' -> P (with_clock (clock s + d) s')) ->
  P (elapse d s).
Proof.
  intros H0 Hf Ht. unfold elapse. apply Ht. apply run_invariant; [done|].
  intros s' t q HP Hq Hd. eapply Hf; [done..|]. by apply Nat.leb_le.
Qed.

(** After [d] ms every timer that is still pending expires later. *)
Lemma elapse_pending d s u :
  in_order (timers s) -> u ∈ timers (elapse d s) -> clock s + d < u.1.
Proof.
  intros Ho. unfold elapse.
  change (timers (with_clock ?h ?x)) with (timers x).
  assert (in_order (timers (run (weight s) (Some (clock s + d)) s))) as Ho'.
  { apply (run_invariant (fun s' => in_order (timers s'))); [done|].
    intros s' t q H _ _. by apply fire_in_order. }
  pose proof (run_stops (weight s) (Some (clock s + d)) s (le_n _)) as Hs.
  destruct (timers (run _ _ s)) as [|t q]; [by intros ?%elem_of_nil|].
  simpl in Hs. apply Nat.leb_gt in Hs.
  intros [->|Hin]%elem_of_cons; [done|].
  pose proof (in_order_head _ _ _ Ho' Hin). lia.
Qed.

(** A closure other than a show leaves the current section alone. *)
Lemma run_callback_current cb s :
  (forall x, cb <> ShowChapter x) ->
  currentSection (run_callback cb s) = currentSection s.
Proof.
  intros Hcb.
  destruct cb;
    try (match goal with
         | |- context [run_callback ?cb s] =>
             apply (cosmetic_run_callback cb s eq_refl)
         end).
  - apply frame_RemoveActive.
  - by destruct (Hcb chapter).
Qed.

(** As long as no show is due the current section stays. *)
Lemma elapse_before_show d s :
  (forall e x, (e, ShowChapter x) ∈ nav_timers (timers s) -> clock s + d < e) ->
  currentSection (elapse d s) = currentSection s.
Proof.
  intros Hw.
  apply (elapse_keeps_due
           (fun s' => currentSection s' = currentSection s /\
                      forall e x, (e, ShowChapter x) ∈ nav_timers (timers s') ->
                                  clock s + d < e)); [done| |done].
  intros s' [e cb] q [Hc Hs] Hq Hd. split.
  - unfold fire. rewrite Hq. rewrite run_callback_current; [done|].
    intros x ->. specialize (Hs e x). rewrite Hq in Hs.
    simpl in *. specialize (Hs ltac:(left)). lia.
  - intros e' x. rewrite (fire_nav_timers s' _ _ Hq). intros Hin.
    apply (Hs e' x). rewrite Hq. simpl.
    destruct (is_nav (e, cb)); [by right|done].
Qed.

(** No timer of a navigation appears while time passes. *)
Lemma elapse_nav_timers d s u :
  u ∈ nav_timers (timers (elapse d s)) -> u ∈ nav_timers (timers s).
Proof.
  apply (elapse_keeps_due
           (fun s' => u ∈ nav_timers (timers s') -> u ∈ nav_timers (timers s)));
    [done| |done].
  intros s' t q IH Hq _. rewrite (fire_nav_timers s' _ _ Hq). intros Hin.
  apply IH. rewrite Hq. simpl. destruct (is_nav t); [by right|done].
Qed.

(** A timer of a navigation that expires later than the time that passes is
    still pending afterwards. *)
Lemma elapse_still_pending d s u :
  u ∈ nav_timers (timers s) -> clock s + d < u.1 ->
  u ∈ nav_timers (timers (elapse d s)).
Proof.
  intros Hu Hlt.
  apply (elapse_keeps_due (fun s' => u ∈ nav_timers (timers s')));
    [done| |done].
  intros s' t q IH Hq Hd. rewrite (fire_nav_timers s' _ _ Hq).
  rewrite Hq in IH. simpl in IH.
  destruct (is_nav t); [|done].
  apply elem_of_cons in IH as [->|?]; [lia|done].
Qed.

Lemma clock_elapse d s : clock (elapse d s) = clock s + d.
Proof. done. Qed.

Lemma last_show_Some X (q : list timer) :
  last_show q = Some X -> exists e, (e, ShowChapter X) ∈ q.
Proof.
  induction q as [|[e cb] q IH]; [done|].
  simpl. destruct (last_show q) as [y|] eqn:Hy.
  - intros [= ->]. destruct (IH eq_refl) as [e' He']. exists e'. by right.
  - destruct cb; try done. intros [= ->]. exists e. left.
Qed.

(** Once the last pending show is due the page is at its chapter. *)
Lemma elapse_lands X d s :
  in_order (timers s) -> lands X s ->
  (forall e x, (e, ShowChapter x) ∈ nav_timers (timers s) -> e <= clock s + d) ->
  currentSection (elapse d s) = X /\ fragment (elapse d s) = X.
Proof.
  intros Ho Hl Hb.
  assert (lands X (elapse d s)) as [Hlast|(_ & Hc & Hh & _)].
  { apply elapse_keeps_due; [done| |done].
    intros s' t q H _ _. by apply lands_fire. }
  - exfalso.
    assert (exists e, (e, ShowChapter X) ∈ nav_timers (timers (elapse d s)))
      as [e Hin].
    { apply last_show_Some. by rewrite last_show_nav_timers. }
    pose proof (elapse_nav_timers _ _ _ Hin) as Hin0.
    apply elem_of_nav_timers in Hin as [Hin _].
    pose proof (elapse_pending _ _ _ Ho Hin). specialize (Hb _ _ Hin0).
    simpl in *. lia.
  - split; [done|]. unfold fragment. by rewrite Hh.
Qed.

End Elapse.

(** ** Where the page is at a given time *)

Section Shows.

Implicit Types (s : state) (q : list timer).

Lemma last_show_upto_nav_timers h q :
  last_show_upto h (nav_timers q) = last_show_upto h q.
Proof.
  induction q as [|[e cb] q IH]; simpl; [done|].
  destruct cb; simpl; rewrite ?IH; try done;
    by destruct (last_show_upto h q).
Qed.

(** A timer that is not a show due by [h] does not count, wherever it
    stands in the queue. *)
Lemma last_show_upto_insert h t q :
  (forall x, t.2 = ShowChapter x -> h < t.1) ->
  last_show_upto h (insert_timer t q) = last_show_upto h q.
Proof.
  intros Ht.
  assert (last_show_upto h (t :: q) = last_show_upto h q) as Hhead.
  { intros. cbn [last_show_upto]. destruct (last_show_upto h q); [done|].
    destruct t as [e cb]. destruct cb; try done. simpl in *.
    specialize (Ht _ eq_refl).
    by rewrite (proj2 (Nat.leb_gt e h)) by lia. }
  induction q as [|u q IH]; [exact Hhead|].
  cbn [insert_timer]. destruct (u.1 <=? t.1)%nat; [|exact Hhead].
  cbn [last_show_upto].
  rewrite IH; [done|].
  cbn [last_show_upto]. destruct (last_show_upto h q); [done|].
  destruct t as [e cb]. destruct cb; try done. simpl in *.
  specialize (Ht _ eq_refl).
  by rewrite (proj2 (Nat.leb_gt e h)) by lia.
Qed.

(** A show due by [h] set on a queue without one is the last due show. *)
Lemma last_show_upto_insert_due h e x q :
  e <= h -> last_show_upto h q = None ->
  last_show_upto h (insert_timer (e, ShowChapter x) q) = Some x.
Proof.
  intros He.
  assert (forall r, last_show_upto h r = None ->
            last_show_upto h ((e, ShowChapter x) :: r) = Some x) as Hhead.
  { intros r Hr. cbn [last_show_upto]. rewrite Hr. simpl.
    by rewrite (proj2 (Nat.leb_le e h)). }
  induction q as [|u q IH]; intros Hq; [by apply Hhead|].
  cbn [insert_timer fst]. destruct (u.1 <=? e)%nat; [|by apply Hhead].
  cbn [last_show_upto] in *.
  destruct (last_show_upto h q); [done|]. by rewrite IH.
Qed.

Lemma last_show_upto_none h q :
  (forall u, u ∈ q -> h < u.1) -> last_show_upto h q = None.
Proof.
  induction q as [|[e cb] q IH]; intros Hq; [done|].
  cbn [last_show_upto]. rewrite IH by (intros u Hu; apply Hq; by right).
  destruct cb; try done. simpl.
  pose proof (Hq (e, ShowChapter chapter) ltac:(left)) as He. simpl in He.
  by rewrite (proj2 (Nat.leb_gt e h)) by lia.
Qed.

Lemma view_at_fire h s t q :
  timers s = t :: q -> t.1 <= h -> view_at h (fire s) = view_at h s.
Proof.
  intros Hq Hd. unfold view_at.
  rewrite <- (last_show_upto_nav_timers h (timers (fire s))).
  rewrite (fire_nav_timers s t q Hq), last_show_upto_nav_timers, Hq.
  cbn [last_show_upto]. destruct (last_show_upto h q) as [y|]; [done|].
  unfold fire. rewrite Hq. destruct t as [e cb].
  set (p := with_clock _ _).
  assert (currentSection p = currentSection s /\
          location_hash p = location_hash s) as [Hpc Hph] by done.
  clearbody p. rewrite <- Hpc, <- Hph.
  assert (forall s', frame_step p s' ->
            (currentSection s', location_hash s')
            = (currentSection p, location_hash p)) as Hframe
    by (intros s' [-> _ -> _ _ _ _]; done).
  destruct cb;
    try (match goal with
         | |- context [run_callback ?cb p] =>
             apply (Hframe _ (proj1 (cosmetic_run_callback cb p eq_refl)))
         end).
  - apply (Hframe _ (frame_RemoveActive el p)).
  - simpl in *. by rewrite (proj2 (Nat.leb_le e h)) by lia.
Qed.

(** After [d] ms the page is where the last show due by then has put it,
    and where it was when no show was due. *)
Lemma elapse_shows d s :
  in_order (timers s) ->
  (currentSection (elapse d s), location_hash (elapse d s))
  = view_at (clock s + d) s.
Proof.
  intros Ho.
  assert (view_at (clock s + d) (elapse d s) = view_at (clock s + d) s)
    as <-.
  { apply (elapse_keeps_due
             (fun s' => view_at (clock s + d) s' = view_at (clock s + d) s));
      [done| |done].
    intros s' t q <- Hq Hd. by eapply view_at_fire. }
  unfold view_at. rewrite last_show_upto_none; [done|].
  intros u Hu. by apply elapse_pending.
Qed.

(** The timers of navigations that expire later than the time that passes
    are all there afterwards, and no other. *)
Lemma elapse_nav_timers_early d s :
  (forall u, u ∈ nav_timers (timers s) -> clock s + d < u.1) ->
  nav_timers (timers (elapse d s)) = nav_timers (timers s).
Proof.
  intros Hlate.
  apply (elapse_keeps_due
           (fun s' => nav_timers (timers s') = nav_timers (timers s)));
    [done| |done].
  intros s' t q IH Hq Hd. rewrite (fire_nav_timers s' _ _ Hq), <- IH, Hq.
  simpl. destruct (is_nav t) eqn:Hn; [|done].
  exfalso. specialize (Hlate t). rewrite <- IH, Hq in Hlate. simpl in Hlate.
  rewrite Hn in Hlate. specialize (Hlate ltac:(left)). lia.
Qed.

(** Once the timers of the navigations are due, none is left. *)
Lemma elapse_nav_timers_late d s :
  in_order (timers s) ->
  (forall u, u ∈ nav_timers (timers s) -> u.1 <= clock s + d) ->
  nav_timers (timers (elapse d s)) = [].
Proof.
  intros Ho Hdue.
  destruct (nav_timers (timers (elapse d s))) as [|u r] eqn:Hn; [done|].
  assert (u ∈ nav_timers (timers (elapse d s))) as Hin
    by (rewrite Hn; left).
  pose proof (Hdue u (elapse_nav_timers d s u Hin)) as Hle.
  apply elem_of_nav_timers in Hin as [Hin _].
  pose proof (elapse_pending d s u Ho Hin). lia.
Qed.

Lemma lands_elapse X d s : lands X s -> lands X (elapse d s).
Proof.
  intros Hl. apply elapse_keeps_due; [done| |done].
  intros s' t q H _ _. by apply lands_fire.
Qed.

(** When every timer has fired the page is where it was heading. *)
Lemma lands_settle X s :
  lands X s ->
  currentSection (settle s) = X /\ fragment (settle s) = X.
Proof.
  intros Hl.
  assert (lands X (settle s)) as [Hs|(_ & Hc & Hh & _)].
  { apply settle_keeps; [intros; by apply lands_fire | done]. }
  - by rewrite settle_quiescent in Hs.
  - split; [done|]. unfold fragment. by rewrite Hh.
Qed.

(** The current section is never the empty identifier, nor is the target
    of a pending show. *)
Lemma reachable_named page hash s :
  reachable page hash s ->
  currentSection s <> EmptyString /\
  forall e x, (e, ShowChapter x) ∈ nav_timers (timers s) -> x <> EmptyString.
Proof.
  revert s. apply reachable_keeps.
  - intros ch s [Hc Hs]. unfold navigateToChapter.
    case_decide as Hcur; [done|].
    destruct (getElementById (doc s) ch) as [i|] eqn:Hi; [|done].
    apply getElementById_Some in Hi as [Hne _].
    assert (forall e x, (e, ShowChapter x) ∈ timers s -> x <> EmptyString)
      as Hs'.
    { intros e x Hin. apply (Hs e). by apply elem_of_nav_timers. }
    destruct (getElementById (doc s) (currentSection s)) as [c|];
      (split; [done|]); intros e x [Hin _]%elem_of_nav_timers;
      simpl in Hin; apply elem_of_insert_timer in Hin as [[= _ ->]|Hin];
      try done.
    + apply elem_of_insert_timer in Hin as [[=]|Hin]. by apply (Hs' e).
    + by apply (Hs' e).
  - intros s s' [Hc Hs] [[Hcur _ _ _ _ Hn _] _]. rewrite Hcur, Hn. done.
  - intros s [Hc Hs] Hne.
    destruct (timers s) as [|[e cb] q] eqn:Hq; [done|]. split.
    + unfold fire. rewrite Hq.
      assert ((exists x, cb = ShowChapter x) \/ (forall x, cb <> ShowChapter x))
        as [[x ->]|Hother]
        by (destruct cb; eauto; right; intros; discriminate).
      * simpl. apply (Hs e). simpl. left.
      * by rewrite run_callback_current.
    + intros e' x. rewrite (fire_nav_timers s _ _ Hq). intros Hin.
      apply (Hs e'). simpl. destruct (is_nav (e, cb)); [by right|done].
  - intros h s H _. done.
  - unfold construct.
    destruct (frame_showSection "introduction"
                (State "introduction" page hash [] 0 0 [] 0 [] 0))
      as [-> _ _ _ _ -> _].
    split; [done|]. intros e x Hin. by apply elem_of_nil in Hin.
Qed.

(** Where the current section shows, it is an element of the document. *)
Lemma shown_current_element page hash s :
  reachable page hash s -> exactly_current s ->
  is_Some (getElementById (doc s) (currentSection s)).
Proof.
  intros Hr Hx.
  assert (currentSection s ∈ active_sections (doc s)) as Hin
    by (rewrite Hx; left).
  apply list_elem_of_omap in Hin as (e & He & Hsh).
  apply shown_Some_id in Hsh.
  apply (getElementById_is_Some _ _ e); [done|done|].
  by apply (reachable_named page hash).
Qed.

End Shows.

(** * The claims of the specification *)

(** ** Requests that are dropped *)

(** C6. Idempotence: a request for the section that is already current is
    a no-op.  The state after the call is the state before it, so no
    section changes its visibility, the address is not rewritten and the
    timer queue is the same: nothing was scheduled. *)
Theorem navigate_to_current_is_noop (s : state) :
  navigateToChapter (currentSection s) s = s.
Proof. unfold navigateToChapter. by rewrite decide_True. Qed.

(** C7, as the script has it.  The second guard of [navigateToChapter]
    asks [document.getElementById] for an element, of any kind.  A request
    for an identifier that is the id of no element of the document is
    silently dropped: the call returns the state it was given, so the
    current section, the visibility of every section and the timer queue
    are unchanged, and the model of the call has no failing outcome.  On a
    document whose elements with an id are its content sections this is
    every identifier that names no content section.  An identifier that an
    element carries, content section or not, is not dropped unless it is
    the current one: the show of that chapter is set, 150 ms ahead. *)
Theorem navigate_to_unknown_is_noop (s : state) (chapter : string) :
  (getElementById (doc s) chapter = None ->
   navigateToChapter chapter s = s) /\
  (registered (doc s) -> chapter ∉ section_ids (doc s) ->
   navigateToChapter chapter s = s) /\
  (is_Some (getElementById (doc s) chapter) -> chapter <> currentSection s ->
   (clock s + 150, ShowChapter chapter)
   ∈ timers (navigateToChapter chapter s)).
Proof.
  assert (getElementById (doc s) chapter = None ->
          navigateToChapter chapter s = s) as Hdrop.
  { intros Hnone. unfold navigateToChapter.
    case_decide; [done|]. by rewrite Hnone. }
  split; [exact Hdrop|]. split.
  - intros Hreg Hout. apply Hdrop.
    destruct (getElementById (doc s) chapter) as [i|] eqn:Hi; [|done].
    apply getElementById_Some in Hi as (Hne & e & He & Hid).
    apply list_elem_of_lookup_2 in He.
    exfalso. apply Hout. apply list_elem_of_omap. exists e.
    split; [done|]. rewrite (Hreg e He) by congruence. by rewrite Hid.
  - intros [i Hi] Hne. unfold navigateToChapter.
    rewrite decide_False by congruence. rewrite Hi.
    destruct (getElementById (doc s) (currentSection s));
      apply elem_of_insert_timer; by left.
Qed.

Lemma navigate_to_unknown_is_noop_witness :
  let s := boot Sample.page EmptyString in
  getElementById (doc s) "nonexistent" = None /\
  registered (doc s) /\
  ("nonexistent" ∉ section_ids (doc s)) /\
  navigateToChapter "nonexistent" s = s /\
  is_Some (getElementById (doc Framed.idle) "sidebar") /\
  "sidebar" <> currentSection Framed.idle /\
  (1150, ShowChapter "sidebar")
  ∈ timers (navigateToChapter "sidebar" Framed.idle).
Proof.
  assert (getElementById (doc (boot Sample.page EmptyString)) "nonexistent"
          = None) as Hnone by (vm_compute; reflexivity).
  assert (registered (doc (boot Sample.page EmptyString))) as Hreg.
  { intros e He Hid. vm_compute in He.
    repeat (apply elem_of_cons in He as [->|He]; [done|]).
    by apply elem_of_nil in He. }
  assert ("nonexistent" ∉ section_ids (doc (boot Sample.page EmptyString)))
    as Hout.
  { vm_compute. intros He.
    repeat (apply elem_of_cons in He as [He|He]; [discriminate He|]).
    by apply elem_of_nil in He. }
  assert (is_Some (getElementById (doc Framed.idle) "sidebar")) as Hex
    by (vm_compute; eauto).
  assert ("sidebar" <> currentSection Framed.idle) as Hne
    by (vm_compute; discriminate).
  split; [exact Hnone|]. split; [exact Hreg|]. split; [exact Hout|].
  split.
  - exact (proj1 (proj2 (navigate_to_unknown_is_noop
                           (boot Sample.page EmptyString) "nonexistent"))
             Hreg Hout).
  - split; [exact Hex|]. split; [exact Hne|].
    exact (proj2 (proj2 (navigate_to_unknown_is_noop Framed.idle "sidebar"))
             Hex Hne).
Defined.

(** C7, as the specification words it, fails on a page with an element
    that carries an id and is not a content section.  The side bar of the
    framed page is no content section, and a request for it is not
    dropped: both timers of a navigation are set, and once they have fired
    the current section and the address are [sidebar] and no section is
    marked active. *)
Lemma unregistered_target_goes_through :
  let s := Framed.idle in
  let s1 := navigateToChapter "sidebar" s in
  reachable Framed.page EmptyString s /\
  section_ids (doc s) = ["introduction"; "genesis"; "evolution"] /\
  currentSection s = "introduction" /\
  active_sections (doc s) = ["introduction"] /\
  nav_timers (timers s) = [] /\
  nav_timers (timers s1)
  = [ (1150, ShowChapter "sidebar"); (1300, RemoveActive 3) ] /\
  timers (settle s1) = [] /\
  currentSection (settle s1) = "sidebar" /\
  fragment (settle s1) = "sidebar" /\
  active_sections (doc (settle s1)) = [].
Proof.
  split; [apply (reach_step _ _ _ (Elapse 1000)), reach_boot|].
  vm_compute. repeat split; reflexivity.
Qed.

(** ** A request that goes through *)

(** C5. For every existing section [X] other than the current one, in any
    state of the page, once [navigateToChapter X] has been called and all
    timers have fired (the queue is empty), the current section is [X] and
    the fragment of the address is [X].  The address was changed by
    [history.pushState], the newest history entry, which by the contract of
    that call loads no page. *)
Theorem navigate_completes page hash (s : state) (X : string) :
  reachable page hash s ->
  is_Some (getElementById (doc s) X) ->
  X <> currentSection s ->
  let s' := settle (navigateToChapter X s) in
  timers s' = [] /\ currentSection s' = X /\ fragment s' = X /\
  head (history s') = Some ("#" +:+ X).
Proof.
  intros Hr Hex Hne s'. split; [apply settle_quiescent|].
  assert (lands X s') as [Hl|(_ & Hc & Hh & Hi)].
  { apply settle_keeps; [intros; by apply lands_fire|].
    eapply lands_navigate; [by eapply reachable_tidy|done..]. }
  - subst s'. by rewrite settle_quiescent in Hl.
  - split; [done|]. split; [|done]. unfold fragment. by rewrite Hh.
Qed.

Lemma navigate_completes_witness :
  let s := boot Sample.page EmptyString in
  let s' := settle (navigateToChapter "genesis" s) in
  reachable Sample.page EmptyString s /\
  is_Some (getElementById (doc s) "genesis") /\
  "genesis" <> currentSection s /\
  timers s' = [] /\ currentSection s' = "genesis" /\
  fragment s' = "genesis" /\ head (history s') = Some "#genesis".
Proof.
  assert (reachable Sample.page EmptyString (boot Sample.page EmptyString))
    as Hr by constructor.
  assert (is_Some (getElementById (doc (boot Sample.page EmptyString))
                     "genesis")) as Hex by (vm_compute; eauto).
  assert ("genesis" <> currentSection (boot Sample.page EmptyString))
    as Hne by (vm_compute; discriminate).
  split; [exact Hr|]. split; [exact Hex|]. split; [exact Hne|].
  exact (navigate_completes Sample.page EmptyString _ "genesis" Hr Hex Hne).
Defined.

(** ** The arrow keys *)

(** C8. Sequential navigation wraps around.  The catalog starts with
    [introduction] and ends with [conclusion]; from the first entry
    ArrowLeft requests the last, from the last entry ArrowRight requests
    the first; and from the entry at any index [i] ArrowRight requests the
    entry at [i + 1] and ArrowLeft the one at [i - 1], both modulo the
    length of the catalog. *)
Theorem arrow_keys_wrap_around (s : state) :
  head chapters = Some "introduction" /\
  last chapters = Some "conclusion" /\
  (currentSection s = "introduction" ->
   navigateWithArrowKeys "ArrowLeft" s = goes_to "conclusion" s) /\
  (currentSection s = "conclusion" ->
   navigateWithArrowKeys "ArrowRight" s = goes_to "introduction" s) /\
  (forall i cur,
     chapters !! i = Some cur -> currentSection s = cur ->
     arrowTarget "ArrowRight" cur
     = chapters !! ((i + 1) mod length chapters) /\
     arrowTarget "ArrowLeft" cur
     = chapters !! ((i + length chapters - 1) mod length chapters)).
Proof.
  split; [done|]. split; [done|]. split; [|split].
  - intros Hc. unfold navigateWithArrowKeys. by rewrite Hc.
  - intros Hc. unfold navigateWithArrowKeys. by rewrite Hc.
  - intros i cur Hi _.
    do 10 (destruct i as [|i];
           [injection Hi as <-; split; vm_compute; reflexivity|]).
    done.
Qed.

(** C10. When the current section is not an entry of the keyboard catalog
    [indexOf] answers -1, and the arrow keys still lead somewhere:
    ArrowLeft requests the last entry, [conclusion], and ArrowRight the
    first, [introduction]. *)
Theorem arrow_keys_outside_catalog (s : state) :
  currentSection s ∉ chapters ->
  indexOf chapters (currentSection s) = (-1)%Z /\
  navigateWithArrowKeys "ArrowLeft" s = goes_to "conclusion" s /\
  navigateWithArrowKeys "ArrowRight" s = goes_to "introduction" s.
Proof.
  intros Hout.
  assert (indexOf chapters (currentSection s) = (-1)%Z) as Hi
    by (by apply index_from_absent).
  split; [done|].
  unfold navigateWithArrowKeys, arrowTarget. rewrite Hi. done.
Qed.

Lemma arrow_keys_outside_catalog_witness :
  currentSection Manual.at_appendix = "appendix" /\
  (currentSection Manual.at_appendix ∉ chapters) /\
  indexOf chapters (currentSection Manual.at_appendix) = (-1)%Z /\
  navigateWithArrowKeys "ArrowLeft" Manual.at_appendix
  = goes_to "conclusion" Manual.at_appendix /\
  navigateWithArrowKeys "ArrowRight" Manual.at_appendix
  = goes_to "introduction" Manual.at_appendix.
Proof.
  assert (currentSection Manual.at_appendix = "appendix") as Hc
    by (vm_compute; reflexivity).
  assert (currentSection Manual.at_appendix ∉ chapters) as Hout.
  { rewrite Hc. unfold chapters. intros Hin.
    repeat (apply elem_of_cons in Hin as [Hin|Hin]; [discriminate Hin|]).
    by apply elem_of_nil in Hin. }
  split; [exact Hc|]. split; [exact Hout|].
  exact (arrow_keys_outside_catalog Manual.at_appendix Hout).
Defined.

(** ** Search *)



(** C2 (the script departs from it).  The [return] in the callback of
    [forEach] ends one turn only, so the scan goes on after the first
    match and a request is made for every matching section.  On the sample
    page, at rest on [introduction], the sections that include [bar] are
    [genesis] and [evolution], in that order: the search sets a show timer
    for each, and the page ends on the last one, [evolution], not on the
    first. *)
Theorem search_visits_every_match :
  let s := settle (boot Sample.page EmptyString) in
  let s' := performSearch "bar" s in
  currentSection s = "introduction" /\
  matches "bar" (doc s) = ["genesis"; "evolution"] /\
  nav_timers (timers s')
  = [ (clock s + 150, ShowChapter "genesis");
      (clock s + 150, ShowChapter "evolution");
      (clock s + 300, RemoveActive 3);
      (clock s + 300, RemoveActive 3) ] /\
  currentSection (settle s') = "evolution" /\
  active_sections (doc (settle s')) = ["evolution"].
Proof. vm_compute. repeat split; reflexivity. Qed.

(** ** Facts about the sample page, and two lemmas on quiet pages *)

Section SamplePage.

Lemma sample_menu_disjoint : menu_disjoint Sample.page.
Proof.
  intros e He Hs. unfold Sample.page in He.
  repeat (apply elem_of_cons in He as [->|He]; [done|]).
  by apply elem_of_nil in He.
Qed.

Lemma sample_registered : registered Sample.page.
Proof.
  intros e He Hid. unfold Sample.page in He.
  repeat (apply elem_of_cons in He as [->|He]; [done|]).
  by apply elem_of_nil in He.
Qed.

Lemma sample_has_introduction :
  is_Some (getElementById Sample.page "introduction").
Proof. vm_compute. eauto. Qed.

Lemma idle_calm : calm_reachable Sample.page EmptyString Rest.idle.
Proof. apply calm_elapse, calm_boot. Qed.

Lemma idle_quiet : quiet Rest.idle.
Proof. vm_compute. reflexivity. Qed.

Lemma idle_reachable : reachable Sample.page EmptyString Rest.idle.
Proof. apply calm_is_reachable, idle_calm. Qed.

Lemma idle_exact : exactly_current Rest.idle.
Proof. vm_compute. reflexivity. Qed.

Lemma tidy_navigate_lands page s X :
  tidy page s -> currentSection s <> X ->
  is_Some (getElementById (doc s) X) ->
  let s' := settle (navigateToChapter X s) in
  timers s' = [] /\ currentSection s' = X /\ fragment s' = X.
Proof.
  intros Ht Hne Hex s'. split; [apply settle_quiescent|].
  assert (lands X s') as [Hl|(_ & Hc & Hh & Hi)].
  { apply settle_keeps; [intros; by apply lands_fire|].
    by eapply lands_navigate. }
  - subst s'. by rewrite settle_quiescent in Hl.
  - split; [done|]. unfold fragment. by rewrite Hh.
Qed.

(** The navigation timers after a request made on a quiet page. *)
Lemma quiet_navigate_timers s X a :
  in_order (timers s) -> quiet s ->
  getElementById (doc s) (currentSection s) = Some a ->
  is_Some (getElementById (doc s) X) -> X <> currentSection s ->
  nav_timers (timers (navigateToChapter X s))
  = [ (clock s + 150, ShowChapter X); (clock s + 300, RemoveActive a) ].
Proof.
  intros Ho Hq Ha [n Hn] Hne.
  destruct (navigateToChapter_cases X s) as [[[?|?] _]|(_ & _ & E)];
    [done | congruence |].
  destruct E as [_ _ _ _ _ _ _ Hnav]. rewrite Hnav, Ha, Hq by done.
  cbn [insert_timer fst].
  by rewrite (proj2 (Nat.leb_gt (clock s + 300) (clock s + 150))) by lia.
Qed.

End SamplePage.

(** ** The phases of a transition *)

(** C4, as the script has it.  The page has menu entries that are not
    content sections and its elements with an id are its content sections.
    A request for an existing section [X] other than the current one, made
    in a state of the page in which no timer of a navigation is pending and
    the current section is the one section marked active, sets both timers
    at once: the show of [X] 150 ms ahead and the removal for the element
    [a] of the previous section 300 ms ahead.  Until 150 ms have passed the
    current section and the address are those of before and the previous
    section is the one marked active.  From 150 ms on [X] is current, is in
    the address and is the one section marked active, the previous one
    having been hidden by [showSection] itself.  The removal is pending
    until 300 ms have passed; by then it has fired, no timer of the
    navigation is left, and what shows has not changed. *)
Theorem transition_phases page hash (s : state) (X : string) :
  menu_disjoint page -> registered page ->
  reachable page hash s -> quiet s -> exactly_current s ->
  is_Some (getElementById (doc s) X) -> X <> currentSection s ->
  let s1 := navigateToChapter X s in
  exists a,
    getElementById (doc s) (currentSection s) = Some a /\
    nav_timers (timers s1)
    = [ (clock s + 150, ShowChapter X); (clock s + 300, RemoveActive a) ] /\
    (forall d, d < 150 ->
       currentSection (elapse d s1) = currentSection s /\
       location_hash (elapse d s1) = location_hash s /\
       active_sections (doc (elapse d s1)) = [currentSection s]) /\
    (forall d, 150 <= d ->
       currentSection (elapse d s1) = X /\
       fragment (elapse d s1) = X /\
       active_sections (doc (elapse d s1)) = [X]) /\
    (forall d, d < 300 ->
       (clock s + 300, RemoveActive a) ∈ timers (elapse d s1)) /\
    (forall d, 300 <= d -> nav_timers (timers (elapse d s1)) = []).
Proof.
  intros Hm Hreg Hr Hq Hexact Hex Hne s1.
  destruct (shown_current_element page hash s Hr Hexact) as [a Ha].
  exists a. split; [exact Ha|].
  pose proof (steady_quiet page s (reachable_tidy page hash s Hr) Hexact Hq)
    as Hs.
  assert (steady page s1) as Hs1.
  { apply steady_navigate; [done|]. intros _.
    by apply removals_current_clear, quiet_removals_current. }
  assert (nav_timers (timers s1)
          = [ (clock s + 150, ShowChapter X);
              (clock s + 300, RemoveActive a) ]) as Hn.
  { apply quiet_navigate_timers; try done. apply Hs. }
  assert (clock s1 = clock s /\ currentSection s1 = currentSection s /\
          location_hash s1 = location_hash s) as (Hc & Hcur & Hhash).
  { subst s1.
    destruct (navigateToChapter_cases X s) as [[_ Heq]|(_ & _ & [])];
      [by rewrite Heq | done]. }
  assert (forall d, exactly_current (elapse d s1)) as Hx
    by (intros d; by apply (steady_elapse page)).
  assert (forall d,
            (currentSection (elapse d s1), location_hash (elapse d s1))
            = if (clock s + 150 <=? clock s + d)%nat
              then (X, "#" +:+ X)
              else (currentSection s, location_hash s)) as Hview.
  { intros d. rewrite elapse_shows by apply Hs1. unfold view_at.
    rewrite <- last_show_upto_nav_timers, Hn, Hc, Hcur, Hhash. simpl.
    by destruct (_ <=? _)%nat. }
  split; [done|]. split; [|split; [|split]].
  - intros d Hd. specialize (Hview d).
    rewrite (proj2 (Nat.leb_gt _ _)) in Hview by lia.
    apply pair_equal_spec in Hview as [Hk Hh]. split; [done|]. split; [done|].
    pose proof (Hx d) as Hxd. unfold exactly_current in Hxd.
    by rewrite Hk in Hxd.
  - intros d Hd. specialize (Hview d).
    rewrite (proj2 (Nat.leb_le _ _)) in Hview by lia.
    apply pair_equal_spec in Hview as [Hk Hh]. split; [done|]. split.
    + unfold fragment. by rewrite Hh.
    + pose proof (Hx d) as Hxd. unfold exactly_current in Hxd.
      by rewrite Hk in Hxd.
  - intros d Hd.
    apply (elem_of_nav_timers _ (timers (elapse d s1))).
    apply elapse_still_pending; [|simpl; lia].
    rewrite Hn. right. left.
  - intros d Hd. apply elapse_nav_timers_late; [apply Hs1|].
    intros u. rewrite Hn, Hc. intros Hin.
    apply elem_of_cons in Hin as [->|Hin]; [simpl; lia|].
    apply elem_of_cons in Hin as [->|Hin]; [simpl; lia|].
    by apply elem_of_nil in Hin.
Qed.

Lemma transition_phases_witness :
  let s1 := navigateToChapter "genesis" Rest.idle in
  nav_timers (timers s1)
  = [ (1150, ShowChapter "genesis"); (1300, RemoveActive 3) ] /\
  currentSection (elapse 149 s1) = "introduction" /\
  active_sections (doc (elapse 149 s1)) = ["introduction"] /\
  currentSection (elapse 150 s1) = "genesis" /\
  fragment (elapse 150 s1) = "genesis" /\
  active_sections (doc (elapse 150 s1)) = ["genesis"] /\
  (1300, RemoveActive 3) ∈ timers (elapse 299 s1) /\
  nav_timers (timers (elapse 300 s1)) = [].
Proof.
  assert (is_Some (getElementById (doc Rest.idle) "genesis")) as Hex
    by (vm_compute; eauto).
  assert ("genesis" <> currentSection Rest.idle) as Hne
    by (vm_compute; discriminate).
  destruct (transition_phases Sample.page EmptyString Rest.idle "genesis"
              sample_menu_disjoint sample_registered idle_reachable
              idle_quiet idle_exact Hex Hne)
    as (a & Ha & H1 & H2 & H3 & H4 & H5).
  assert (a = 3) as -> by (vm_compute in Ha; congruence).
  split; [exact H1|].
  destruct (H2 149 ltac:(lia)) as (H2a & _ & H2b).
  destruct (H3 150 ltac:(lia)) as (H3a & H3b & H3c).
  split; [exact H2a|]. split; [exact H2b|].
  split; [exact H3a|]. split; [exact H3b|]. split; [exact H3c|].
  split; [apply (H4 299); lia | apply (H5 300); lia].
Defined.

(** C4, as the specification words it, fails: on the sample page the target
    is marked active 150 ms after the request, while the removal of the
    exit phase, due 300 ms after the request, has not fired; nothing waits
    for the exit to end, let alone 150 ms more. *)
Lemma target_shown_before_exit_ends :
  let s1 := navigateToChapter "genesis" Rest.idle in
  clock s1 = 1000 /\
  active_sections (doc (elapse 150 s1)) = ["genesis"] /\
  currentSection (elapse 150 s1) = "genesis" /\
  nav_timers (timers (elapse 150 s1)) = [ (1300, RemoveActive 3) ] /\
  active_sections (doc (elapse 300 s1)) = ["genesis"] /\
  nav_timers (timers (elapse 300 s1)) = [].
Proof. vm_compute. repeat split; reflexivity. Qed.

(** ** One section shows *)

(** C3, as the script has it.  On a page whose menu entries are not
    content sections, in every state that any sequence of events leads to,
    at most one section is marked active, and a section that is marked
    active is the current one; there is no window in which two show.  When
    moreover the elements with an id are the content sections, one of them
    [introduction], and every input event finds the page quiet (no timer of
    an earlier navigation pending), exactly one section is marked active in
    every state, the current one. *)
Theorem shown_section_invariant page hash (s : state) :
  menu_disjoint page ->
  (reachable page hash s -> at_most_current s) /\
  (registered page -> is_Some (getElementById page "introduction") ->
   calm_reachable page hash s -> exactly_current s).
Proof.
  intros Hm. split.
  - by apply reachable_at_most.
  - intros Hreg Hintro Hcalm. by apply (calm_steady page hash).
Qed.

Lemma shown_section_invariant_witness :
  menu_disjoint Sample.page /\
  reachable Sample.page EmptyString Rest.blank /\
  at_most_current Rest.blank /\
  calm_reachable Sample.page EmptyString Rest.unhurried /\
  exactly_current Rest.unhurried /\
  currentSection Rest.unhurried = "genesis".
Proof.
  assert (reachable Sample.page EmptyString Rest.blank) as Hr.
  { apply reachable_play, calm_is_reachable, idle_calm. }
  assert (calm_reachable Sample.page EmptyString Rest.unhurried) as Hc.
  { apply calm_elapse, calm_event; [apply idle_calm | apply idle_quiet]. }
  split; [exact sample_menu_disjoint|]. split; [exact Hr|].
  split; [|split; [exact Hc|split]].
  - exact (proj1 (shown_section_invariant Sample.page EmptyString Rest.blank
                    sample_menu_disjoint) Hr).
  - exact (proj2 (shown_section_invariant Sample.page EmptyString
                    Rest.unhurried sample_menu_disjoint)
             sample_registered sample_has_introduction Hc).
  - vm_compute. reflexivity.
Defined.

(** C3, as the specification words it, fails.  On the sample page, Ctrl+2
    twice within 100 ms and Escape 60 ms later lead, once every timer has
    fired, to a state in which no section is marked active although the
    current section is [introduction]: the removal set by the second Ctrl+2
    fires after the show of [introduction]. *)
Lemma blank_page_reachable :
  reachable Sample.page EmptyString Rest.blank /\
  timers Rest.blank = [] /\
  currentSection Rest.blank = "introduction" /\
  active_sections (doc Rest.blank) = [] /\
  ~ exactly_current Rest.blank.
Proof.
  split; [apply reachable_play, calm_is_reachable, idle_calm|].
  assert (active_sections (doc Rest.blank) = []) as Hb
    by (vm_compute; reflexivity).
  split; [vm_compute; reflexivity|]. split; [vm_compute; reflexivity|].
  split; [exact Hb|]. unfold exactly_current. rewrite Hb. discriminate.
Qed.

(** ** Two requests in a row *)

(** C1, as the script has it.  The page has menu entries that are not
    content sections and its elements with an id are its content sections;
    the first request, for an existing section [B] other than the current
    one, is made in a state of the page in which no timer of a navigation
    is pending and the current section is the one section marked active;
    the second request comes [d] ms later, whatever [d].

    When the second request is for an existing section [C] other than the
    one current at that moment, the page ends with [C]: once every timer
    has fired, [C] is current, is the one section marked active, and is in
    the address; and at every moment after the second request exactly one
    section is marked active, the current one, so the removals of both
    transitions change nothing that shows.  No timer of the first
    transition is cancelled: when the second request comes within 150 ms,
    the show of [B] and the removal set with it are still in the queue
    after the second request, and from the moment the show of [B] is due
    until the show of [C] is, [B] is current, marked active and in the
    address.

    When the second request is for the section current at that moment it
    is dropped (the call returns the state it was given), and the page
    ends with [B]; within 150 ms of the first request that section is
    still the one the page started from. *)
Theorem last_request_wins page hash (s : state) (B C : string) (d : nat) :
  menu_disjoint page -> registered page ->
  reachable page hash s -> quiet s -> exactly_current s ->
  is_Some (getElementById (doc s) B) -> B <> currentSection s ->
  let s2 := elapse d (navigateToChapter B s) in
  (is_Some (getElementById (doc s2) C) -> C <> currentSection s2 ->
   let s3 := navigateToChapter C s2 in
   let s' := settle s3 in
   timers s' = [] /\ currentSection s' = C /\
   active_sections (doc s') = [C] /\ fragment s' = C /\
   (forall d', exactly_current (elapse d' s3)) /\
   (d < 150 ->
    (clock s + 150, ShowChapter B) ∈ timers s3 /\
    (exists a, getElementById (doc s) (currentSection s) = Some a /\
       (clock s + 300, RemoveActive a) ∈ timers s3) /\
    (forall d', 150 <= d + d' -> d' < 150 ->
       currentSection (elapse d' s3) = B /\
       active_sections (doc (elapse d' s3)) = [B] /\
       fragment (elapse d' s3) = B))) /\
  (let s3 := navigateToChapter (currentSection s2) s2 in
   let s' := settle s3 in
   s3 = s2 /\
   timers s' = [] /\ currentSection s' = B /\
   active_sections (doc s') = [B] /\ fragment s' = B /\
   (d < 150 -> currentSection s2 = currentSection s)).
Proof.
  intros Hm Hreg Hr Hq Hexact HB HneB s2.
  pose proof (steady_quiet page s (reachable_tidy page hash s Hr) Hexact Hq)
    as Hs.
  set (s1 := navigateToChapter B s) in *.
  assert (steady page s1) as Hs1.
  { apply steady_navigate; [done|]. intros _.
    by apply removals_current_clear, quiet_removals_current. }
  destruct (navigateToChapter_cases B s) as [[[?|?] _]|(_ & _ & E)];
    [done | by destruct HB; congruence |].
  fold s1 in E. destruct E as [Hcur1 Hclk1 _ _ Hsk1 _ _ Hnav1].
  specialize (Hnav1 ltac:(apply Hs)). rewrite Hq in Hnav1.
  assert (forall e x, (e, ShowChapter x) ∈ nav_timers (timers s1) ->
            e = clock s + 150 /\ x = B) as Hshows.
  { intros e x. rewrite Hnav1.
    intros [[= -> ->]|Hin]%elem_of_insert_timer; [done|].
    destruct (getElementById _ (currentSection s)); [|by apply elem_of_nil in Hin].
    apply elem_of_insert_timer in Hin as [[=]|Hin]. by apply elem_of_nil in Hin. }
  assert (forall e c, (e, RemoveActive c) ∈ nav_timers (timers s1) ->
            e = clock s + 300 /\
            getElementById (doc s) (currentSection s) = Some c) as Hrems.
  { intros e c. rewrite Hnav1.
    intros [[=]|Hin]%elem_of_insert_timer.
    destruct (getElementById _ (currentSection s)); [|by apply elem_of_nil in Hin].
    apply elem_of_insert_timer in Hin as [[= -> ->]|Hin]; [done|].
    by apply elem_of_nil in Hin. }
  assert (forall u, u ∈ nav_timers (timers s1) -> clock s + 150 <= u.1)
    as Hlate.
  { intros [e cb] Hin.
    pose proof (proj1 (elem_of_nav_timers _ _) Hin) as [_ Hnav].
    destruct cb; try discriminate Hnav; simpl.
    - by destruct (Hrems e el Hin) as [-> _]; lia.
    - by destruct (Hshows e chapter Hin) as [-> _]. }
  assert (steady page s2) as Hs2 by (by apply steady_elapse).
  assert (d < 150 -> currentSection s2 = currentSection s) as Hearly.
  { intros Hd. rewrite <- Hcur1. apply elapse_before_show. intros e' x Hin'.
    destruct (Hshows e' x Hin') as [-> _]. lia. }
  assert (lands B s2) as HlB.
  { apply lands_elapse.
    eapply lands_navigate; [apply Hs | congruence | done]. }
  split.
  - intros HC HneC s3 s'.
    assert (clear_for C s2) as Hclear.
    { intros e c Hin Hlt el Hel.
      apply elapse_nav_timers in Hin. destruct (Hrems e c Hin) as [-> Hg].
      assert (d < 150) as Hd by (subst s2; simpl in Hlt; lia).
      apply getElementById_Some in Hg as (_ & e0 & He0 & Hid0).
      assert (skel (doc s2) = skel (doc s)) as Hsk2.
      { transitivity (skel page); [apply Hs2 | symmetry; apply Hs]. }
      destruct (skel_lookup _ _ _ _ Hsk2 Hel) as (e1 & He1 & Hk1).
      apply skeleton_eq in Hk1 as (Hid1 & _).
      assert (e1 = e0) as -> by congruence.
      rewrite <- (Hearly Hd) in Hid0. congruence. }
    assert (steady page s3) as Hs3 by (by apply steady_navigate).
    destruct (tidy_navigate_lands page s2 C) as (Ht & Hc & Hf);
      [apply Hs2 | done | done |].
    assert (forall d', exactly_current (elapse d' s3)) as Hx
      by (intros d'; by apply (steady_elapse page)).
    split; [done|]. split; [done|]. split; [|split; [done|split; [done|]]].
    { pose proof (steady_settle page s3 Hm Hreg Hs3) as [_ Hx' _ _].
      unfold exactly_current in Hx'. fold s' in Hx'.
      change (currentSection s' = C) in Hc. by rewrite Hc in Hx'. }
    intros Hd.
    assert (nav_timers (timers s2) = nav_timers (timers s1)) as Hn2.
    { apply elapse_nav_timers_early. intros u Hu.
      pose proof (Hlate u Hu). lia. }
    destruct (navigateToChapter_cases C s2) as [[[?|?] _]|(_ & _ & E)];
      [done | by destruct HC; congruence |].
    fold s3 in E. destruct E as [_ Hclk3 _ _ _ _ _ Hnav3].
    assert (clock s2 = clock s + d) as Hclk2
      by (unfold s2; by rewrite clock_elapse, Hclk1).
    specialize (Hnav3 ltac:(apply Hs2)). rewrite Hn2, Hclk2 in Hnav3.
    assert (forall u, u ∈ nav_timers (timers s1) -> u ∈ timers s3) as Hkept.
    { intros u Hu. apply (elem_of_nav_timers _ (timers s3)).
      rewrite Hnav3. apply elem_of_insert_timer. right.
      destruct (getElementById _ (currentSection s2)); [|done].
      apply elem_of_insert_timer. by right. }
    split; [|split].
    + apply Hkept. rewrite Hnav1. apply elem_of_insert_timer. by left.
    + destruct (shown_current_element page hash s Hr Hexact) as [a Ha].
      exists a. split; [done|]. apply Hkept. rewrite Hnav1, Ha.
      apply elem_of_insert_timer. right. apply elem_of_insert_timer. by left.
    + intros d' Hlo Hhi.
      assert (last_show_upto (clock s3 + d') (timers s3) = Some B) as Hlast.
      { rewrite <- last_show_upto_nav_timers, Hnav3.
        rewrite Hclk3, Hclk2.
        rewrite last_show_upto_insert by (simpl; intros; lia).
        assert (last_show_upto (clock s + d + d') (nav_timers (timers s1))
                = Some B) as HB1.
        { rewrite Hnav1. apply last_show_upto_insert_due; [lia|].
          destruct (getElementById _ (currentSection s)); [|done].
          by rewrite last_show_upto_insert. }
        destruct (getElementById _ (currentSection s2)); [|done].
        by rewrite last_show_upto_insert. }
      pose proof (elapse_shows d' s3 ltac:(apply Hs3)) as Hview.
      unfold view_at in Hview. rewrite Hlast in Hview.
      apply pair_equal_spec in Hview as [Hk Hh].
      split; [done|]. split.
      * pose proof (Hx d') as Hxd. unfold exactly_current in Hxd.
        by rewrite Hk in Hxd.
      * unfold fragment. by rewrite Hh.
  - intros s3 s'.
    assert (s3 = s2) as Hdrop
      by (unfold s3, navigateToChapter; by rewrite decide_True).
    subst s'. rewrite Hdrop.
    destruct (lands_settle B s2 HlB) as [Hc Hf].
    split; [done|]. split; [apply settle_quiescent|]. split; [done|].
    split; [|by split].
    pose proof (steady_settle page s2 Hm Hreg Hs2) as [_ Hx' _ _].
    unfold exactly_current in Hx'. by rewrite Hc in Hx'.
Qed.

Lemma last_request_wins_witness :
  let s2 := elapse 10 (navigateToChapter "genesis" Rest.idle) in
  let s3 := navigateToChapter "evolution" s2 in
  quiet Rest.idle /\
  exactly_current Rest.idle /\
  "genesis" <> currentSection Rest.idle /\
  "evolution" <> currentSection s2 /\
  timers (settle s3) = [] /\
  currentSection (settle s3) = "evolution" /\
  active_sections (doc (settle s3)) = ["evolution"] /\
  fragment (settle s3) = "evolution" /\
  exactly_current (elapse 145 s3) /\
  (1150, ShowChapter "genesis") ∈ timers s3 /\
  (1300, RemoveActive 3) ∈ timers s3 /\
  currentSection (elapse 145 s3) = "genesis" /\
  active_sections (doc (elapse 145 s3)) = ["genesis"] /\
  currentSection s2 = "introduction" /\
  navigateToChapter "introduction" s2 = s2 /\
  currentSection (settle (navigateToChapter "introduction" s2)) = "genesis" /\
  active_sections (doc (settle (navigateToChapter "introduction" s2)))
  = ["genesis"].
Proof.
  assert (is_Some (getElementById (doc Rest.idle) "genesis")) as HB
    by (vm_compute; eauto).
  assert ("genesis" <> currentSection Rest.idle) as HneB
    by (vm_compute; discriminate).
  assert (is_Some (getElementById
                     (doc (elapse 10 (navigateToChapter "genesis" Rest.idle)))
                     "evolution")) as HC by (vm_compute; eauto).
  assert ("evolution"
          <> currentSection (elapse 10 (navigateToChapter "genesis" Rest.idle)))
    as HneC by (vm_compute; discriminate).
  assert (getElementById (doc Rest.idle) (currentSection Rest.idle) = Some 3)
    as Ha by (vm_compute; reflexivity).
  assert (currentSection Rest.idle = "introduction") as Hcur
    by (vm_compute; reflexivity).
  destruct (last_request_wins Sample.page EmptyString Rest.idle
              "genesis" "evolution" 10
              sample_menu_disjoint sample_registered idle_reachable
              idle_quiet idle_exact HB HneB) as [Hpass Hdrop].
  destruct (Hpass HC HneC) as (H1 & H2 & H3 & H4 & H5 & H6).
  destruct (H6 ltac:(lia)) as (H7 & (a & Ha' & H8) & H9).
  assert (a = 3) as -> by congruence.
  destruct (H9 145 ltac:(lia) ltac:(lia)) as (H10 & H11 & _).
  destruct Hdrop as (D0 & _ & D2 & D3 & _ & D5).
  rewrite Hcur in D5.
  split; [exact idle_quiet|]. split; [exact idle_exact|].
  split; [exact HneB|]. split; [exact HneC|].
  split; [exact H1|]. split; [exact H2|]. split; [exact H3|].
  split; [exact H4|]. split; [exact (H5 145)|].
  split; [exact H7|]. split; [exact H8|].
  split; [exact H10|]. split; [exact H11|].
  split; [apply D5; lia|].
  rewrite <- (D5 ltac:(lia)).
  split; [exact D0|]. split; [exact D2 | exact D3].
Defined.

(** C1, as the specification words it, fails on the sample page, in three
    ways.  A request for [genesis] followed 10 ms later by a request for
    [introduction], still the current section, ends on [genesis]: the last
    request is dropped by the first guard.  A request for [genesis]
    followed 10 ms later by one for [evolution] leaves the timers of the
    first in the queue, and its show fires: 145 ms after the second request
    the page is on [genesis], with [genesis] marked active and pushed to
    the address.  And with three requests in a row (Ctrl+2 twice, then
    Escape) a removal of an abandoned transition does change the page: it
    ends with no section marked active. *)
Lemma abandoned_transition_takes_effect :
  let s2 := elapse 10 (navigateToChapter "genesis" Rest.idle) in
  let s3 := navigateToChapter "evolution" s2 in
  currentSection Rest.idle = "introduction" /\
  currentSection (settle (navigateToChapter "introduction" s2)) = "genesis" /\
  nav_timers (timers s3)
  = [ (1150, ShowChapter "genesis"); (1160, ShowChapter "evolution");
      (1300, RemoveActive 3); (1310, RemoveActive 3) ] /\
  currentSection (elapse 145 s3) = "genesis" /\
  active_sections (doc (elapse 145 s3)) = ["genesis"] /\
  head (history (elapse 145 s3)) = Some "#genesis" /\
  currentSection Rest.blank = "introduction" /\
  active_sections (doc Rest.blank) = [] /\
  timers Rest.blank = [].
Proof. vm_compute. repeat split; reflexivity. Qed.

(** * More of the script *)

(** ** Where requests of the input adapters end *)

Section Requests.

Implicit Types (s : state) (page : document).

Lemma lands_cosmetic X s s' : lands X s -> cosmetic_step s s' -> lands X s'.
Proof.
  intros Hl [[Hc _ Hh Hi _ Hn _] _]. unfold lands in *.
  rewrite <- (last_show_nav_timers (timers s')), Hn, last_show_nav_timers.
  by rewrite Hc, Hh, Hi.
Qed.

(** When no show is pending the current section is the same after every
    timer has fired. *)
Lemma settle_no_show s :
  last_show (timers s) = None ->
  currentSection (settle s) = currentSection s /\
  location_hash (settle s) = location_hash s.
Proof.
  intros Hn.
  apply (settle_keeps
           (fun s' => last_show (timers s') = None /\
                      currentSection s' = currentSection s /\
                      location_hash s' = location_hash s)); [|done].
  intros s' (Hl & Hc & Hh) Hne. unfold fire.
  destruct (timers s') as [|[e cb] q] eqn:Hq; [done|].
  set (p := with_clock _ _).
  assert (timers p = q /\ currentSection p = currentSection s' /\
          location_hash p = location_hash s') as (Hp & Hpc & Hph) by done.
  clearbody p.
  destruct (run_callback_queue cb p) as (_ & Hnav & _).
  simpl in Hl. destruct (last_show q) eqn:Hlq; [done|].
  split.
  - by rewrite <- last_show_nav_timers, Hnav, last_show_nav_timers, Hp.
  - assert (forall s0, frame_step p s0 ->
              currentSection s0 = currentSection p /\
              location_hash s0 = location_hash p) as Hframe
      by (intros s0 []; done).
    rewrite <- Hc, <- Hh, <- Hpc, <- Hph.
    destruct cb; try done;
      try (match goal with
           | |- context [run_callback ?cb p] =>
               apply Hframe, (cosmetic_run_callback cb p eq_refl)
           end).
Qed.

(** A request for an existing section, made anywhere on the page through
    the keyboard, ends on that section, unless it is dropped as a request
    for the current section while a show of another one is pending. *)
Lemma goes_to_lands page s ch :
  tidy page s -> is_Some (getElementById (doc s) ch) ->
  (currentSection s = ch -> last_show (timers s) = None) ->
  currentSection (settle (goes_to ch s)) = ch.
Proof.
  intros Ht Hex Hsame. unfold goes_to.
  destruct (decide (currentSection s = ch)) as [Heq|Hne].
  - assert (navigateToChapter ch s = s) as ->
      by (unfold navigateToChapter; by rewrite decide_True).
    destruct (cosmetic_markChapterLink ch s) as [[Hc _ _ _ _ Hn _] _].
    destruct (settle_no_show (markChapterLink ch s)) as [-> _]; [|congruence].
    rewrite <- last_show_nav_timers, Hn, last_show_nav_timers. auto.
  - assert (lands ch (settle (markChapterLink ch (navigateToChapter ch s))))
      as [Hl|(_ & Hc & _)]; [| |done].
    + apply settle_keeps; [intros; by apply lands_fire|].
      eapply lands_cosmetic; [|apply cosmetic_markChapterLink].
      by eapply lands_navigate.
    + by rewrite settle_quiescent in Hl.
Qed.

End Requests.

Section Shortcuts.

Implicit Types (s : state) (page : document).

Lemma tidy_goes_to page ch s : tidy page s -> tidy page (goes_to ch s).
Proof.
  intros Ht. unfold goes_to.
  eapply tidy_cosmetic; [|apply cosmetic_markChapterLink].
  by apply tidy_navigate.
Qed.

Lemma tidy_settle page s : tidy page s -> tidy page (settle s).
Proof. apply settle_keeps. intros s' H _. by apply tidy_fire. Qed.

(** Escape asks for the introduction, whatever the modifiers. *)
Lemma escape_handle e answer s :
  key e = "Escape" -> handle (KeyDown e answer) s = goes_to "introduction" s.
Proof.
  destruct e as [k m c]. simpl. intros ->.
  destruct m, c; reflexivity.
Qed.

Lemma digit_handle n m c answer s :
  1 <= n <= 9 ->
  handle (KeyDown (KeyEvent (digit_key n) m c) answer) s
  = if m || c
    then match chapters !! (n - 1) with
         | Some ch => goes_to ch s
         | None => s
         end
    else s.
Proof.
  intros Hn.
  assert (n = 1 \/ n = 2 \/ n = 3 \/ n = 4 \/ n = 5 \/ n = 6 \/ n = 7 \/
          n = 8 \/ n = 9) as Hc by lia.
  unfold handle, onSearchKey, onNavigationKey. cbn [key metaKey ctrlKey].
  destruct (m || c);
    repeat (destruct Hc as [->|Hc]; [reflexivity|]); subst; reflexivity.
Qed.

Lemma arrow_round_trip cur :
  cur ∈ chapters ->
  exists nxt, arrowTarget "ArrowRight" cur = Some nxt /\
              arrowTarget "ArrowLeft" nxt = Some cur /\ nxt <> cur /\
              nxt ∈ chapters.
Proof.
  unfold chapters. intros Hin.
  repeat (apply elem_of_cons in Hin as [->|Hin];
          [eexists; split; [reflexivity|]; split; [reflexivity|];
           split; [discriminate|];
           repeat (first [by left | right]) |]).
  by apply elem_of_nil in Hin.
Qed.

End Shortcuts.

(** X1. Escape returns to the introduction: in any state of the page, with
    any modifiers, the key asks for [introduction] and, once every timer
    has fired, [introduction] is the current section.  The one exception is
    read off the first guard: when [introduction] is still current while a
    show of another section is pending, the request is dropped. *)
Theorem escape_returns_home page hash (s : state) (e : key_event)
        (answer : option string) :
  reachable page hash s ->
  key e = "Escape" ->
  is_Some (getElementById (doc s) "introduction") ->
  (currentSection s = "introduction" -> last_show (timers s) = None) ->
  handle (KeyDown e answer) s = goes_to "introduction" s /\
  currentSection (settle (handle (KeyDown e answer) s)) = "introduction".
Proof.
  intros Hr Hk Hex Hsame. rewrite escape_handle by done. split; [done|].
  apply (goes_to_lands page); [by eapply reachable_tidy|done..].
Qed.

Lemma escape_returns_home_witness :
  let s := Rest.unhurried in
  let e := KeyEvent "Escape" false true in
  reachable Sample.page EmptyString s /\
  currentSection s = "genesis" /\
  currentSection (settle (handle (KeyDown e None) s)) = "introduction".
Proof.
  assert (reachable Sample.page EmptyString Rest.unhurried) as Hr.
  { apply calm_is_reachable, calm_elapse, calm_event;
      [apply idle_calm | apply idle_quiet]. }
  split; [exact Hr|]. split; [vm_compute; reflexivity|].
  refine (proj2 (escape_returns_home Sample.page EmptyString Rest.unhurried
                   (KeyEvent "Escape" false true) None Hr eq_refl _ _)).
  - vm_compute. eauto.
  - intros _. vm_compute. reflexivity.
Defined.

(** X2. The digit shortcuts: with Ctrl or Cmd held, the key of digit [n]
    between 1 and 9 asks for entry [n] of the catalog (counted from one)
    and, when that section exists, the page ends on it; without a modifier
    the key does nothing.  The tenth entry has no digit. *)
Theorem digit_shortcut page hash (s : state) (n : nat) (m c : bool)
        (answer : option string) (ch : string) :
  reachable page hash s ->
  1 <= n <= 9 ->
  chapters !! (n - 1) = Some ch ->
  is_Some (getElementById (doc s) ch) ->
  (currentSection s = ch -> last_show (timers s) = None) ->
  handle (KeyDown (KeyEvent (digit_key n) false false) answer) s = s /\
  (m || c = true ->
   handle (KeyDown (KeyEvent (digit_key n) m c) answer) s = goes_to ch s /\
   currentSection
     (settle (handle (KeyDown (KeyEvent (digit_key n) m c) answer) s)) = ch).
Proof.
  intros Hr Hn Hch Hex Hsame. rewrite !digit_handle by done.
  split; [done|]. intros ->. rewrite Hch. split; [done|].
  apply (goes_to_lands page); [by eapply reachable_tidy|done..].
Qed.

Lemma digit_shortcut_witness :
  let s := Rest.idle in
  let e := KeyEvent (digit_key 3) true false in
  chapters !! 2 = Some "evolution" /\
  handle (KeyDown (KeyEvent (digit_key 3) false false) None) s = s /\
  currentSection (settle (handle (KeyDown e None) s)) = "evolution".
Proof.
  assert (reachable Sample.page EmptyString Rest.idle) as Hr
    by apply calm_is_reachable, idle_calm.
  assert (is_Some (getElementById (doc Rest.idle) "evolution")) as Hex
    by (vm_compute; eauto).
  assert (currentSection Rest.idle = "evolution" ->
          last_show (timers Rest.idle) = None) as Hs
    by (intros _; vm_compute; reflexivity).
  destruct (digit_shortcut Sample.page EmptyString Rest.idle 3 true false
              None "evolution" Hr ltac:(lia) eq_refl Hex Hs) as [H1 H2].
  split; [reflexivity|]. split; [exact H1|]. exact (proj2 (H2 eq_refl)).
Defined.

(** X3. ArrowRight followed by ArrowLeft comes back: on a page that has
    every section of the catalog, from a catalog section with no show
    pending, pressing ArrowRight, letting the timers fire, and pressing
    ArrowLeft ends, once the timers have fired again, on the section the
    page started from; in between the page is on another section. *)
Theorem arrow_right_then_left page hash (s : state) :
  reachable page hash s ->
  currentSection s ∈ chapters ->
  (forall ch, ch ∈ chapters -> is_Some (getElementById page ch)) ->
  let s1 := settle (navigateWithArrowKeys "ArrowRight" s) in
  let s2 := settle (navigateWithArrowKeys "ArrowLeft" s1) in
  currentSection s1 <> currentSection s /\
  currentSection s2 = currentSection s.
Proof.
  intros Hr Hin Hall s1 s2.
  pose proof (reachable_tidy page hash s Hr) as Ht.
  destruct (arrow_round_trip _ Hin) as (nxt & Hright & Hleft & Hne & Hnxt).
  assert (forall s' ch, tidy page s' -> ch ∈ chapters ->
            is_Some (getElementById (doc s') ch)) as Hex.
  { intros s' ch Ht' Hch.
    rewrite (skel_getElementById (doc s') page) by apply Ht'. auto. }
  assert (navigateWithArrowKeys "ArrowRight" s = goes_to nxt s) as Hgo1
    by (unfold navigateWithArrowKeys; by rewrite Hright).
  assert (currentSection s1 = nxt) as Hc1.
  { subst s1. rewrite Hgo1. apply (goes_to_lands page); auto.
    intros Heq. congruence. }
  assert (tidy page s1) as Ht1.
  { subst s1. rewrite Hgo1. by apply tidy_settle, tidy_goes_to. }
  split; [congruence|].
  assert (navigateWithArrowKeys "ArrowLeft" s1
          = goes_to (currentSection s) s1) as Hgo2
    by (unfold navigateWithArrowKeys; by rewrite Hc1, Hleft).
  subst s2. rewrite Hgo2. apply (goes_to_lands page); auto.
  intros _. subst s1. by rewrite settle_quiescent.
Qed.

Lemma catalog_complete ch :
  ch ∈ chapters -> is_Some (getElementById Catalog.page ch).
Proof.
  unfold chapters. intros Hin.
  repeat (apply elem_of_cons in Hin as [->|Hin]; [vm_compute; eauto|]).
  by apply elem_of_nil in Hin.
Qed.

Lemma arrow_right_then_left_witness :
  let s := handle (KeyDown (Sample.mod_key "9") None) Catalog.idle in
  let s0 := elapse 1000 s in
  let s1 := settle (navigateWithArrowKeys "ArrowRight" s0) in
  let s2 := settle (navigateWithArrowKeys "ArrowLeft" s1) in
  currentSection s0 = "singularity" /\
  currentSection s1 <> currentSection s0 /\
  currentSection s2 = currentSection s0.
Proof.
  set (s0 := elapse 1000
               (handle (KeyDown (Sample.mod_key "9") None) Catalog.idle)).
  assert (reachable Catalog.page EmptyString s0) as Hr.
  { apply (reach_step _ _ _ (Elapse 1000)), reach_step.
    apply (reach_step _ _ _ (Elapse 1000)), reach_boot. }
  assert (currentSection s0 = "singularity") as Hc
    by (vm_compute; reflexivity).
  assert (currentSection s0 ∈ chapters) as Hin.
  { rewrite Hc. unfold chapters. do 8 right. left. }
  split; [exact Hc|].
  exact (arrow_right_then_left Catalog.page EmptyString s0 Hr Hin
           catalog_complete).
Defined.

(** ** The current section and the address *)

Section Anchored.

Implicit Types (s : state) (page : document).

Lemma anchored_reachable page hash s :
  is_Some (getElementById page "introduction") ->
  reachable page hash s -> tidy page s /\ anchored hash s.
Proof.
  intros Hintro. revert s. apply reachable_keeps.
  - intros ch s [Ht [Hc Hs Hu]]. split; [by apply tidy_navigate|].
    destruct (navigateToChapter_cases ch s) as [[_ ->]|(Hne & Hex & E)];
      [done|].
    destruct E as [Hcur _ Hh Hi Hk _ _ Hn]. specialize (Hn ltac:(apply Ht)).
    constructor.
    + rewrite Hcur.
      by rewrite (skel_getElementById (doc (navigateToChapter ch s)) (doc s)).
    + intros e x. rewrite Hn.
      rewrite (skel_getElementById (doc (navigateToChapter ch s)) (doc s))
        by done.
      intros [[= _ ->]|Hin]%elem_of_insert_timer; [done|].
      apply (Hs e). destruct (getElementById _ (currentSection s)); [|done].
      by apply elem_of_insert_timer in Hin as [?|?].
    + by rewrite Hcur, Hh, Hi.
  - intros s s' [Ht [Hc Hs Hu]] Hstep.
    split; [by eapply tidy_cosmetic|].
    destruct Hstep as [[Hcur _ Hh Hi Hk Hn _] _]. constructor.
    + by rewrite Hcur, (skel_getElementById (doc s') (doc s)).
    + intros e x. rewrite Hn, (skel_getElementById (doc s') (doc s)) by done.
      apply Hs.
    + by rewrite Hcur, Hh, Hi.
  - intros s [Ht [Hc Hs Hu]] Hne. split; [by apply tidy_fire|].
    unfold fire. destruct (timers s) as [|[e cb] q] eqn:Hq; [done|].
    set (p := with_clock _ _).
    assert (timers p = q /\ currentSection p = currentSection s /\
            location_hash p = location_hash s /\ history p = history s /\
            doc p = doc s) as (Hp & Hpc & Hph & Hpi & Hpd) by done.
    clearbody p.
    destruct (run_callback_queue cb p) as (_ & Hnav & _).
    assert (forall x, getElementById (doc (run_callback cb p)) x
                      = getElementById (doc s) x) as Hget.
    { intros x. apply skel_getElementById.
      by rewrite skel_run_callback, Hpd. }
    assert (forall e' x,
              (e', ShowChapter x) ∈ nav_timers (timers (run_callback cb p)) ->
              is_Some (getElementById (doc (run_callback cb p)) x)) as Hshows.
    { intros e' x. rewrite Hnav, Hp, Hget. intros Hin. apply (Hs e').
      simpl. destruct (is_nav (e, cb)); [by right|done]. }
    assert (forall s0, frame_step p s0 ->
              currentSection s0 = currentSection p /\
              location_hash s0 = location_hash p /\
              history s0 = history p) as Hframe
      by (intros s0 []; done).
    assert ((exists x, cb = ShowChapter x) \/ (forall x, cb <> ShowChapter x))
      as [[x ->]|Hother] by (destruct cb; eauto; right; intros; discriminate).
    + constructor; [|done|].
      * rewrite Hget. apply (Hs e). simpl. left.
      * right. done.
    + assert (currentSection (run_callback cb p) = currentSection s /\
              location_hash (run_callback cb p) = location_hash s /\
              history (run_callback cb p) = history s) as (H1 & H2 & H3).
      { rewrite <- Hpc, <- Hph, <- Hpi.
        destruct cb;
          try (match goal with
               | |- context [run_callback ?cb p] =>
                   apply Hframe, (cosmetic_run_callback cb p eq_refl)
               end).
        - apply Hframe, frame_RemoveActive.
        - by destruct (Hother chapter). }
      constructor; [|done|].
      * by rewrite H1, Hget.
      * by rewrite H1, H2, H3.
  - intros h s [Ht [Hc Hs Hu]] Hle. split; [by apply tidy_tick|done].
  - split; [apply tidy_construct|]. unfold construct.
    set (s0 := State "introduction" page hash [] 0 0 [] 0 [] 0).
    destruct (frame_showSection "introduction" s0)
      as [Hcur _ Hh Hi Hk Hn _].
    constructor.
    + rewrite Hcur.
      by rewrite (skel_getElementById (doc (showSection "introduction" s0))
                    page).
    + intros e x. rewrite Hn. simpl. by intros ?%elem_of_nil.
    + left. by rewrite Hcur, Hh, Hi.
Qed.

End Anchored.

(** X4. The current section always names an element of the document: on a
    page that has the introduction, in every state that any sequence of
    events leads to, [getElementById] finds [currentSection]; in
    particular it is never the empty identifier.  The same holds for the
    target of every pending show. *)
Theorem current_section_exists page hash (s : state) :
  is_Some (getElementById page "introduction") ->
  reachable page hash s ->
  is_Some (getElementById (doc s) (currentSection s)) /\
  currentSection s <> EmptyString /\
  (forall e x, (e, ShowChapter x) ∈ timers s ->
               is_Some (getElementById (doc s) x)).
Proof.
  intros Hintro Hr.
  destruct (anchored_reachable page hash s Hintro Hr) as [_ [Hc Hs _]].
  split; [done|]. split.
  - destruct Hc as [i Hi]. by apply getElementById_Some in Hi as [? _].
  - intros e x Hin. apply (Hs e). by apply elem_of_nav_timers.
Qed.

Lemma current_section_exists_witness :
  is_Some (getElementById (doc Rest.blank) (currentSection Rest.blank)) /\
  currentSection Rest.blank <> EmptyString.
Proof.
  assert (reachable Sample.page EmptyString Rest.blank) as Hr.
  { apply reachable_play, calm_is_reachable, idle_calm. }
  destruct (current_section_exists Sample.page EmptyString Rest.blank
              sample_has_introduction Hr) as (H1 & H2 & _).
  split; [exact H1 | exact H2].
Defined.



(** ** The address the page is opened with *)

(** X6. A fragment in the address opens its section only through the menu:
    when the page is loaded with fragment [X], an existing section, and the
    menu has an entry for [X], the page ends on [X], with [X] in the
    address; when the menu has no entry for [X] the fragment is ignored and
    the page stays on the introduction, although the section exists. *)
Theorem deep_link page (X : string) :
  is_Some (getElementById page X) ->
  let s := settle (boot page (String "#" X)) in
  (is_Some (queryChapterLink page X) ->
   currentSection s = X /\ fragment s = X) /\
  (queryChapterLink page X = None ->
   currentSection s = "introduction").
Proof.
  intros Hex s.
  set (hash := String "#" X) in *.
  pose proof (tidy_construct page hash) as Ht.
  set (s0 := construct page hash) in *.
  assert (location_hash s0 = hash /\ currentSection s0 = "introduction" /\
          last_show (timers s0) = None) as (Hh0 & Hc0 & Hl0).
  { subst s0. unfold construct.
    destruct (frame_showSection "introduction"
                (State "introduction" page hash [] 0 0 [] 0 [] 0))
      as [Hcur _ Hh _ _ Hn _].
    rewrite Hcur, Hh. split; [done|]. split; [done|].
    by rewrite <- last_show_nav_timers, Hn. }
  assert (X <> EmptyString) as HX.
  { destruct Hex as [i Hi]. by apply getElementById_Some in Hi as [? _]. }
  assert (fragment s0 = X) as Hf0 by (unfold fragment; by rewrite Hh0).
  assert (queryChapterLink (doc s0) X = queryChapterLink page X) as Hq
    by (apply skel_find_link, Ht).
  assert (is_Some (getElementById (doc s0) X)) as Hex0
    by (by rewrite (skel_getElementById (doc s0) page) by apply Ht).
  assert (boot page hash
          = match queryChapterLink page X with
            | Some l => updateActiveNav l (navigateToChapter X s0)
            | None => s0
            end) as Hboot.
  { unfold boot. fold s0. rewrite Hf0, Hq. by rewrite decide_False. }
  split.
  - intros [l Hl]. subst s. rewrite Hboot, Hl.
    assert (cosmetic_step (navigateToChapter X s0)
              (updateActiveNav l (navigateToChapter X s0))) as Hcos.
    { apply cosmetic_updateActiveNav.
      eapply link_at_skel; [symmetry; apply skel_navigateToChapter|].
      eapply link_at_skel; [symmetry; apply Ht|].
      by eapply queryChapterLink_link_at. }
    destruct (decide (currentSection s0 = X)) as [Heq|Hne].
    + assert (navigateToChapter X s0 = s0) as Hnoop
        by (unfold navigateToChapter; by rewrite decide_True).
      rewrite Hnoop in *.
      destruct Hcos as [[Hc _ Hh _ _ Hn _] _].
      destruct (settle_no_show (updateActiveNav l s0)) as [-> Hh'].
      { by rewrite <- last_show_nav_timers, Hn, last_show_nav_timers. }
      split; [congruence|]. unfold fragment. by rewrite Hh', Hh, Hh0.
    + assert (lands X (settle (updateActiveNav l (navigateToChapter X s0))))
        as [Hlast|(_ & Hc & Hh & _)].
      { apply settle_keeps; [intros; by apply lands_fire|].
        eapply lands_cosmetic; [|exact Hcos]. by eapply lands_navigate. }
      * by rewrite settle_quiescent in Hlast.
      * split; [done|]. unfold fragment. by rewrite Hh.
  - intros Hnone. subst s. rewrite Hboot, Hnone.
    destruct (settle_no_show s0 Hl0) as [-> _]. done.
Qed.

Lemma deep_link_witness :
  is_Some (getElementById Manual.page "appendix") /\
  is_Some (queryChapterLink Manual.page "appendix") /\
  currentSection (settle (boot Manual.page "#appendix")) = "appendix" /\
  is_Some (getElementById (Sample.page ++ [Sample.section "notes" "n" false])
             "notes") /\
  currentSection
    (settle (boot (Sample.page ++ [Sample.section "notes" "n" false])
               "#notes")) = "introduction".
Proof.
  assert (is_Some (getElementById Manual.page "appendix")) as H1
    by (vm_compute; eauto).
  assert (is_Some (queryChapterLink Manual.page "appendix")) as H2
    by (vm_compute; eauto).
  assert (is_Some (getElementById
                     (Sample.page ++ [Sample.section "notes" "n" false])
                     "notes")) as H3 by (vm_compute; eauto).
  split; [exact H1|]. split; [exact H2|]. split.
  - exact (proj1 (proj1 (deep_link Manual.page "appendix" H1) H2)).
  - split; [exact H3|].
    exact (proj2 (deep_link _ "notes" H3) eq_refl).
Defined.

(** ** Where a search ends *)

Section SearchEnds.

Implicit Types (s : state) (d page : document).

Lemma last_show_navigate page X s :
  tidy page s -> currentSection s <> X ->
  is_Some (getElementById (doc s) X) ->
  last_show (timers (navigateToChapter X s)) = Some X.
Proof.
  intros [_ Ho Hb] Hne [n Hn].
  destruct (navigateToChapter_cases X s) as [[[?|?] _]|(_ & _ & E)];
    [done | congruence |].
  destruct E as [_ _ _ _ _ _ _ Hnav].
  rewrite <- last_show_nav_timers, Hnav by done.
  apply last_show_insert_last.
  - destruct (getElementById _ (currentSection s));
      [apply insert_timer_in_order|]; by apply nav_timers_in_order.
  - intros e x Hin.
    assert ((e, ShowChapter x) ∈ nav_timers (timers s)) as Hin'.
    { destruct (getElementById _ (currentSection s)); [|done].
      apply elem_of_insert_timer in Hin as [?|?]; [done|done]. }
    apply (Hb e (ShowChapter x) Hin').
Qed.

Lemma last_show_cosmetic s s' :
  cosmetic_step s s' -> last_show (timers s') = last_show (timers s).
Proof.
  intros [[_ _ _ _ _ Hn _] _].
  by rewrite <- last_show_nav_timers, Hn, last_show_nav_timers.
Qed.

(** One request of the search, from section [cur]: it counts when the id
    is another section's. *)
Lemma search_request page term k id s :
  tidy page s ->
  (id <> EmptyString -> is_Some (getElementById (doc s) id)) ->
  let s1 := setTimeout 500 (Highlight k term)
              (markChapterLink id (navigateToChapter id s)) in
  tidy page s1 /\ currentSection s1 = currentSection s /\
  skel (doc s1) = skel (doc s) /\
  last_show (timers s1)
  = if decide (id <> currentSection s /\ id <> EmptyString)
    then Some id else last_show (timers s).
Proof.
  intros Ht Hex s1.
  assert (cosmetic_step (navigateToChapter id s) s1) as Hcos.
  { eapply cosmetic_trans; [apply cosmetic_markChapterLink|].
    by apply cosmetic_setTimeout. }
  pose proof (tidy_navigate page id s Ht) as Ht1.
  split; [by eapply tidy_cosmetic|].
  rewrite (last_show_cosmetic _ _ Hcos).
  destruct Hcos as [[Hc _ _ _ Hk _ _] _]. rewrite Hc, Hk.
  rewrite skel_navigateToChapter.
  destruct (navigateToChapter_cases id s) as [[Hwhy Heq]|(Hne & Hsome & E)].
  - rewrite Heq. split; [done|]. split; [done|].
    rewrite decide_False; [done|]. intros [Hne Hid].
    destruct Hwhy as [?|Hnone]; [done|].
    destruct (Hex Hid) as [? ?]. congruence.
  - destruct E as [Hcur _ _ _ _ _ _ _]. split; [done|]. split; [done|].
    rewrite decide_True.
    + apply (last_show_navigate page); [done|done|done].
    + split; [done|]. destruct Hsome as [i Hi].
      by apply getElementById_Some in Hi as [? _].
Qed.

Lemma destinations_cons term cur e d :
  destinations term cur (e :: d)
  = if el_section e && Str.includes term (Str.toLowerCase (el_text e))
    then if decide (el_id e <> cur /\ el_id e <> EmptyString)
         then el_id e :: destinations term cur d
         else destinations term cur d
    else destinations term cur d.
Proof.
  unfold destinations, matches. csimpl.
  destruct (_ && _); [|done]. csimpl. rewrite filter_cons.
  by destruct (decide _).
Qed.

Lemma search_visit_at term s b k e :
  doc s !! k = Some e ->
  search_visit term (s, b) k
  = if Str.includes term (Str.toLowerCase (el_text e))
    then (setTimeout 500 (Highlight k term)
            (markChapterLink (el_id e) (navigateToChapter (el_id e) s)),
          true)
    else (s, b).
Proof. intros He. unfold search_visit. by rewrite He. Qed.

(** The loop of [performSearch] over the sections from handle [k] on:
    the last request that counts decides the last pending show. *)
Lemma search_loop_last page term d : forall k s b,
  tidy page s -> skel (drop k (doc s)) = skel d ->
  tidy page
    (foldl (search_visit term) (s, b) (select_from el_section k d)).1 /\
  currentSection
    (foldl (search_visit term) (s, b) (select_from el_section k d)).1
  = currentSection s /\
  last_show
    (timers (foldl (search_visit term) (s, b) (select_from el_section k d)).1)
  = match last (destinations term (currentSection s) d) with
    | Some X => Some X
    | None => last_show (timers s)
    end.
Proof.
  induction d as [|e d IH]; intros k s b Ht Hk; [done|].
  assert (exists e', doc s !! k = Some e' /\ skeleton e' = skeleton e /\
                     skel (drop (S k) (doc s)) = skel d)
    as (e' & He' & Hke & Hrest).
  { destruct (drop k (doc s)) as [|e' rest] eqn:Hd; [done|].
    assert (doc s !! k = Some e') as He'.
    { rewrite <- (Nat.add_0_r k), <- lookup_drop, Hd. done. }
    exists e'. split; [done|].
    rewrite (drop_S _ _ _ He') in Hd. unfold skel in *. simplify_eq/=.
    split; [|done]. unfold skeleton. congruence. }
  apply skeleton_eq in Hke as (Hid & Hsec & _ & Htext & _).
  rewrite destinations_cons. cbn [select_from].
  destruct (el_section e) eqn:Hs; [|by apply IH].
  cbn [foldl andb]. rewrite (search_visit_at term s b k e' He'), Htext.
  destruct (Str.includes term (Str.toLowerCase (el_text e))) eqn:Hinc;
    [|by apply IH].
  destruct (search_request page term k (el_id e') s Ht)
    as (Ht1 & Hc1 & Hk1 & Hl1).
  { intros Hne.
    apply (getElementById_is_Some _ _ e'); [|done..].
    by eapply list_elem_of_lookup_2. }
  set (s1 := setTimeout 500 _ _) in *.
  destruct (IH (S k) s1 true Ht1) as (Htr & Hcr & Hlr).
  { unfold skel in *. rewrite fmap_drop in *. by rewrite Hk1. }
  split; [done|]. split; [congruence|].
  rewrite Hlr, Hc1, Hl1, <- Hid.
  destruct (decide (el_id e' <> currentSection s /\ el_id e' <> EmptyString));
    [|done].
  rewrite last_cons.
  by destruct (last (destinations term (currentSection s) d)).
Qed.

End SearchEnds.

(** X7. A search ends on the last match, not on the first.  In any state
    of the page, among the content sections whose text includes the term
    take those that carry an id other than the current section, in
    document order: when there is one, a request is made for each, and once
    every timer has fired the page is on the last of them, with its id in
    the address. *)
Theorem search_ends_on_last_match page hash (term : string) (s : state)
        (X : string) :
  reachable page hash s ->
  last (destinations term (currentSection s) (doc s)) = Some X ->
  currentSection (settle (performSearch term s)) = X /\
  fragment (settle (performSearch term s)) = X.
Proof.
  intros Hr HX. apply lands_settle. left.
  pose proof (reachable_tidy page hash s Hr) as Ht.
  destruct (search_loop_last page term (doc s) 0 s false Ht eq_refl)
    as (_ & _ & Hl).
  rewrite HX in Hl. unfold performSearch, contentSections.
  destruct (foldl _ _ _) as [s' found]. simpl in Hl.
  destruct found; [done|].
  by rewrite (last_show_cosmetic _ _ (cosmetic_showNotification _ _ s')).
Qed.

Lemma search_ends_on_last_match_witness :
  destinations "bar" (currentSection Rest.idle) (doc Rest.idle)
  = ["genesis"; "evolution"] /\
  currentSection (settle (performSearch "bar" Rest.idle)) = "evolution" /\
  destinations "o" (currentSection Rest.idle) (doc Rest.idle)
  = ["genesis"] /\
  currentSection (settle (performSearch "o" Rest.idle)) = "genesis".
Proof.
  assert (last (destinations "bar" (currentSection Rest.idle) (doc Rest.idle))
          = Some "evolution") as H1 by (vm_compute; reflexivity).
  assert (last (destinations "o" (currentSection Rest.idle) (doc Rest.idle))
          = Some "genesis") as H2 by (vm_compute; reflexivity).
  split; [vm_compute; reflexivity|]. split.
  - exact (proj1 (search_ends_on_last_match Sample.page EmptyString "bar"
                    Rest.idle "evolution" idle_reachable H1)).
  - split; [vm_compute; reflexivity|].
    exact (proj1 (search_ends_on_last_match Sample.page EmptyString "o"
                    Rest.idle "genesis" idle_reachable H2)).
Defined.

(** ** The search prompt *)

Section Prompt.

Lemma trim_start_ws q : all_ws q = true -> Str.trim_start q = EmptyString.
Proof.
  induction q as [|c q IH]; [done|]. simpl.
  intros [-> Hq]%andb_true_iff. auto.
Qed.

Lemma trim_start_not_ws q :
  all_ws q = false -> all_ws (Str.trim_start q) = false.
Proof.
  induction q as [|c q IH]; [done|]. simpl.
  destruct (Str.is_ws c) eqn:Hc; simpl; [done|]. by rewrite Hc.
Qed.

Lemma trim_end_not_ws q :
  all_ws q = false -> Str.trim_end q <> EmptyString.
Proof.
  induction q as [|c q IH]; [done|]. simpl.
  destruct (Str.trim_end q) eqn:Hq.
  - destruct (Str.is_ws c); [|done]. simpl. auto.
  - done.
Qed.

Lemma trim_empty q : Str.trim q = EmptyString <-> all_ws q = true.
Proof.
  unfold Str.trim. split.
  - intros Ht. destruct (all_ws q) eqn:Hq; [done|].
    by destruct (trim_end_not_ws _ (trim_start_not_ws q Hq)).
  - intros Hq. by rewrite trim_start_ws.
Qed.

End Prompt.

(** X8. The search prompt: a cancelled prompt and an answer made of white
    space only (the empty answer included) change nothing, not even a
    notification is shown; any other answer is searched for with the white
    space at both ends removed and in lower case. *)
Theorem search_prompt (answer : option string) (s : state) :
  match answer with
  | None => showSearchDialog answer s = s
  | Some q =>
      if all_ws q then showSearchDialog answer s = s
      else Str.trim q <> EmptyString /\
           showSearchDialog answer s
           = performSearch (Str.toLowerCase (Str.trim q)) s
  end.
Proof.
  destruct answer as [q|]; [|done].
  destruct (all_ws q) eqn:Hq.
  - unfold showSearchDialog. case_decide; [done|].
    by rewrite decide_True by (by apply trim_empty).
  - assert (Str.trim q <> EmptyString) as Hne.
    { intros Ht%trim_empty. congruence. }
    split; [done|]. unfold showSearchDialog.
    rewrite decide_False by (by intros ->).
    by rewrite decide_False.
Qed.

(** ** The menu *)

Section Menu.

Implicit Types (s : state) (d : document).

Lemma unlink_inactive e :
  is_link (unlink e) && el_active (unlink e) = false.
Proof.
  unfold unlink. destruct (is_link e) eqn:Hl.
  - simpl. apply andb_false_r.
  - by rewrite Hl.
Qed.

Lemma select_unlinked k d :
  select_from (fun e => is_link e && el_active e) k (unlink <$> d) = [].
Proof.
  revert k. induction d as [|e d IH]; intros k; [done|]. csimpl.
  by rewrite IH, unlink_inactive.
Qed.

(** After the menu has been cleared and one entry marked, that entry is
    the one active entry. *)
Lemma select_marked (f : element -> element) k l d e :
  d !! l = Some e -> is_link e = true ->
  (forall x, is_link (f x) = is_link x /\ el_active (f x) = true) ->
  select_from (fun e => is_link e && el_active e) k (alter f l (unlink <$> d))
  = [k + l].
Proof.
  intros He Hl Hf. revert k l He.
  induction d as [|x d IH]; intros k [|l] He; simplify_eq/=.
  - rewrite select_unlinked.
    destruct (Hf (unlink e)) as [-> ->].
    assert (is_link (unlink e) = true) as ->
      by (unfold unlink; by rewrite Hl).
    by rewrite Nat.add_0_r.
  - rewrite (IH (S k) l He), unlink_inactive.
    by replace (S k + l) with (k + S l) by lia.
Qed.

Lemma active_links_updateActiveNav l s e :
  doc s !! l = Some e -> is_link e = true ->
  active_links (doc (updateActiveNav l s)) = [l].
Proof.
  intros He Hl. unfold updateActiveNav, active_links. simpl.
  by rewrite (select_marked _ 0 l (doc s) e).
Qed.

End Menu.

(** X9. A click on a menu entry marks that entry, and no other, active,
    whether or not the request for its chapter goes through.  When the
    chapter of the entry names no element of the document the request is
    dropped: the current section and the timers of navigations are those
    of before, and the entry is marked active all the same, so that the
    menu and the content disagree. *)
Theorem click_marks_entry (s : state) (l : nat) (e : element)
        (ch : string) :
  doc s !! l = Some e -> el_link e = Some ch ->
  let s' := onLinkClick l s in
  active_links (doc s') = [l] /\
  currentSection s' = currentSection s /\
  (getElementById (doc s) ch = None ->
   s' = updateActiveNav l s /\
   nav_timers (timers s') = nav_timers (timers s)).
Proof.
  intros He Hl s'.
  assert (s' = updateActiveNav l (navigateToChapter ch s)) as ->
    by (unfold s', onLinkClick; by rewrite He, Hl).
  assert (is_link e = true) as Hlink by (unfold is_link; by rewrite Hl).
  destruct (skel_lookup (doc s) (doc (navigateToChapter ch s)) l e)
    as (e1 & He1 & Hk1); [symmetry; apply skel_navigateToChapter | done |].
  apply skeleton_eq in Hk1 as (_ & _ & Hl1 & _).
  assert (is_link e1 = true) as Hlink1
    by (unfold is_link in *; by rewrite Hl1).
  split; [by eapply active_links_updateActiveNav|]. split.
  - destruct (navigateToChapter_cases ch s) as [[_ ->]|(_ & _ & [])]; done.
  - intros Hnone.
    assert (navigateToChapter ch s = s) as ->.
    { unfold navigateToChapter. case_decide; [done|]. by rewrite Hnone. }
    split; [done|].
    apply (cosmetic_updateActiveNav l s). intros x Hx.
    assert (x = e) as -> by congruence. done.
Qed.

Lemma click_marks_entry_witness :
  let dangling := Sample.page ++ [Sample.link "credits" false] in
  let s := elapse 1000 (boot dangling EmptyString) in
  active_links (doc s) = [0] /\
  getElementById (doc s) "credits" = None /\
  active_links (doc (onLinkClick 6 s)) = [6] /\
  currentSection (onLinkClick 6 s) = "introduction" /\
  nav_timers (timers (onLinkClick 6 s)) = [] /\
  active_links (doc (onLinkClick 1 Rest.idle)) = [1].
Proof.
  cbv zeta.
  set (s := elapse 1000
              (boot (Sample.page ++ [Sample.link "credits" false])
                 EmptyString)).
  assert (getElementById (doc s) "credits" = None) as Hnone
    by (vm_compute; reflexivity).
  destruct (click_marks_entry s 6 (Sample.link "credits" false) "credits"
              ltac:(vm_compute; reflexivity) eq_refl) as (H1 & H2 & H3).
  destruct (H3 Hnone) as [_ H4].
  destruct (click_marks_entry Rest.idle 1 (Sample.link "genesis" false)
              "genesis" ltac:(vm_compute; reflexivity) eq_refl)
    as (H5 & _).
  split; [vm_compute; reflexivity|]. split; [exact Hnone|].
  split; [exact H1|]. split; [rewrite H2; vm_compute; reflexivity|].
  split; [rewrite H4; vm_compute; reflexivity | exact H5].
Defined.

(** ** Notifications go away *)

Section Notifications.

Implicit Types (s : state).

Lemma grows_refl s : grows s s.
Proof. by constructor. Qed.

Lemma grows_trans s1 s2 s3 : grows s1 s2 -> grows s2 s3 -> grows s1 s3.
Proof. intros [H1 H2] [H3 H4]. constructor; [congruence|auto]. Qed.

Lemma grows_setTimeout delay cb s : grows s (setTimeout delay cb s).
Proof.
  constructor; [done|]. intros t Ht. simpl.
  apply elem_of_insert_timer. by right.
Qed.

Lemma grows_animateSection i s : grows s (animateSection i s).
Proof.
  unfold animateSection. destruct (doc s !! i) as [e|]; [|apply grows_refl].
  set (s1 := with_doc _ s). assert (grows s s1) as H1 by (by constructor).
  clearbody s1. revert s1 H1.
  induction (seq 0 (length (el_cards e))) as [|k l IH]; intros s1 H1; [done|].
  cbn [foldl]. apply IH.
  eapply grows_trans; [exact H1 | apply grows_setTimeout].
Qed.

Lemma grows_showSection id s : grows s (showSection id s).
Proof.
  unfold showSection. destruct (getElementById _ id); [|by constructor].
  eapply grows_trans; [|apply grows_animateSection]. by constructor.
Qed.

Lemma grows_navigateToChapter ch s : grows s (navigateToChapter ch s).
Proof.
  unfold navigateToChapter. case_decide; [apply grows_refl|].
  destruct (getElementById (doc s) ch); [|apply grows_refl].
  eapply grows_trans; [|apply grows_setTimeout].
  destruct (getElementById (doc s) (currentSection s)); [|apply grows_refl].
  eapply grows_trans; [|apply grows_setTimeout]. by constructor.
Qed.

Lemma grows_updateActiveNav l s : grows s (updateActiveNav l s).
Proof.
  unfold updateActiveNav.
  eapply grows_trans; [|apply grows_setTimeout]. by constructor.
Qed.

Lemma grows_goes_to ch s : grows s (goes_to ch s).
Proof.
  unfold goes_to, markChapterLink.
  eapply grows_trans; [apply grows_navigateToChapter|].
  destruct (queryChapterLink _ ch);
    [apply grows_updateActiveNav | apply grows_refl].
Qed.

Lemma grows_search_loop term l s b :
  grows s (foldl (search_visit term) (s, b) l).1.
Proof.
  revert s b. induction l as [|i l IH]; intros s b; [apply grows_refl|].
  cbn [foldl].
  assert (grows s (search_visit term (s, b) i).1) as H1.
  { unfold search_visit. destruct (doc s !! i) as [e|]; [|apply grows_refl].
    destruct (Str.includes _ _); [|apply grows_refl]. simpl.
    eapply grows_trans; [apply (grows_goes_to (el_id e))|].
    apply grows_setTimeout. }
  destruct (search_visit term (s, b) i) as [s1 b1].
  eapply grows_trans; [exact H1 | apply IH].
Qed.

Lemma attended_grows s s' : attended s -> grows s s' -> attended s'.
Proof.
  intros Ha [Ht Hq] t. rewrite Ht. intros Hin.
  destruct (Ha t Hin) as [e [H|H]]; exists e; auto.
Qed.

Lemma attended_showNotification message type s :
  attended s -> attended (showNotification message type s).
Proof.
  intros Ha t. unfold showNotification. simpl.
  intros [Hin| ->%list_elem_of_singleton]%elem_of_app.
  - destruct (Ha t Hin) as [e [H|H]]; exists e; [left|right];
      by do 2 (apply elem_of_insert_timer; right).
  - exists (clock s + 3000). left. simpl.
    apply elem_of_insert_timer. by left.
Qed.

Lemma attended_showSearchDialog answer s :
  attended s -> attended (showSearchDialog answer s).
Proof.
  intros Ha. unfold showSearchDialog. destruct answer as [q|]; [|done].
  repeat case_decide; try done. unfold performSearch.
  pose proof (grows_search_loop (Str.toLowerCase (Str.trim q))
                (contentSections (doc s)) s false) as Hg.
  destruct (foldl _ _ _) as [s' found]. simpl in Hg.
  pose proof (attended_grows _ _ Ha Hg).
  destruct found; [done|]. by apply attended_showNotification.
Qed.

Lemma attended_onNavigationKey e s :
  attended s -> attended (onNavigationKey e s).
Proof.
  intros Ha. eapply attended_grows; [exact Ha|]. unfold onNavigationKey.
  set (s1 := if (_ && _ && _) then _ else s).
  assert (grows s s1) as H1.
  { subst s1. destruct (_ && _ && _); [|apply grows_refl].
    destruct (chapters !! _); [apply grows_goes_to | apply grows_refl]. }
  clearbody s1.
  set (s2 := if decide (_ \/ _) then _ else s1).
  assert (grows s1 s2) as H2.
  { subst s2. case_decide; [|apply grows_refl].
    unfold navigateWithArrowKeys.
    destruct (arrowTarget _ _); [apply grows_goes_to | apply grows_refl]. }
  clearbody s2.
  eapply grows_trans; [exact H1|]. eapply grows_trans; [exact H2|].
  case_decide; [apply grows_goes_to | apply grows_refl].
Qed.

Lemma attended_handle ev s :
  (forall d, ev <> Elapse d) -> attended s -> attended (handle ev s).
Proof.
  destruct ev; intros Hev Ha; simpl.
  - eapply attended_grows; [exact Ha|]. unfold onLinkClick.
    destruct (doc s !! link) as [e|]; [|apply grows_refl].
    destruct (el_link e); [|apply grows_refl].
    eapply grows_trans;
      [apply grows_navigateToChapter | apply grows_updateActiveNav].
  - unfold onSearchKey. destruct (_ && _).
    + by apply attended_showSearchDialog, attended_onNavigationKey.
    + by apply attended_onNavigationKey.
  - by apply attended_showSearchDialog.
  - by apply attended_showNotification.
  - done.
  - by destruct (Hev d).
Qed.

Lemma elem_of_alter_toast f id l t :
  t ∈ alter_toast f id l ->
  (forall x, toast_id (f x) = toast_id x) ->
  exists t0, t0 ∈ l /\ toast_id t = toast_id t0.
Proof.
  unfold alter_toast. intros (t0 & -> & Hin)%list_elem_of_fmap Hf.
  exists t0. split; [done|]. by case_decide.
Qed.

Lemma attended_fire s : attended s -> attended (fire s).
Proof.
  intros Ha. unfold fire.
  destruct (timers s) as [|[e cb] q] eqn:Hq; [done|].
  set (p := with_clock _ _).
  assert (toasts p = toasts s /\ timers p = q) as [Hpt Hpq] by done.
  assert (forall t, t ∈ toasts p ->
            exists e', (e', ToastOut (toast_id t)) ∈ (e, cb) :: timers p \/
                       (e', ToastRemove (toast_id t)) ∈ (e, cb) :: timers p)
    as Hp.
  { intros t. rewrite Hpt, Hpq. intros Hin.
    destruct (Ha t Hin) as [e' H]. rewrite Hq in H. eauto. }
  clearbody p. clear Ha Hq Hpt Hpq.
  assert (forall s', grows p s' ->
            (forall id, cb <> ToastOut id) ->
            (forall id, cb <> ToastRemove id) -> attended s') as Hother.
  { intros s' [Ht Hg] Hno Hnr t. rewrite Ht. intros Hin.
    destruct (Hp t Hin) as [e' [H|H]]; exists e';
      apply elem_of_cons in H as [[= _ <-]|H]; auto.
    - by destruct (Hno (toast_id t)).
    - by destruct (Hnr (toast_id t)). }
  destruct cb; cbn [run_callback].
  - apply Hother; [by constructor|discriminate..].
  - apply Hother; [|discriminate..]. unfold pushState, playTransitionSound.
    eapply grows_trans; [apply (grows_showSection chapter)|]. by constructor.
  - apply Hother; [by constructor|discriminate..].
  - apply Hother; [|discriminate..]. unfold highlightText.
    eapply grows_trans; [|apply grows_setTimeout]. by constructor.
  - apply Hother; [by constructor|discriminate..].
  - apply Hother; [by constructor|discriminate..].
  - intros t Hin. simpl in Hin.
    apply elem_of_alter_toast in Hin as (t0 & Hin & ->); [|done].
    destruct (Hp t0 Hin) as [e' [H|H]]; exists e';
      apply elem_of_cons in H as [[=]|H]; auto.
  - intros t Hin. simpl in Hin.
    apply elem_of_alter_toast in Hin as (t0 & Hin & ->); [|done].
    destruct (Hp t0 Hin) as [e' [H|H]].
    + apply elem_of_cons in H as [[= _ <-]|H].
      * exists (clock p + 300). right. simpl.
        apply elem_of_insert_timer. by left.
      * exists e'. left. simpl. apply elem_of_insert_timer. by right.
    + apply elem_of_cons in H as [[=]|H].
      exists e'. right. simpl. apply elem_of_insert_timer. by right.
  - intros t Hin. simpl in Hin.
    apply list_elem_of_filter in Hin as [Hne Hin].
    destruct (Hp t Hin) as [e' [H|H]]; exists e';
      apply elem_of_cons in H as [[=]|H]; auto.
    congruence.
Qed.

Lemma attended_boot page hash : attended (boot page hash).
Proof.
  assert (attended (construct page hash)) as Hc.
  { eapply attended_grows; [|apply grows_showSection].
    intros t Hin. by apply elem_of_nil in Hin. }
  unfold boot. case_decide; [done|].
  destruct (queryChapterLink _ _); [|done].
  eapply attended_grows; [exact Hc|].
  eapply grows_trans;
    [apply grows_navigateToChapter | apply grows_updateActiveNav].
Qed.

Lemma reachable_attended page hash s : reachable page hash s -> attended s.
Proof.
  induction 1 as [|s ev _ IH]; [apply attended_boot|].
  destruct ev; try (apply attended_handle; [discriminate|done]).
  simpl. apply elapse_keeps; [|done|done].
  intros s' H _. by apply attended_fire.
Qed.

End Notifications.

(** X10. Notifications are transient: in any state of the page, every
    notification that is attached has the timer of its dismissal pending,
    and once every timer has fired no notification is left. *)
Theorem notifications_go_away page hash (s : state) :
  reachable page hash s ->
  attended s /\ toasts (settle s) = [].
Proof.
  intros Hr. pose proof (reachable_attended page hash s Hr) as Ha.
  split; [done|].
  assert (attended (settle s)) as Hs.
  { apply settle_keeps; [|done]. intros s' H _. by apply attended_fire. }
  destruct (toasts (settle s)) as [|t l] eqn:Ht; [done|].
  destruct (Hs t) as [e [H|H]]; [rewrite Ht; left|..];
    rewrite settle_quiescent in H; by apply elem_of_nil in H.
Qed.

Lemma notifications_go_away_witness :
  let s := handle (Notify "Window minimized" "info")
             (performSearch "zzz" Rest.idle) in
  length (toasts s) = 2 /\
  toasts (elapse 3299 s) <> [] /\
  toasts (settle s) = [].
Proof.
  assert (reachable Sample.page EmptyString
            (handle (Notify "Window minimized" "info")
               (performSearch "zzz" Rest.idle))) as Hr.
  { apply reach_step.
    apply (reach_step _ _ _ (SearchIcon (Some "zzz"))), idle_reachable. }
  split; [vm_compute; reflexivity|]. split; [vm_compute; discriminate|].
  exact (proj2 (notifications_go_away Sample.page EmptyString _ Hr)).
Defined.

(** ** The key-sequence surprise *)

Section Surprise.

Import Konami.

Lemma slice_last_push n l k :
  0 < n ->
  let pushed := slice_last n l ++ [k] in
  (if (n <? length pushed)%nat then slice_last n pushed else pushed)
  = slice_last n (l ++ [k]).
Proof.
  intros Hn pushed. subst pushed. unfold slice_last.
  rewrite !length_app, length_drop. simpl.
  destruct (Nat.ltb_spec n (length l - (length l - n) + 1)) as [Hlt|Hle].
  - rewrite drop_app_le by (rewrite length_drop; lia).
    rewrite drop_drop.
    rewrite (drop_app_le l) by lia.
    f_equal. f_equal. lia.
  - replace (length l - n) with 0 by lia.
    replace (length l + 1 - n) with 0 by lia. done.
Qed.

Lemma buffer_after_snoc ks k :
  buffer_after (ks ++ [k]) = (press (buffer_after ks) k).1.
Proof. unfold buffer_after. by rewrite foldl_app. Qed.

(** The buffer holds the last ten key codes. *)
Lemma buffer_is_tail ks : buffer_after ks = slice_last 10 ks.
Proof.
  induction ks as [|k ks IH] using rev_ind; [done|].
  rewrite buffer_after_snoc, IH. unfold press. cbn [fst].
  change (length konamiCode) with 10.
  apply (slice_last_push 10 ks k). lia.
Qed.

Lemma every_from_spec l :
  (length l =? length konamiCode)%nat && every_from 0 l = true
  <-> l = konamiCode.
Proof.
  split.
  - intros [Hlen Hall]%andb_true_iff. apply Nat.eqb_eq in Hlen.
    do 11 (destruct l as [|? l]; try discriminate Hlen).
    cbn in Hall. repeat (apply andb_true_iff in Hall as [?%bool_decide_eq_true Hall]).
    unfold konamiCode. simplify_eq/=. done.
  - intros ->. vm_compute. reflexivity.
Qed.

End Surprise.

(** X11. The surprise is shown exactly when the last ten keys pressed are
    the sequence, whatever was pressed before: after any keys [ks] the
    buffer holds their last ten codes (all of them when there are fewer),
    and the key [k] shows the notification if and only if the last ten
    codes of [ks] followed by [k] are up, up, down, down, left, right,
    left, right, B, A.  The buffer is not cleared when the surprise is
    shown. *)
Theorem konami_detects (ks : list nat) (k : nat) :
  Konami.buffer_after ks = Konami.slice_last 10 ks /\
  (Konami.press (Konami.buffer_after ks) k).1
  = Konami.slice_last 10 (ks ++ [k]) /\
  ((Konami.press (Konami.buffer_after ks) k).2 = true
   <-> Konami.slice_last 10 (ks ++ [k]) = Konami.konamiCode) /\
  ((Konami.press (Konami.buffer_after ks) k).2 = true ->
   Konami.buffer_after (ks ++ [k]) = Konami.konamiCode).
Proof.
  pose proof (buffer_is_tail (ks ++ [k])) as Hb.
  rewrite buffer_after_snoc in Hb.
  split; [apply buffer_is_tail|]. split; [done|].
  assert ((Konami.press (Konami.buffer_after ks) k).2 = true
          <-> Konami.slice_last 10 (ks ++ [k]) = Konami.konamiCode) as Hiff.
  { rewrite <- Hb. unfold Konami.press at 1. cbn [snd].
    apply every_from_spec. }
  split; [done|]. intros Hf. rewrite buffer_after_snoc, Hb. by apply Hiff.
Qed.

(** ** The throttle *)

Section Throttled.

Import Throttle.

Lemma throttle_inv_step limit clock c ev :
  kept limit clock c ->
  timely limit clock [ev] c ->
  kept limit (match ev with Invoke now | Fire now => now end)
       (step limit c ev).
Proof.
  intros (Hsp & Hlast & Hran & Hdue) [Hev _].
  destruct c as [lr lf rn]. unfold kept in *. simpl in *.
  destruct ev as [now|now]; simpl.
  - destruct Hev as [Hc Hpos]. unfold invoke, never_ran. simpl.
    destruct lr as [[|last]|] eqn:Hlr; simpl.
    + destruct rn as [|a rn]; [done|]. simplify_eq/=.
      destruct (Hran 0 ltac:(left)). lia.
    + split; [done|]. split; [done|]. split.
      * intros x Hx. destruct (Hran x Hx). lia.
      * intros due [= <-]. exists (S last). split; [done|].
        assert (S last <= clock); [|lia].
        destruct rn as [|a rn]; [done|]. simplify_eq/=.
        destruct (Hran (S last) ltac:(left)). lia.
    + destruct rn as [|a rn]; [|done].
      split; [done|]. split; [done|]. split.
      * intros x [->|Hx%elem_of_nil]%elem_of_cons; [lia|done].
      * intros due Hd. destruct (Hdue due Hd) as (? & ? & _). done.
  - destruct Hev as (Hc & Hpos & due & Hd & Hle). unfold timeout. simpl.
    rewrite Hd. destruct (Hdue due Hd) as (last & -> & Hgap). simpl.
    destruct (Nat.leb_spec limit (now - last)) as [Hok|Hno]; simpl.
    + split; [|split; [done|split; [|done]]].
      * destruct rn as [|a rn]; [done|]. simplify_eq/=. split; [lia|done].
      * intros x [->|Hx]%elem_of_cons; [lia|]. destruct (Hran x Hx). lia.
    + split; [done|]. split; [done|]. split; [|done].
      intros x Hx. destruct (Hran x Hx). lia.
Qed.

Lemma throttle_inv_play limit evs : forall clock c,
  kept limit clock c -> timely limit clock evs c ->
  exists clock', kept limit clock' (play limit evs c).
Proof.
  induction evs as [|ev evs IH]; intros clock c Hi Ht; [by exists clock|].
  destruct Ht as [Hev Hrest]. cbn [play foldl].
  eapply IH; [|exact Hrest].
  apply (throttle_inv_step limit clock); [done|]. by split.
Qed.

Lemma timely_app limit evs ev : forall clock c,
  timely limit clock (evs ++ [ev]) c ->
  timely limit clock evs c /\
  exists clock', timely limit clock' [ev] (play limit evs c).
Proof.
  induction evs as [|e evs IH]; intros clock c Ht.
  - split; [done|]. by exists clock.
  - destruct Ht as [He Hrest]. destruct (IH _ _ Hrest) as [H1 H2].
    split; [by split|]. exact H2.
Qed.

Lemma throttle_inv_fresh limit : kept limit 0 fresh.
Proof.
  unfold kept. simpl. split; [done|]. split; [done|].
  split; [by intros t ?%elem_of_nil | done].
Qed.

End Throttled.

(** X12. The throttle keeps its promise: whatever the calls and whenever
    the timer fires (time not going back, and the clock past 0), two runs
    of the throttled function are at least [limit] ms apart; the first call
    runs it at once; and a timer set by a call in between always runs it
    when it fires, so that the last call of a burst is not lost: the test
    inside the timer never fails. *)
Theorem throttle_spaces_runs (limit : nat) (evs : list Throttle.event) :
  Throttle.timely limit 0 evs Throttle.fresh ->
  Throttle.spaced limit (Throttle.ran (Throttle.play limit evs Throttle.fresh))
  /\
  (forall now,
     Throttle.timely limit 0 (evs ++ [Throttle.Fire now]) Throttle.fresh ->
     Throttle.ran
       (Throttle.play limit (evs ++ [Throttle.Fire now]) Throttle.fresh)
     = now :: Throttle.ran (Throttle.play limit evs Throttle.fresh)) /\
  (forall now,
     Throttle.ran (Throttle.invoke limit now Throttle.fresh) = [now]).
Proof.
  intros Hevs.
  destruct (throttle_inv_play limit evs 0 _ (throttle_inv_fresh limit) Hevs)
    as [clock Hinv].
  split; [apply Hinv|]. split; [|done]. intros now Ht.
  destruct (timely_app limit evs _ _ _ Ht) as [_ [clock' Hlast]].
  unfold Throttle.play. rewrite foldl_app. cbn [foldl Throttle.step].
  fold (Throttle.play limit evs Throttle.fresh).
  destruct Hlast as [(_ & _ & due & Hd & Hle) _].
  destruct Hinv as (_ & _ & _ & Hdue).
  destruct (Hdue due Hd) as (last & Hl & Hgap).
  unfold Throttle.timeout. rewrite Hd, Hl. simpl.
  by rewrite (proj2 (Nat.leb_le limit (now - last))) by lia.
Qed.

Lemma throttle_spaces_runs_witness :
  let evs := [ Throttle.Invoke 100; Throttle.Invoke 104;
               Throttle.Invoke 110; Throttle.Fire 117;
               Throttle.Invoke 120 ] in
  Throttle.ran (Throttle.play 16 evs Throttle.fresh) = [117; 100] /\
  Throttle.spaced 16 (Throttle.ran (Throttle.play 16 evs Throttle.fresh)) /\
  Throttle.lastFunc (Throttle.play 16 evs Throttle.fresh) = Some 133 /\
  Throttle.ran (Throttle.play 16 (evs ++ [Throttle.Fire 140]) Throttle.fresh)
  = [140; 117; 100].
Proof.
  assert (Throttle.timely 16 0
            ([ Throttle.Invoke 100; Throttle.Invoke 104;
               Throttle.Invoke 110; Throttle.Fire 117;
               Throttle.Invoke 120 ] ++ [Throttle.Fire 140])
            Throttle.fresh) as Ht.
  { simpl. repeat split; try lia.
    - exists 116. split; [reflexivity | lia].
    - exists 133. split; [reflexivity | lia]. }
  assert (Throttle.timely 16 0
            [ Throttle.Invoke 100; Throttle.Invoke 104;
              Throttle.Invoke 110; Throttle.Fire 117;
              Throttle.Invoke 120 ] Throttle.fresh) as Hevs.
  { simpl. repeat split; try lia. exists 116. split; [reflexivity | lia]. }
  destruct (throttle_spaces_runs 16 _ Hevs) as (H1 & H2 & _).
  split; [reflexivity|]. split; [exact H1|]. split; [reflexivity|].
  exact (H2 140 Ht).
Defined.
